(** * killteamjson: the field-selective JSON transformers

    A shallow embedding of the repository's Python tools: the field
    classifiers, the recursive walkers of the translation scripts, the
    provider adapters with their retry and batching, the character
    normalisation of [check_unicode.py], the field cleaner and the action
    merger.  Python strings are sequences of code points, JSON objects are
    key/value sequences in insertion order, exceptions are an explicit
    result, and the file system is a finite map from paths to text. *)

From Stdlib Require Import List NArith ZArith String Ascii Bool Lia DecimalNat.
From stdpp Require Import gmap.
Import ListNotations.

Set Warnings "-register-all".

Local Open Scope N_scope.

(** ** Python strings *)

Module Py.

(** A [str] is a sequence of Unicode code points. *)
Abbreviation pystr := (list N).

(** An ASCII literal as a [str]. *)
Definition py (s : string) : pystr := List.map N_of_ascii (list_ascii_of_string s).

Fixpoint str_eqb (a b : pystr) : bool :=
  match a, b with
  | [], [] => true
  | x :: a', y :: b' => N.eqb x y && str_eqb a' b'
  | _, _ => false
  end.

(** [x in xs] for a list, tuple or set of strings. *)
Definition str_in (x : pystr) (xs : list pystr) : bool := existsb (str_eqb x) xs.

(** [str.isspace] on one code point: the Unicode white space of CPython. *)
Definition isspace (c : N) : bool :=
  ((9 <=? c) && (c <=? 13)) || ((28 <=? c) && (c <=? 32))
  || (c =? 133) || (c =? 160) || (c =? 5760)
  || ((8192 <=? c) && (c <=? 8202))
  || (c =? 8232) || (c =? 8233) || (c =? 8239) || (c =? 8287) || (c =? 12288).

Fixpoint lstrip (s : pystr) : pystr :=
  match s with
  | c :: s' => if isspace c then lstrip s' else s
  | [] => []
  end.

Definition rstrip (s : pystr) : pystr := rev (lstrip (rev s)).

(** [s.strip()] *)
Definition strip (s : pystr) : pystr := rstrip (lstrip s).

(** Truth value of a [str]: non-empty. *)
Definition str_truthy (s : pystr) : bool :=
  match s with [] => false | _ :: _ => true end.

(** [c.lower()] on the ASCII letters.  Outside ASCII Python lowers by the
    Unicode tables, but no code point above 127 lowers to a sequence that
    contains an ASCII letter of the suffixes and substrings tested in this
    repository, so those tests see the same answer. *)
Definition lower_char (c : N) : N :=
  if (65 <=? c) && (c <=? 90) then c + 32 else c.

Definition lower (s : pystr) : pystr := List.map lower_char s.

Fixpoint startswith (s pre : pystr) {struct pre} : bool :=
  match pre, s with
  | [], _ => true
  | p :: pre', c :: s' => N.eqb c p && startswith s' pre'
  | _ :: _, [] => false
  end.

Definition endswith (s suf : pystr) : bool := startswith (rev s) (rev suf).

(** [s.endswith((a, b, ...))] *)
Definition endswith_any (s : pystr) (sufs : list pystr) : bool :=
  existsb (endswith s) sufs.

(** [sub in s] for strings. *)
Fixpoint contains (s sub : pystr) : bool :=
  startswith s sub || match s with [] => false | _ :: s' => contains s' sub end.

(** [sep.join(parts)] *)
Fixpoint join (sep : pystr) (parts : list pystr) : pystr :=
  match parts with
  | [] => []
  | [p] => p
  | p :: rest => p ++ sep ++ join sep rest
  end.

(** [s.split(c)] for a separator of one code point: the pieces between
    the occurrences of [c]; the empty string gives one empty piece. *)
Fixpoint split (c : N) (s : pystr) : list pystr :=
  match s with
  | [] => [[]]
  | x :: s' =>
      if N.eqb x c then [] :: split c s'
      else match split c s' with
           | piece :: pieces => (x :: piece) :: pieces
           | [] => [[x]]
           end
  end.

(** [s.count(c)] and [s.replace(c, r)] for a [c] of one code point. *)
Definition count (c : N) (s : pystr) : nat :=
  List.length (List.filter (N.eqb c) s).

Definition replace (c : N) (r : pystr) (s : pystr) : pystr :=
  flat_map (fun x => if N.eqb x c then r else [x]) s.

(** [c in s] for a [c] of one code point. *)
Definition has_char (c : N) (s : pystr) : bool := existsb (N.eqb c) s.

(** A code point of the surrogate range.  A [str] can hold one on its
    own ([json.loads] reads the escape [\ud800] as one); UTF-8 has no
    encoding for it, so [s.encode('utf-8')] raises. *)
Definition surrogate (c : N) : bool := (0xD800 <=? c) && (c <=? 0xDFFF).

Definition encodable_str (s : pystr) : bool :=
  forallb (fun c => negb (surrogate c)) s.

End Py.
Export Py.

(** ** JSON values, exceptions and state *)

Module Json.

(** A JSON number as [json.load] gives it: an [int] or a [float]
    (mantissa and binary exponent).  No function below computes with
    numbers; only whether one is zero is ever looked at. *)
Inductive pynum : Type :=
| PInt (z : Z)
| PFloat (m e : Z).

(** The values [json.load] produces.  A [dict] keeps its keys in
    insertion order, so an object is the sequence of its items; Python
    keeps the keys of one object distinct. *)
Inductive json : Type :=
| JNull
| JBool (b : bool)
| JNum (n : pynum)
| JStr (s : pystr)
| JArr (items : list json)
| JObj (kvs : list (pystr * json)).

Abbreviation dict := (list (list N * json)).

(** Every key and every string value can be encoded in UTF-8. *)
Fixpoint encodable (v : json) : bool :=
  match v with
  | JStr s => encodable_str s
  | JArr items => forallb encodable items
  | JObj kvs =>
      forallb (fun kv : pystr * json =>
                 encodable_str (fst kv) && encodable (snd kv)) kvs
  | _ => true
  end.

(** [d.get(k)]: the value of the first item named [k]. *)
Fixpoint dict_get (k : pystr) (d : dict) : option json :=
  match d with
  | [] => None
  | (k', v) :: d' => if str_eqb k' k then Some v else dict_get k d'
  end.

(** [k in d] *)
Definition dict_has (k : pystr) (d : dict) : bool :=
  match dict_get k d with Some _ => true | None => false end.

(** [d.pop(k, None)]: the item named [k] goes, the others keep their
    order. *)
Definition dict_pop (k : pystr) (d : dict) : dict :=
  List.filter (fun kv => negb (str_eqb (fst kv) k)) d.

(** [d[k] = v]: an existing key keeps its place and takes the new value,
    a new key goes to the end. *)
Fixpoint dict_set (k : pystr) (v : json) (d : dict) : dict :=
  match d with
  | [] => [(k, v)]
  | (k', v') :: d' =>
      if str_eqb k' k then (k', v) :: d' else (k', v') :: dict_set k v d'
  end.

Definition dict_keys (d : dict) : list pystr := List.map fst d.

(** Truth value of a Python object. *)
Definition truthy (v : json) : bool :=
  match v with
  | JNull => false
  | JBool b => b
  | JNum (PInt z) => negb (Z.eqb z 0)
  | JNum (PFloat m _) => negb (Z.eqb m 0)
  | JStr s => str_truthy s
  | JArr l => match l with [] => false | _ => true end
  | JObj d => match d with [] => false | _ => true end
  end.

(** Outcome of a computation that may raise an [Exception]. *)
Inductive res (A : Type) : Type :=
| Ok (a : A)
| Exn.
Arguments Ok {A} a.
Arguments Exn {A}.

Definition res_bind {A B} (r : res A) (k : A -> res B) : res B :=
  match r with Ok a => k a | Exn => Exn end.

Fixpoint res_mapM {A B} (f : A -> res B) (l : list A) : res (list B) :=
  match l with
  | [] => Ok []
  | a :: l' =>
      res_bind (f a) (fun b => res_bind (res_mapM f l') (fun bs => Ok (b :: bs)))
  end.

(** Computations over a state [S] that may raise: the state an exception
    leaves behind stays visible to the handler. *)
Definition M (S A : Type) : Type := S -> res A * S.

Definition ret {S A} (a : A) : M S A := fun s => (Ok a, s).

Definition raise {S A} : M S A := fun s => (Exn, s).

Definition bind {S A B} (m : M S A) (k : A -> M S B) : M S B :=
  fun s => match m s with
           | (Ok a, s') => k a s'
           | (Exn, s') => (Exn, s')
           end.

(** [try: m  except Exception: h] *)
Definition catch {S A} (m : M S A) (h : M S A) : M S A :=
  fun s => match m s with
           | (Ok a, s') => (Ok a, s')
           | (Exn, s') => h s'
           end.

Definition lift {S A} (r : res A) : M S A := fun s => (r, s).

Section Loops.
Context {S A B : Type}.

(** [[f(x) for x in l]], left to right. *)
Definition mapM (f : A -> M S B) : list A -> M S (list B) :=
  fix go (l : list A) : M S (list B) :=
    match l with
    | [] => ret []
    | a :: l' => bind (f a) (fun b => bind (go l') (fun bs => ret (b :: bs)))
    end.

(** [for x in l: acc = f(acc, x)] *)
Definition foldM (f : B -> A -> M S B) : list A -> B -> M S B :=
  fix go (l : list A) (acc : B) : M S B :=
    match l with
    | [] => ret acc
    | a :: l' => bind (f acc a) (fun acc' => go l' acc')
    end.
End Loops.

End Json.
Export Json.

Notation "'let*' x ':=' m 'in' k" := (bind m (fun x => k))
  (at level 10, x name, m at level 100, k at level 200).

(** The shape of a document: its objects' keys in order and its arrays'
    lengths, every scalar forgotten. *)
Inductive shape : Type :=
| SLeaf
| SArr (items : list shape)
| SObj (kvs : list (pystr * shape)).

Fixpoint shape_of (v : json) : shape :=
  match v with
  | JArr l => SArr (List.map shape_of l)
  | JObj d => SObj (List.map (fun kv => (fst kv, shape_of (snd kv))) d)
  | _ => SLeaf
  end.

(** Python keeps the keys of every object distinct. *)
Inductive distinct_keys : json -> Prop :=
| dk_null : distinct_keys JNull
| dk_bool b : distinct_keys (JBool b)
| dk_num n : distinct_keys (JNum n)
| dk_str s : distinct_keys (JStr s)
| dk_arr l : Forall distinct_keys l -> distinct_keys (JArr l)
| dk_obj kvs :
    List.NoDup (List.map fst kvs) ->
    Forall (fun kv => distinct_keys (snd kv)) kvs ->
    distinct_keys (JObj kvs).

(** No object of the document, at any depth, has a key in [names]. *)
Inductive keys_avoid (names : list pystr) : json -> Prop :=
| ka_null : keys_avoid names JNull
| ka_bool b : keys_avoid names (JBool b)
| ka_num n : keys_avoid names (JNum n)
| ka_str s : keys_avoid names (JStr s)
| ka_arr l : Forall (keys_avoid names) l -> keys_avoid names (JArr l)
| ka_obj kvs :
    Forall (fun kv => ~ In (fst kv) names /\ keys_avoid names (snd kv)) kvs ->
    keys_avoid names (JObj kvs).

(** Arrays as the walkers expect them: one whose first element is a
    string holds strings only. *)
Definition is_str (v : json) : Prop :=
  match v with JStr _ => True | _ => False end.

Inductive uniform_arrays : json -> Prop :=
| ua_null : uniform_arrays JNull
| ua_bool b : uniform_arrays (JBool b)
| ua_num n : uniform_arrays (JNum n)
| ua_str s : uniform_arrays (JStr s)
| ua_arr l :
    Forall uniform_arrays l ->
    match l with JStr _ :: _ => Forall is_str l | _ => True end ->
    uniform_arrays (JArr l)
| ua_obj kvs :
    Forall (fun kv => uniform_arrays (snd kv)) kvs ->
    uniform_arrays (JObj kvs).

(** A leaf transform that always returns. *)
Definition never_raises {S : Type} (f : pystr -> pystr -> M S pystr) : Prop :=
  forall text target_lang s, exists t s', f text target_lang s = (Ok t, s').

(** A leaf transform for the examples: ASCII upper case, no state. *)
Definition upper_char (c : N) : N :=
  if (97 <=? c) && (c <=? 122) then c - 32 else c.

Definition shout (text target_lang : pystr) : M unit pystr :=
  ret (List.map upper_char text).

(** A leaf transform that marks what it returns and records what it was
    applied to. *)
Definition mark (text target_lang : pystr) : M (list pystr) pystr :=
  fun seen => (Ok (text ++ py "!"), seen ++ [text]).

(** ** tools/translation_config.py *)

Module translation_config.

(** A node of the rule table: a flag or a nested table. *)
Inductive rule : Type :=
| RBool (b : bool)
| RDict (entries : list (pystr * rule)).

Fixpoint rule_get (k : pystr) (entries : list (pystr * rule)) : option rule :=
  match entries with
  | [] => None
  | (k', r) :: rest => if str_eqb k' k then Some r else rule_get k rest
  end.

Definition rule_truthy (r : rule) : bool :=
  match r with
  | RBool b => b
  | RDict [] => false
  | RDict (_ :: _) => true
  end.

Definition flag (name : string) : pystr * rule := (py name, RBool true).

Definition action_rules : rule :=
  RDict [flag "name"; flag "description"; flag "effects"; flag "conditions"].

Definition TRANSLATION_RULES : list (pystr * rule) :=
  [ (py "actions.json", RDict [ (py "actions", action_rules) ]);
    (py "ops_2025.json",
      RDict [ (py "ops", RDict [flag "title"; flag "reveal";
                                flag "additionalRules"; flag "victoryPoints"]);
              (py "actions", action_rules) ]);
    (py "teams",
      RDict [ flag "killteamName"; flag "description"; flag "composition";
              (py "opTypes",
                RDict [ flag "opTypeName";
                        (py "weapons",
                          RDict [ flag "wepName";
                                  (py "profiles", RDict [flag "profileName"]) ]);
                        (py "abilities", RDict [flag "abilityName"; flag "description"]);
                        (py "options", RDict [flag "optionName"; flag "description"]) ]) ]);
    (py "universal_equipment.json",
      RDict [ (py "equipments", RDict [flag "eqName"; flag "description"; flag "effects"]);
              (py "actions", action_rules) ]);
    (py "weapon_rules.json",
      RDict [ (py "weapon_rules", RDict [flag "name"; flag "description"]) ]) ].

(** The key under which a file's rules are looked up: every [.json] file
    with [teams] in its name uses the [teams] rules. *)
Definition rules_key (file_name : pystr) : pystr :=
  if endswith file_name (py ".json") && contains (lower file_name) (py "teams")
  then py "teams"
  else file_name.

(** The [for parent_field in field_path] loop: [None] is its early
    [return False]. *)
Fixpoint navigate (current_rules : rule) (field_path : list pystr) : option rule :=
  match field_path with
  | [] => Some current_rules
  | parent_field :: rest =>
      match current_rules with
      | RDict entries =>
          match rule_get parent_field entries with
          | Some sub => navigate sub rest
          | None => None
          end
      | RBool _ => None
      end
  end.

(** [should_translate_field] over a rule table; the value returned is the
    object Python returns, a flag or (for a field that names a nested
    table) that table. *)
Definition should_translate_field_in (rules_table : list (pystr * rule))
    (file_name : pystr) (field_path : list pystr) (field_name : pystr) : rule :=
  match rule_get (rules_key file_name) rules_table with
  | None => RBool false
  | Some rules =>
      match navigate rules field_path with
      | None => RBool false
      | Some (RDict entries) =>
          match rule_get field_name entries with
          | Some v => v
          | None => RBool false
          end
      | Some (RBool _) => RBool false
      end
  end.

Definition should_translate_field : pystr -> list pystr -> pystr -> rule :=
  should_translate_field_in TRANSLATION_RULES.

(** What the fail-closed property speaks of: the node an ancestor path
    leads to, one table level per segment. *)
Inductive leads_to : rule -> list pystr -> rule -> Prop :=
| leads_here r : leads_to r [] r
| leads_down entries seg sub path r :
    rule_get seg entries = Some sub ->
    leads_to sub path r ->
    leads_to (RDict entries) (seg :: path) r.

(** A segment is absent from a node when the node is a flag or a table
    without that key. *)
Definition absent_from (seg : pystr) (node : rule) : Prop :=
  match node with
  | RBool _ => True
  | RDict entries => ~ In seg (List.map fst entries)
  end.

End translation_config.

(** ** tools/translate_comprehensive.py *)

Module translate_comprehensive.

Definition NON_TRANSLATABLE_FIELDS : list pystr :=
  List.map py
    [ "id"; "type"; "seq"; "AP"; "APL"; "GA"; "DF"; "SV"; "W"; "M";
      "MV"; "APL_base"; "GA_base"; "DF_base"; "SV_base"; "W_base";
      "M_base"; "MV_base"; "D"; "A"; "BS"; "WS" ]%string.

Definition TRANSLATABLE_FIELDS : list pystr :=
  List.map py
    [ "name"; "description"; "killteamName"; "opTypeName"; "wepName";
      "abilityName"; "ployName"; "eqName"; "optionName"; "title";
      "profileName"; "composition"; "reveal"; "additionalRules";
      "victoryPoints"; "effects"; "conditions"; "packs"; "archetypes";
      "ability"; "keyword" ]%string.

Definition id_suffixes : list pystr :=
  [py "id"; py "_id"; py "code"; py "_code"].

Definition should_translate_field (field_name : pystr) (value : json) : bool :=
  if str_in field_name NON_TRANSLATABLE_FIELDS then false
  else if str_in field_name TRANSLATABLE_FIELDS then true
  else
    match value with
    | JStr s =>
        if str_truthy (strip s) && negb (startswith field_name (py "_")) then
          if endswith_any (lower field_name) id_suffixes then false else true
        else false
    | _ => false
    end.

Section Walk.
Context {S : Type}.
(** [translate_func(text, target_lang)], whatever it does: it may raise
    and it may change the state of the world. *)
Variable translate_func : pystr -> pystr -> M S pystr.
Variable target_lang : pystr.

(** The [str] branch of [translate_value]. *)
Definition translate_str (s : pystr) (field_name : pystr) : M S pystr :=
  if should_translate_field field_name (JStr s) && str_truthy (strip s)
  then catch (translate_func s target_lang) (ret s)
  else ret s.

(** One element of a list of strings that is in scope. *)
Definition translate_item (item : json) : M S json :=
  match item with
  | JStr s =>
      if str_truthy (strip s)
      then let* t := translate_func s target_lang in ret (JStr t)
      else ret item
  | _ => ret item
  end.

Fixpoint translate_value (value : json) (field_name : pystr) : M S json :=
  match value with
  | JStr s => let* t := translate_str s field_name in ret (JStr t)
  | JObj kvs =>
      let* result :=
        foldM (fun (result : dict) (kv : pystr * json) =>
                 let (k, v) := kv in
                 let* translated_key :=
                   (if str_in k TRANSLATABLE_FIELDS
                    then translate_str k []
                    else ret k) in
                 let* v' := translate_value v k in
                 ret (dict_set translated_key v' result))
              kvs [] in
      ret (JObj result)
  | JArr items =>
      match items with
      | [] => ret value
      | JStr first :: _ =>
          if str_in field_name [py "effects"; py "conditions"; py "packs"]
             || should_translate_field field_name (JStr first)
          then let* items' := mapM translate_item items in ret (JArr items')
          else ret value
      | _ :: _ =>
          let* items' := mapM (fun item => translate_value item field_name) items in
          ret (JArr items')
      end
  | _ => ret value
  end.
End Walk.

End translate_comprehensive.

(** What the walk of [translate_comprehensive.py] does to the keys. *)

Module renaming.
Import translate_comprehensive.

(** [result[name] = value] for every item of a list, in order, starting
    from an empty [dict]: an item whose name is already there replaces the
    value at the place of the first one. *)
Definition assign (items : list (pystr * json)) : dict :=
  fold_left (fun (result : dict) (item : pystr * json) =>
               dict_set (fst item) (snd item) result) items [].

(** Whether a list starts with a string: [isinstance(value[0], str)]. *)
Definition strings_first (l : list json) : bool :=
  match l with
  | JStr _ :: _ => true
  | _ => false
  end.

(** An element of a list of strings and what stands at its place
    afterwards: a string for a string, the element itself otherwise. *)
Definition item_of (item r : json) : Prop :=
  match item with
  | JStr _ => exists t, r = JStr t
  | _ => r = item
  end.

Section Renamed.
Context {S : Type}.
Variable translate_func : pystr -> pystr -> M S pystr.
Variable target_lang : pystr.

(** The name the walk stores the value of key [k] under: [k] itself when
    [k] is not listed in [TRANSLATABLE_FIELDS]; for a listed key, the text
    that a call of the leaf transform on [k] returned, and [k] itself
    when the call raised. *)
Definition stored_as (k name : pystr) : Prop :=
  if str_in k TRANSLATABLE_FIELDS
  then exists s s',
         translate_func k target_lang s = (Ok name, s')
         \/ (translate_func k target_lang s = (Exn, s') /\ name = k)
  else name = k.

(** How the document returned is related to the input: [null], booleans
    and numbers are the same, a string is some string, an array has the
    same length element by element (the elements of an array that starts
    with a string are not walked into), and an object is what assigning
    every value, in the input's order, under the name its key is stored
    as gives. *)
Inductive renamed : json -> json -> Prop :=
| rn_null : renamed JNull JNull
| rn_bool b : renamed (JBool b) (JBool b)
| rn_num n : renamed (JNum n) (JNum n)
| rn_str s t : renamed (JStr s) (JStr t)
| rn_arr l l' :
    strings_first l = false -> Forall2 renamed l l' ->
    renamed (JArr l) (JArr l')
| rn_strs l l' :
    strings_first l = true -> Forall2 item_of l l' ->
    renamed (JArr l) (JArr l')
| rn_obj kvs items :
    Forall2 (fun kv item =>
               stored_as (fst kv) (fst item) /\ renamed (snd kv) (snd item))
            kvs items ->
    renamed (JObj kvs) (JObj (assign items)).
End Renamed.

End renaming.

(** ** tools/translate_deepl.py: the classifier *)

Module translate_deepl.

Definition NON_TRANSLATABLE : list pystr :=
  List.map py
    [ "id"; "type"; "seq"; "AP"; "APL"; "GA"; "DF"; "SV"; "W"; "M";
      "MV"; "version"; "file"; "D"; "A"; "BS"; "WS" ]%string.

Definition TRANSLATABLE : list pystr :=
  List.map py
    [ "name"; "description"; "killteamName"; "opTypeName"; "wepName";
      "abilityName"; "ployName"; "eqName"; "optionName"; "title";
      "profileName"; "composition"; "reveal"; "additionalRules";
      "victoryPoints"; "ability"; "keyword"; "team" ]%string.

Definition should_translate_field (field_name : pystr) (value : json) : bool :=
  if str_in field_name NON_TRANSLATABLE then false
  else if str_in field_name TRANSLATABLE then true
  else
    match value with
    | JStr s =>
        if str_truthy (strip s) && negb (startswith field_name (py "_")) then
          if endswith_any (lower field_name)
               [py "id"; py "_id"; py "code"; py "_code"]
          then false else true
        else false
    | _ => false
    end.

End translate_deepl.

(** ** The web-translation endpoint

    [requests.get] is the one point where the scripts meet the network.
    The k-th request of a run ends in a raised exception (time-out,
    connection error) or in a response with a status code and a body that
    [response.json()] either parses or rejects. *)

Module gtx.

Inductive http_outcome : Type :=
| Failed
| Response (status_code : Z) (payload : option json).

Record network : Type := {
  have_requests : bool;            (* does [import requests] succeed *)
  requests_get : nat -> pystr -> pystr -> http_outcome
}.

(** [v[0]] *)
Definition getitem0 (v : json) : res json :=
  match v with
  | JArr (x :: _) => Ok x
  | JStr (c :: _) => Ok (JStr [c])
  | _ => Exn
  end.

(** [for part in v] *)
Definition iter (v : json) : res (list json) :=
  match v with
  | JArr l => Ok l
  | JStr s => Ok (List.map (fun c => JStr [c]) s)
  | JObj d => Ok (List.map (fun kv => JStr (fst kv)) d)
  | _ => Exn
  end.

(** [[part[0] for part in parts if part[0]]] *)
Fixpoint heads (parts : list json) : res (list json) :=
  match parts with
  | [] => Ok []
  | part :: rest =>
      res_bind (getitem0 part) (fun h =>
      if truthy h
      then res_bind (getitem0 part) (fun h' =>
           res_bind (heads rest) (fun hs => Ok (h' :: hs)))
      else heads rest)
  end.

(** [''.join(parts)] *)
Fixpoint concat_strs (parts : list json) : res pystr :=
  match parts with
  | [] => Ok []
  | JStr s :: rest => res_bind (concat_strs rest) (fun t => Ok (s ++ t))
  | _ :: _ => Exn
  end.

(** The lines between [result = response.json()] and the end of the
    [if]: [Some] is the [return] of the joined text, [None] falls
    through. *)
Definition read_result (result : json) : res (option pystr) :=
  if truthy result then
    res_bind (getitem0 result) (fun row =>
    if truthy row then
      res_bind (iter row) (fun parts =>
      res_bind (heads parts) (fun translated_parts =>
      res_bind (concat_strs translated_parts) (fun t => Ok (Some t))))
    else Ok None)
  else Ok None.

Section Request.
Variable net : network.

(** [import requests] *)
Definition import_requests : M nat unit :=
  if have_requests net then ret tt else raise.

(** From [requests.get] to the end of the [if response.status_code]
    block; the state counts the requests sent. *)
Definition request (text target_lang : pystr) : M nat (option pystr) :=
  fun n =>
    match requests_get net n text target_lang with
    | Failed => (Exn, S n)
    | Response status_code payload =>
        if Z.eqb status_code 200 then
          match payload with
          | Some result => (read_result result, S n)
          | None => (Exn, S n)
          end
        else (Ok None, S n)
    end.
End Request.

(** An attempt fails when the request raises, the status is not 200, the
    body is not JSON, the body is an empty value, or reading it raises. *)
Definition failed_attempt (o : http_outcome) : Prop :=
  match o with
  | Failed => True
  | Response status_code payload =>
      status_code <> 200%Z \/
      match payload with
      | None => True
      | Some result => truthy result = false \/ read_result result = Exn
      end
  end.

(** An attempt raises when the request raises, the body of a 200 is not
    JSON, or reading the body raises: what sends [translate_text] of
    [translate_precise.py] to its retry. *)
Definition attempt_raises (o : http_outcome) : Prop :=
  match o with
  | Failed => True
  | Response status_code payload =>
      status_code = 200%Z /\
      match payload with
      | None => True
      | Some result => read_result result = Exn
      end
  end.

(** A provider that cannot be reached: every request raises. *)
Definition unreachable : network :=
  {| have_requests := true; requests_get := fun _ _ _ => Failed |}.

(** A provider that is down for the first two requests and answers
    from the third on. *)
Definition down_twice : network :=
  {| have_requests := true;
     requests_get := fun k text _ =>
       if Nat.ltb k 2 then Failed
       else Response 200 (Some (JArr [JArr [JArr [JStr text; JStr text]]])) |}.

(** A provider whose 200 answers carry a body that is JSON but not of
    the endpoint's form. *)
Definition garbled (body : json) : network :=
  {| have_requests := true;
     requests_get := fun _ _ _ => Response 200 (Some body) |}.

(** A stub of the provider that answers every request with its own text,
    in the endpoint's format [[[[text, ...]], ...]]. *)
Definition echo : network :=
  {| have_requests := true;
     requests_get := fun _ text _ =>
       Response 200 (Some (JArr [JArr [JArr [JStr text; JStr text]]])) |}.

End gtx.

(** ** tools/translate_precise.py *)

Module translate_precise.
Import translation_config gtx.

Section Translate.
Variable net : network.

Definition translate_text (text target_lang : pystr) : M nat pystr :=
  if negb (str_truthy text) || negb (str_truthy (strip text)) then ret text
  else
    catch
      (let* _ := import_requests net in
       let* r := request net text target_lang in
       match r with Some t => ret t | None => ret text end)
      (let* r := catch (let* _ := import_requests net in
                        request net text target_lang)
                       (ret None) in
       match r with Some t => ret t | None => ret text end).
End Translate.

Section Walk.
Context {S : Type}.
Variable rules_table : list (pystr * rule).
(** The leaf transform; the script itself uses [translate_text]. *)
Variable translate_text : pystr -> pystr -> M S pystr.
Variables file_name target_lang : pystr.

Definition in_scope (field_path : list pystr) (field_name : pystr) : bool :=
  rule_truthy (should_translate_field_in rules_table file_name field_path field_name).

(** [field_path + [field_name] if field_name else field_path] *)
Definition extend (field_path : list pystr) (field_name : pystr) : list pystr :=
  if str_truthy field_name then field_path ++ [field_name] else field_path.

(** One turn of the [for item in value] loop over a list of strings:
    [item.strip()] raises on anything but a string. *)
Definition translate_item (item : json) : M S json :=
  match item with
  | JStr s =>
      if str_truthy (strip s)
      then let* t := translate_text s target_lang in ret (JStr t)
      else ret item
  | _ => raise
  end.

Fixpoint translate_value (value : json) (field_name : pystr)
    (field_path : list pystr) : M S json :=
  match value with
  | JStr s =>
      if in_scope field_path field_name && str_truthy (strip s)
      then catch (let* t := translate_text s target_lang in ret (JStr t))
                 (ret value)
      else ret value
  | JObj kvs =>
      let new_path := extend field_path field_name in
      let* kvs' :=
        mapM (fun kv : pystr * json =>
                let (k, v) := kv in
                let* v' := translate_value v k new_path in
                ret (k, v'))
             kvs in
      ret (JObj kvs')
  | JArr items =>
      match items with
      | [] => ret value
      | JStr _ :: _ =>
          if in_scope field_path field_name
          then let* translated := mapM translate_item items in
               ret (JArr translated)
          else ret value
      | _ :: _ =>
          let new_path := extend field_path field_name in
          let* items' :=
            mapM (fun item => translate_value item [] new_path) items in
          ret (JArr items')
      end
  | _ => ret value
  end.
End Walk.

End translate_precise.

(** ** tools/translate_fast.py *)

Module translate_fast.

Definition NON_TRANSLATABLE : list pystr :=
  List.map py
    [ "id"; "type"; "seq"; "AP"; "APL"; "GA"; "DF"; "SV"; "W"; "M";
      "MV"; "version"; "file"; "D"; "A"; "BS"; "WS" ]%string.

Definition TRANSLATABLE : list pystr :=
  List.map py
    [ "name"; "description"; "killteamName"; "opTypeName"; "wepName";
      "abilityName"; "ployName"; "eqName"; "optionName"; "title";
      "profileName"; "composition"; "reveal"; "additionalRules";
      "victoryPoints"; "ability"; "keyword"; "team" ]%string.

(** [o] and [e] with an acute accent. *)
Definition o_acute : pystr := [243].
Definition e_acute : pystr := [233].

Definition archetype_map : list (pystr * list (pystr * pystr)) :=
  [ (py "es",
      [ (py "Security", py "Seguridad");
        (py "Seek & Destroy", py "Buscar y Destruir");
        (py "Recon", py "Reconocimiento");
        (py "Infiltration", py "Infiltraci" ++ o_acute ++ py "n") ]);
    (py "fr",
      [ (py "Security", py "S" ++ e_acute ++ py "curit" ++ e_acute);
        (py "Seek & Destroy", py "Rechercher et D" ++ e_acute ++ py "truire");
        (py "Recon", py "Reconnaissance");
        (py "Infiltration", py "Infiltration") ]) ].

Fixpoint assoc {A : Type} (k : pystr) (l : list (pystr * A)) : option A :=
  match l with
  | [] => None
  | (k', a) :: l' => if str_eqb k' k then Some a else assoc k l'
  end.

Section Walk.
Context {S : Type}.
(** [translate_func(text, target_lang)] for a [str], and for a value
    that is not one: Python does not type the argument, and the
    [archetypes] branch hands over whatever the array holds.  (The
    script's own [translate_text] returns such a value when it is falsy
    and raises on any other.) *)
Variable translate_func : pystr -> pystr -> M S pystr.
Variable translate_other : json -> pystr -> M S json.
Variable target_lang : pystr.

(** [translate_func(item, target_lang) if item.strip() else item] *)
Definition translate_nonblank (item : json) : M S json :=
  match item with
  | JStr s =>
      if str_truthy (strip s)
      then let* t := translate_func s target_lang in ret (JStr t)
      else ret item
  | _ => raise
  end.

(** [archetype_map.get(target_lang, {}).get(item, translate_func(item,
    target_lang))]: the default is an argument, so it is computed for
    every item before the table is looked at.  An item that is not a
    string is no key of a table: the default is what comes back for
    [None], a [bool] or a number, and a [list] or a [dict] cannot be
    hashed, so [get] raises once the default has been computed. *)
Definition translate_archetype (item : json) : M S json :=
  match item with
  | JStr s =>
      let* fallback := translate_func s target_lang in
      match assoc target_lang archetype_map with
      | Some table =>
          match assoc s table with
          | Some mapped => ret (JStr mapped)
          | None => ret (JStr fallback)
          end
      | None => ret (JStr fallback)
      end
  | JArr _ | JObj _ =>
      let* fallback := translate_other item target_lang in raise
  | _ =>
      let* fallback := translate_other item target_lang in ret fallback
  end.

Fixpoint translate_value_recursive (value : json) (field_name : pystr)
    : M S json :=
  match value with
  | JStr s =>
      if str_in field_name TRANSLATABLE
         || (negb (str_in field_name NON_TRANSLATABLE) && str_truthy (strip s))
      then
        if endswith_any (lower field_name)
             [py "id"; py "_id"; py "code"; py "_code"]
        then ret value
        else if str_truthy (strip s)
        then catch (let* t := translate_func s target_lang in ret (JStr t))
                   (ret value)
        else ret value
      else ret value
  | JObj kvs =>
      let* kvs' :=
        mapM (fun kv : pystr * json =>
                let (k, v) := kv in
                let* v' := translate_value_recursive v k in
                ret (k, v'))
             kvs in
      ret (JObj kvs')
  | JArr items =>
      match items with
      | [] => ret value
      | JStr first :: _ =>
          if str_in field_name [py "effects"; py "conditions"; py "packs"]
          then let* r := mapM translate_nonblank items in ret (JArr r)
          else if str_eqb field_name (py "archetypes")
          then let* r := mapM translate_archetype items in ret (JArr r)
          else if str_truthy (strip first)
          then let* r := mapM translate_nonblank items in ret (JArr r)
          else
            let* r := mapM (fun item => translate_value_recursive item field_name)
                           items in
            ret (JArr r)
      | _ :: _ =>
          let* r := mapM (fun item => translate_value_recursive item field_name)
                         items in
          ret (JArr r)
      end
  | _ => ret value
  end.
End Walk.

(** The script's own [translate_text] on a value that is not a [str]:
    [not text] holds of a falsy value, which is returned as it is;
    on any other value [text.strip()] raises, before the [try]. *)
Definition translate_text_other {S : Type} (text : json) (target_lang : pystr)
    : M S json :=
  if truthy text then raise else ret text.

End translate_fast.

(** ** tools/translate_batch.py *)

Module translate_batch.
Import gtx.

Definition max_chars : nat := 4000.

Definition newline : N := 10.


Section Translate.
Variable net : network.

Definition translate_text (text target_lang source_lang : pystr) : M nat pystr :=
  if negb (str_truthy text) || negb (str_truthy (strip text)) then ret text
  else
    catch
      (let* _ := import_requests net in
       let* r := request net text target_lang in
       match r with Some t => ret t | None => ret text end)
      (ret text).

Variables target_lang source_lang : pystr.

(** Join a batch, translate it, split the answer into lines. *)
Definition send (current_batch : list pystr) : M nat (list pystr) :=
  let batch_text := join [newline] current_batch in
  let* translated := translate_text batch_text target_lang source_lang in
  ret (split newline translated).

(** The state of the [for text in texts] loop. *)
Record loop_state : Type := {
  results : list pystr;
  current_batch : list pystr;
  current_size : nat
}.

Definition step (st : loop_state) (text : pystr) : M nat loop_state :=
  let text_size := (List.length text * 2)%nat in
  if Nat.ltb max_chars (current_size st + text_size)
     && match current_batch st with [] => false | _ => true end
  then
    let* lines := send (current_batch st) in
    ret {| results := results st ++ lines;
           current_batch := [text];
           current_size := text_size |}
  else
    ret {| results := results st;
           current_batch := current_batch st ++ [text];
           current_size := (current_size st + text_size)%nat |}.

(** [while len(results) < len(texts): results.append("")] *)
Definition pad (n : nat) (rs : list pystr) : list pystr :=
  rs ++ repeat [] (n - List.length rs).

Definition translate_batch (texts : list pystr) : M nat (list pystr) :=
  catch
    (let* _ := import_requests net in
     let* st := foldM step texts
                  {| results := []; current_batch := []; current_size := 0 |} in
     let* rs :=
       (match current_batch st with
        | [] => ret (results st)
        | _ :: _ =>
            let* lines := send (current_batch st) in
            ret (results st ++ lines)
        end) in
     ret (firstn (List.length texts) (pad (List.length texts) rs)))
    (ret texts).
End Translate.

End translate_batch.

(** ** Files

    The file system is a finite map from paths to the text stored there.
    [json.loads], the text [json.dump(..., ensure_ascii=False, indent=2)]
    writes, what it leaves behind when it breaks off, and the permission
    to open a path for writing come from outside. *)

Module files.

Record io : Type := {
  json_loads : pystr -> option json;     (* [None]: [JSONDecodeError] *)
  json_dumps : json -> pystr;
  writable : pystr -> bool;
  cut_off : json -> pystr      (* the text in the file when a dump broke off *)
}.

Section Io.
Variable sys : io.

(** [open(path).read()] *)
Definition read_file (path : pystr) : M (gmap pystr pystr) pystr :=
  fun fs => match fs !! path with
            | Some content => (Ok content, fs)
            | None => (Exn, fs)
            end.

(** [open(path, 'w').write(content)] *)
Definition write_file (path content : pystr) : M (gmap pystr pystr) unit :=
  fun fs => if writable sys path
            then (Ok tt, <[path := content]> fs)
            else (Exn, fs).

(** [with open(path, 'w', encoding='utf-8') as f: json.dump(data, f,
    ensure_ascii=False, indent=2)].  Opening empties the file; the text
    is then written piece by piece, and the piece with a lone surrogate,
    in a key or in a string value, cannot be encoded: the dump raises
    there and the file keeps what was written before. *)
Definition dump_file (path : pystr) (data : json) : M (gmap pystr pystr) unit :=
  fun fs => if writable sys path
            then if encodable data
                 then (Ok tt, <[path := json_dumps sys data]> fs)
                 else (Exn, <[path := cut_off sys data]> fs)
            else (Exn, fs).

(** [path.exists()] *)
Definition file_exists (path : pystr) : M (gmap pystr pystr) bool :=
  fun fs => (Ok (match fs !! path with Some _ => true | None => false end), fs).

Definition parse (content : pystr) : M (gmap pystr pystr) json :=
  match json_loads sys content with
  | Some data => ret data
  | None => raise
  end.
End Io.

(** A small system for the examples: the only text that parses is [{}],
    every value is written as the empty text, every path can be written. *)
Definition toy : io :=
  {| json_loads := fun content =>
       if str_eqb content (py "{}") then Some (JObj []) else None;
     json_dumps := fun _ => [];
     writable := fun _ => true;
     cut_off := fun _ => [] |}.

End files.

(** ** check_unicode.py *)

Module check_unicode.
Import files.

Definition UNICODE_TO_ASCII : list (N * pystr) :=
  [ (0x2019, py "'");
    (0x2018, py "'");
    (0x201C, [34]);
    (0x201D, [34]);
    (0x2013, py "-");
    (0x2014, py "-");
    (0x00A0, py " ");
    (0x2026, py "...");
    (0x00C2, py "A");
    (0x00D4, py "O");
    (0x00E2, py "a");
    (0x00F4, py "o") ].

(** One turn of [for unicode_char, ascii_char in ....items()]. *)
Definition fix_entry (acc : pystr * nat) (entry : N * pystr) : pystr * nat :=
  let (fixed, replacements_count) := acc in
  let (unicode_char, ascii_char) := entry in
  if has_char unicode_char fixed then
    let n := count unicode_char fixed in
    (replace unicode_char ascii_char fixed, (replacements_count + n)%nat)
  else (fixed, replacements_count).

(** The [str] branch of [fix_string_value] over a substitution table. *)
Definition fix_with (table : list (N * pystr)) (value : pystr)
    (replacements_count : nat) : pystr * nat :=
  fold_left fix_entry table (value, replacements_count).

Definition fix_str : pystr -> nat -> pystr * nat := fix_with UNICODE_TO_ASCII.

(** [fix_string_value]; the state is [replacements_count[0]]. *)
Fixpoint fix_string_value (value : json) : M nat json :=
  match value with
  | JStr s => fun n => let (fixed, n') := fix_str s n in (Ok (JStr fixed), n')
  | JObj kvs =>
      let* kvs' :=
        mapM (fun kv : pystr * json =>
                let (key, val) := kv in
                let* val' := fix_string_value val in
                ret (key, val'))
             kvs in
      ret (JObj kvs')
  | JArr items =>
      let* items' := mapM fix_string_value items in ret (JArr items')
  | _ => ret value
  end.

(** The character normalisation of one string. *)
Definition normalize (s : pystr) : pystr := fst (fix_str s 0).

Section Fix.
Variable sys : io.

Definition fix_file (filename : pystr) (backup : bool)
    : M (gmap pystr pystr) bool :=
  let* read := catch (let* c := read_file filename in ret (Some c)) (ret None) in
  match read with
  | None => ret false
  | Some content =>
      let* parsed := catch (let* d := parse sys content in ret (Some d)) (ret None) in
      match parsed with
      | None => ret false
      | Some data =>
          let* _ := (if backup
                     then write_file sys (filename ++ py ".backup") content
                     else ret tt) in
          match fix_string_value data 0%nat with
          | (Exn, _) => raise
          | (Ok fixed_data, replacements_count) =>
              if Nat.eqb replacements_count 0 then ret false
              else
                (* [json.dumps(fixed_data)] accepts every JSON value *)
                let* _ := dump_file sys filename fixed_data in
                ret true
          end
      end
  end.
End Fix.

(** No character of the table occurs in any string value. *)
Definition clean_str (s : pystr) : Prop :=
  forall c, In c (List.map fst UNICODE_TO_ASCII) -> ~ In c s.

Inductive clean_values : json -> Prop :=
| clean_null : clean_values JNull
| clean_bool b : clean_values (JBool b)
| clean_num n : clean_values (JNum n)
| clean_string s : clean_str s -> clean_values (JStr s)
| clean_arr items : Forall clean_values items -> clean_values (JArr items)
| clean_obj kvs :
    Forall (fun kv => clean_values (snd kv)) kvs -> clean_values (JObj kvs).

(** The string a run over a table leaves, without the count. *)
Definition subst_all (table : list (N * pystr)) (s : pystr) : pystr :=
  fold_left (fun s e => replace (fst e) (snd e) s) table s.

(** No replacement text of the table contains a character of [keys]. *)
Definition ascii_only (keys : list N) (table : list (N * pystr)) : Prop :=
  Forall (fun e => forall c, In c keys -> ~ In c (snd e)) table.

Definition ascii_onlyb (keys : list N) (table : list (N * pystr)) : bool :=
  forallb (fun e => forallb (fun c => negb (has_char c (snd e))) keys) table.

End check_unicode.

(** ** tools/clean_team_fields.py *)

Module clean_team_fields.
Import files.

(** [for field in fields: d.pop(field, None)] *)
Definition pop_all (fields : list pystr) (d : dict) : dict :=
  fold_left (fun d field => dict_pop field d) fields d.

(** [remove_fields_from_dict] mutates [obj] in place; the value returned
    here is [obj] after the call.  Python pops first and then visits the
    values that remain; visiting first and popping afterwards is
    structurally recursive and gives the same object (lemma
    [remove_fields_obj] below states the source's own order). *)
Fixpoint remove_fields_from_dict (obj : json) (fields_to_remove : list pystr)
    : json :=
  match obj with
  | JObj kvs =>
      JObj (pop_all fields_to_remove
              (List.map (fun kv : pystr * json =>
                           (fst kv, remove_fields_from_dict (snd kv) fields_to_remove))
                        kvs))
  | JArr items =>
      JArr (List.map (fun item => remove_fields_from_dict item fields_to_remove) items)
  | _ => obj
  end.

Definition root_fields_to_remove : list pystr :=
  List.map py ["isPublished"; "isHomebrew"; "userId"]%string.

Definition opType_fields_to_remove : list pystr :=
  List.map py ["nameType"; "isOpType"; "isActivated"; "currWOUNDS";
               "opName"; "opType"; "opId"]%string.

(** [weapon.pop('isDefault', None)]: only a [dict] has that [pop]. *)
Definition clean_weapon (weapon : json) : res json :=
  match weapon with
  | JObj d => Ok (JObj (dict_pop (py "isDefault") d))
  | _ => Exn
  end.

(** The body of [for opType in data['opTypes']]. *)
Definition clean_opType (opType : json) : res json :=
  match opType with
  | JObj d =>
      let d1 := pop_all opType_fields_to_remove d in
      match dict_get (py "weapons") d1 with
      | Some (JArr weapons) =>
          res_bind (res_mapM clean_weapon weapons) (fun weapons' =>
          Ok (JObj (dict_set (py "weapons") (JArr weapons') d1)))
      | _ => Ok (JObj d1)
      end
  | _ => Exn
  end.

(** [clean_team_file] between [json.load] and [json.dump]: the document
    after the in-place removals, or the exception that [data.pop] raises
    on anything but a [dict]. *)
Definition clean_team_data (data : json) : res json :=
  match data with
  | JObj d =>
      let d1 := pop_all root_fields_to_remove d in
      match dict_get (py "opTypes") d1 with
      | Some (JArr opTypes) =>
          res_bind (res_mapM clean_opType opTypes) (fun opTypes' =>
          Ok (JObj (dict_set (py "opTypes") (JArr opTypes') d1)))
      | _ => Ok (JObj d1)
      end
  | _ => Exn
  end.

Section Clean.
Variable sys : io.

Definition clean_team_file (file_path : pystr) : M (gmap pystr pystr) bool :=
  catch
    (let* content := read_file file_path in
     let* data := parse sys content in
     let* data' := lift (clean_team_data data) in
     let* _ := dump_file sys file_path data' in
     ret true)
    (ret false).
End Clean.

(** The names the tool is configured with, all three lists together. *)
Definition configured_fields : list pystr :=
  root_fields_to_remove ++ opType_fields_to_remove ++ [py "isDefault"].

(** *** What "remove exactly these fields" means

    A place in a document is the sequence of steps from the root: into
    the value of a key, or into an element of an array.  [prune doomed]
    deletes the items [doomed] selects by place and name and keeps every
    other item, value and order as it is. *)
Inductive step : Type :=
| Key (k : pystr)
| Elem.

Fixpoint prune (doomed : list step -> pystr -> bool) (here : list step)
    (v : json) : json :=
  match v with
  | JObj kvs =>
      JObj (List.filter (fun kv => negb (doomed here (fst kv)))
              (List.map (fun kv : pystr * json =>
                           (fst kv, prune doomed (here ++ [Key (fst kv)]) (snd kv)))
                        kvs))
  | JArr l => JArr (List.map (prune doomed (here ++ [Elem])) l)
  | _ => v
  end.

Definition step_eqb (a b : step) : bool :=
  match a, b with
  | Key x, Key y => str_eqb x y
  | Elem, Elem => true
  | _, _ => false
  end.

Fixpoint place_eqb (p q : list step) : bool :=
  match p, q with
  | [], [] => true
  | a :: p', b :: q' => step_eqb a b && place_eqb p' q'
  | _, _ => false
  end.

(** Every depth: the claim's reading. *)
Definition everywhere (fields : list pystr) : list step -> pystr -> bool :=
  fun _ k => str_in k fields.

(** The three places of the module's docstring: the root, the elements
    of its [opTypes] array, the elements of their [weapons] arrays. *)
Definition team_places : list step -> pystr -> bool :=
  fun here k =>
    (place_eqb here [] && str_in k root_fields_to_remove)
    || (place_eqb here [Key (py "opTypes"); Elem]
        && str_in k opType_fields_to_remove)
    || (place_eqb here [Key (py "opTypes"); Elem; Key (py "weapons"); Elem]
        && str_eqb k (py "isDefault")).

(** A place below which [team_places] selects nothing. *)
Definition quiet (here : list step) : Prop :=
  forall ext k, team_places (here ++ ext) k = false.

(** The documents the tool can clean: the root is an object; when its
    [opTypes] is an array, every element of it is an object; and when
    the [weapons] of such an element is an array, every element of that
    is an object.  On any other document a [pop] raises. *)
Definition is_obj (v : json) : bool :=
  match v with JObj _ => true | _ => false end.

Definition opType_shaped (opType : json) : bool :=
  match opType with
  | JObj d =>
      match dict_get (py "weapons") d with
      | Some (JArr weapons) => forallb is_obj weapons
      | _ => true
      end
  | _ => false
  end.

Definition team_shaped (data : json) : bool :=
  match data with
  | JObj d =>
      match dict_get (py "opTypes") d with
      | Some (JArr opTypes) => forallb opType_shaped opTypes
      | _ => true
      end
  | _ => false
  end.

End clean_team_fields.

(** ** tools/merge_actions.py *)

Module merge_actions.
Import files.

(** [len(v)] *)
Definition len (v : json) : res nat :=
  match v with
  | JStr s => Ok (List.length s)
  | JArr l => Ok (List.length l)
  | JObj d => Ok (List.length d)
  | _ => Exn
  end.

(** [a + b] on values that have a [len]: lists and strings concatenate,
    everything else is a [TypeError]. *)
Definition add (a b : json) : res json :=
  match a, b with
  | JArr x, JArr y => Ok (JArr (x ++ y))
  | JStr x, JStr y => Ok (JStr (x ++ y))
  | _, _ => Exn
  end.

Section Merge.
Variable sys : io.

(** The body of a [try]: load the file, take [data.get('actions', [])],
    print its length. *)
Definition load_actions (file : pystr) : M (gmap pystr pystr) json :=
  let* content := read_file file in
  let* data := parse sys content in
  let* actions :=
    (match data with
     | JObj d =>
         ret (match dict_get (py "actions") d with
              | Some a => a
              | None => JArr []
              end)
     | _ => raise
     end) in
  let* _ := lift (len actions) in
  ret actions.

(** [Some] the actions read, [None] for the [return False] of the
    handler. *)
Definition read_actions (file : pystr) : M (gmap pystr pystr) (option json) :=
  let* present := file_exists file in
  if present
  then catch (let* a := load_actions file in ret (Some a)) (ret None)
  else ret (Some (JArr [])).

Definition merge_actions (lang_dir : pystr) : M (gmap pystr pystr) bool :=
  let universal_file := lang_dir ++ py "/universal_actions.json" in
  let mission_file := lang_dir ++ py "/mission_actions.json" in
  let output_file := lang_dir ++ py "/actions.json" in
  let* u := read_actions universal_file in
  match u with
  | None => ret false
  | Some universal_actions =>
      let* m := read_actions mission_file in
      match m with
      | None => ret false
      | Some mission_actions =>
          let* all_actions := lift (add universal_actions mission_actions) in
          let merged_data := JObj [(py "actions", all_actions)] in
          catch (let* _ := dump_file sys output_file merged_data in
                 ret true)
                (ret false)
      end
  end.
End Merge.

(** What an input file contributes: nothing when the file is absent or
    its object has no [actions] key, else the array under that key. *)
Definition contributes (sys : io) (fs : gmap pystr pystr) (file : pystr)
    (actions : list json) : Prop :=
  (fs !! file = None /\ actions = [])
  \/ (exists content d,
        fs !! file = Some content /\
        json_loads sys content = Some (JObj d) /\
        ((dict_get (py "actions") d = None /\ actions = [])
         \/ dict_get (py "actions") d = Some (JArr actions))).

End merge_actions.

(** ** The words of the classification policy *)

Module policy.

(** Empty or made of white space only. *)
Definition whitespace_only (s : pystr) : Prop :=
  Forall (fun c => isspace c = true) s.

(** The name begins with an underscore. *)
Definition private_name (name : pystr) : Prop :=
  exists rest, name = 95 :: rest.

(** The name ends in [suffix], letter case ignored. *)
Definition ends_with_ci (name suffix : pystr) : Prop :=
  exists front back, name = front ++ back /\ lower back = suffix.

Definition identifier_name (name : pystr) : Prop :=
  ends_with_ci name (py "id") \/ ends_with_ci name (py "_id") \/
  ends_with_ci name (py "code") \/ ends_with_ci name (py "_code").

(** The deny-list-with-heuristic policy for string values, as the
    specification words it. *)
Definition deny_list_policy (exclude include : list pystr)
    (classify : pystr -> json -> bool) : Prop :=
  forall (name s : pystr),
    (In name exclude -> classify name (JStr s) = false) /\
    (~ In name exclude -> In name include -> classify name (JStr s) = true) /\
    (~ In name exclude -> ~ In name include ->
       (classify name (JStr s) = true <->
        ~ whitespace_only s /\ ~ private_name name /\ ~ identifier_name name)).

(** The body the classifiers of [translate_comprehensive.py] and
    [translate_deepl.py] share, over the sets of either. *)
Definition classify (exclude include : list pystr) (field_name : pystr)
    (value : json) : bool :=
  if str_in field_name exclude then false
  else if str_in field_name include then true
  else
    match value with
    | JStr s =>
        if str_truthy (strip s) && negb (startswith field_name (py "_")) then
          if endswith_any (lower field_name)
               [py "id"; py "_id"; py "code"; py "_code"]
          then false else true
        else false
    | _ => false
    end.

End policy.

(** ** check_unicode.py: what a fix amounts to *)

Module unicode_spec.
Import check_unicode.

(** Is [c] one of the characters of the substitution table? *)
Definition in_table (c : N) : bool :=
  existsb (N.eqb c) (List.map fst UNICODE_TO_ASCII).

(** The number of table characters in a string. *)
Definition table_chars (s : pystr) : nat :=
  List.length (List.filter in_table s).

(** The number of table characters in the string values of a document;
    keys are not counted. *)
Fixpoint table_chars_in (v : json) : nat :=
  match v with
  | JStr s => table_chars s
  | JArr l => list_sum (List.map table_chars_in l)
  | JObj kvs => list_sum (List.map (fun kv => table_chars_in (snd kv)) kvs)
  | _ => 0%nat
  end.

(** A function applied to every string value of a document; keys, other
    scalars and the shape stay. *)
Fixpoint map_strings (f : pystr -> pystr) (v : json) : json :=
  match v with
  | JStr s => JStr (f s)
  | JArr l => JArr (List.map (map_strings f) l)
  | JObj kvs => JObj (List.map (fun kv => (fst kv, map_strings f (snd kv))) kvs)
  | _ => v
  end.

End unicode_spec.

(** ** Systems for the examples *)

Module examples.
Import files.

(** A system in which [text] parses as [data] and nothing else parses,
    every value is written as [shown] of it, and every path can be
    written. *)
Definition one_doc (text : pystr) (data : json) (shown : json -> pystr) : io :=
  {| json_loads := fun content =>
       if str_eqb content text then Some data else None;
     json_dumps := shown;
     writable := fun _ => true;
     cut_off := fun _ => [] |}.

(** The same with two texts that parse. *)
Definition two_docs (text1 : pystr) (data1 : json) (text2 : pystr) (data2 : json)
    (shown : json -> pystr) : io :=
  {| json_loads := fun content =>
       if str_eqb content text1 then Some data1
       else if str_eqb content text2 then Some data2
       else None;
     json_dumps := shown;
     writable := fun _ => true;
     cut_off := fun _ => [] |}.

(** A stand-in for [json.dump] that shows every string value: the
    string leaves of the document, one after the other. *)
Fixpoint leaves (v : json) : pystr :=
  match v with
  | JStr s => s
  | JArr l => flat_map leaves l
  | JObj d => flat_map (fun kv => leaves (snd kv)) d
  | _ => []
  end.

(** A stand-in for [json.dump]: the number of items of the top value, as
    one code point. *)
Definition width (v : json) : pystr :=
  match v with
  | JArr l => [N.of_nat (List.length l)]
  | JObj d => [N.of_nat (List.length d)]
  | _ => []
  end.

End examples.

(** ** merge_actions.py: an input that cannot be used *)

Module merge_spec.
Import files merge_actions.

(** The file is there, but it is not JSON, or its top value is not an
    object, or its [actions] value has no length. *)
Definition unusable (sys : io) (fs : gmap pystr pystr) (file : pystr) : Prop :=
  exists content,
    fs !! file = Some content /\
    match json_loads sys content with
    | None => True
    | Some (JObj d) =>
        match dict_get (py "actions") d with
        | Some a => len a = Exn
        | None => False
        end
    | Some _ => True
    end.

End merge_spec.

(** ** tools/split_teams.py *)

Module split_teams.
Import files.

(** [killteam_id.replace('/', '_').replace('\\', '_')] *)
Definition safe_filename (killteam_id : pystr) : pystr :=
  replace 92 [95] (replace 47 [95] killteam_id).

(** [output_dir / f"{safe_filename}.json"]; a name without a slash is
    appended to the directory. *)
Definition output_file (output_dir killteam_id : pystr) : pystr :=
  output_dir ++ py "/" ++ safe_filename killteam_id ++ py ".json".

Section Split.
Variable sys : io.

(** The body of [for i, team in enumerate(teams)]; the state threaded
    besides the files is [saved_count].  [killteam_id.replace] is outside
    the [try], and only a string has it. *)
Definition save_team (output_dir : pystr) (saved_count : nat) (team : json)
    : M (gmap pystr pystr) nat :=
  match team with
  | JObj d =>
      match dict_get (py "killteamId") d with
      | None => ret saved_count
      | Some killteam_id =>
          if negb (truthy killteam_id) then ret saved_count
          else
            match killteam_id with
            | JStr id =>
                catch
                  (let* _ := dump_file sys (output_file output_dir id) team in
                   ret (S saved_count))
                  (ret saved_count)
            | _ => raise
            end
      end
  | _ => ret saved_count
  end.

(** [split_teams_file]; directories are not part of the file system
    modelled, so [output_dir.mkdir] changes nothing. *)
Definition split_teams_file (source_file output_dir : pystr)
    : M (gmap pystr pystr) bool :=
  let* loaded := catch (let* content := read_file source_file in
                        let* teams := parse sys content in
                        ret (Some teams))
                       (ret None) in
  match loaded with
  | None => ret false
  | Some (JArr teams) =>
      let* saved_count := foldM (save_team output_dir) teams 0%nat in
      ret true
  | Some _ => ret false
  end.
End Split.

(** The team is an object with a non-empty string [killteamId] equal to
    [id]: the teams the loop tries to save. *)
Definition names_team (team : json) (id : pystr) : Prop :=
  exists d, team = JObj d /\ dict_get (py "killteamId") d = Some (JStr id)
            /\ id <> [].

End split_teams.

(** ** translate_batch.py: the batches a run sends *)

Module batch_spec.
Import translate_batch.

(** The size the loop charges for a batch: twice the characters of its
    texts. *)
Definition charged (batch : list pystr) : nat :=
  list_sum (List.map (fun text => (List.length text * 2)%nat) batch).

(** The batches the loop of [translate_batch] closes, in order, followed
    by the batch still open at its end, if it holds a text. *)
Fixpoint batches_from (texts : list pystr) (current_batch : list pystr)
    (current_size : nat) : list (list pystr) :=
  match texts with
  | [] => match current_batch with [] => [] | _ :: _ => [current_batch] end
  | text :: rest =>
      let text_size := (List.length text * 2)%nat in
      if Nat.ltb max_chars (current_size + text_size)
         && match current_batch with [] => false | _ => true end
      then current_batch :: batches_from rest [text] text_size
      else batches_from rest (current_batch ++ [text]) (current_size + text_size)
  end.

Definition batches (texts : list pystr) : list (list pystr) :=
  batches_from texts [] 0.

(** A batch respects the budget when it is charged at most [max_chars],
    or holds a single text that alone exceeds it. *)
Definition within_budget (batch : list pystr) : Prop :=
  (charged batch <= max_chars)%nat \/ exists text, batch = [text].

End batch_spec.

(** A leaf transform that returns its text and counts its calls. *)
Definition tally (text target_lang : pystr) : M nat pystr :=
  fun calls => (Ok text, S calls).

(** ** tools/translate_comprehensive.py: the Google adapter *)

Module google_adapter.
Import gtx.

Section Adapter.
Variable net : network.

(** [translate_google_translate]: no test for blank text, one request,
    and an [ImportError] that is raised again. *)
Definition translate_google_translate (text target_lang : pystr) : M nat pystr :=
  if have_requests net then
    catch
      (let* r := request net text target_lang in
       match r with Some t => ret t | None => ret text end)
      (ret text)
  else raise.
End Adapter.

End google_adapter.

(** ** tools/translate_to_spanish.py: the structure copy *)

Module translate_to_spanish.

Definition translatable_fields : list pystr :=
  List.map py
    [ "name"; "description"; "killteamName"; "opTypeName";
      "wepName"; "abilityName"; "ployName"; "eqName";
      "optionName"; "title"; "profileName"; "composition";
      "reveal"; "additionalRules"; "victoryPoints" ]%string.

Definition archetype_translations : list (pystr * pystr) :=
  [ (py "Security", py "Seguridad");
    (py "Seek & Destroy", py "Buscar y Destruir");
    (py "Recon", py "Reconocimiento");
    (py "Infiltration", py "Infiltraci" ++ [243] ++ py "n") ].

(** [archetype_translations.get(v, v)]: a list or an object cannot be
    looked up in a [dict] (it is not hashable). *)
Definition translate_archetype (v : json) : res json :=
  match v with
  | JStr s =>
      match translate_fast.assoc s archetype_translations with
      | Some es => Ok (JStr es)
      | None => Ok v
      end
  | JArr _ | JObj _ => Exn
  | _ => Ok v
  end.

Fixpoint translate_value (value : json) (field_name : pystr) : res json :=
  match value with
  | JStr s =>
      if str_in field_name translatable_fields then Ok value else Ok value
  | JObj kvs =>
      res_bind
        (res_mapM (fun kv : pystr * json =>
                     res_bind (translate_value (snd kv) (fst kv)) (fun v' =>
                     Ok (fst kv, v')))
                  kvs)
        (fun kvs' => Ok (JObj kvs'))
  | JArr items =>
      match items with
      | JStr _ :: _ =>
          if str_eqb field_name (py "archetypes")
          then res_bind (res_mapM translate_archetype items)
                        (fun items' => Ok (JArr items'))
          else res_bind (res_mapM (fun item => translate_value item field_name) items)
                        (fun items' => Ok (JArr items'))
      | _ =>
          res_bind (res_mapM (fun item => translate_value item field_name) items)
                   (fun items' => Ok (JArr items'))
      end
  | _ => Ok value
  end.

End translate_to_spanish.

(** ** tools/translate_precise.py: one file *)

Module precise_file.
Import translation_config gtx files translate_precise.

(** What [translate_file] runs in: the files, and the count of the
    requests sent so far. *)
Definition world : Type := gmap pystr pystr * nat.

Definition on_files {A} (m : M (gmap pystr pystr) A) : M world A :=
  fun w => let (r, fs') := m (fst w) in (r, (fs', snd w)).

Definition on_network {A} (m : M nat A) : M world A :=
  fun w => let (r, n') := m (snd w) in (r, (fst w, n')).

(** A [pathlib.Path], by what the script asks of it: [str(p)], which is
    also what [open] is given, and [p.name]. *)
Record Path : Type := { path_str : pystr; path_name : pystr }.

Section File.
Variable sys : io.
Variable net : network.
Variable rules_table : list (pystr * rule).

(** The nested [count_strings]; [file_name] is the variable of the
    enclosing function.  The sums are the [count += ...] loops. *)
Fixpoint count_strings (file_name : pystr) (obj : json) (field : pystr)
    (path : list pystr) : nat :=
  match obj with
  | JStr s =>
      if in_scope rules_table file_name path field && str_truthy (strip s)
      then 1%nat else 0%nat
  | JObj kvs =>
      let new_path := extend path field in
      list_sum (List.map (fun kv : pystr * json =>
                            count_strings file_name (snd kv) (fst kv) new_path)
                         kvs)
  | JArr items =>
      list_sum (List.map (fun item => count_strings file_name item field path)
                         items)
  | _ => 0%nat
  end.

(** [f"teams/{en_file.name}"] when [str(en_file)] mentions [teams]. *)
Definition rule_file_name (en_file : Path) : pystr :=
  if contains (path_str en_file) (py "teams")
  then py "teams/" ++ path_name en_file
  else path_name en_file.

(** [translate_file]: [None] stands for the [except] branches, each of
    which returns [False].  [json.dumps] of a document that was loaded and
    had strings replaced by strings does not raise; [target_file] is the
    string of the output path, and [writable] says whether its directory
    can be made and the file opened. *)
Definition translate_file_in (en_file : Path) (target_file target_lang : pystr)
    : M world bool :=
  let file_name := rule_file_name en_file in
  let* loaded :=
    catch (let* content := on_files (read_file (path_str en_file)) in
           let* data := on_files (parse sys content) in
           ret (Some data))
          (ret None) in
  match loaded with
  | None => ret false
  | Some data =>
      if Nat.eqb (count_strings file_name data [] []) 0 then ret false
      else
        let* walked :=
          catch (let* translated_data :=
                   translate_value rules_table
                     (fun text lang => on_network (translate_text net text lang))
                     file_name target_lang data [] [] in
                 ret (Some translated_data))
                (ret None) in
        match walked with
        | None => ret false
        | Some translated_data =>
            catch (let* _ := on_files (dump_file sys target_file
                                         translated_data) in
                   ret true)
                  (ret false)
        end
  end.
End File.

Definition translate_file (sys : io) (net : network) :=
  translate_file_in sys net TRANSLATION_RULES.

End precise_file.

(** ** What a run leaves as it was *)

(** [keeps R m]: however [m] ends, by returning or by raising, the states
    before and after are related by [R]. *)
Definition keeps {S A : Type} (R : S -> S -> Prop) (m : M S A) : Prop :=
  forall s r s', m s = (r, s') -> R s s'.

(** Requests may have been sent; no file was touched. *)
Definition only_requests (w w' : precise_file.world) : Prop :=
  fst w' = fst w /\ (snd w <= snd w')%nat.

(** ** tools/translate_batch.py: collecting the strings and putting them back *)

Module batch_file.

Definition NON_TRANSLATABLE_FIELDS : list pystr :=
  List.map py
    [ "id"; "type"; "seq"; "AP"; "APL"; "GA"; "DF"; "SV"; "W"; "M";
      "MV"; "APL_base"; "GA_base"; "DF_base"; "SV_base"; "W_base";
      "M_base"; "MV_base"; "D"; "A"; "BS"; "WS"; "version"; "file" ]%string.

Definition TRANSLATABLE_FIELDS : list pystr :=
  List.map py
    [ "name"; "description"; "killteamName"; "opTypeName"; "wepName";
      "abilityName"; "ployName"; "eqName"; "optionName"; "title";
      "profileName"; "composition"; "reveal"; "additionalRules";
      "victoryPoints"; "effects"; "conditions"; "packs"; "archetypes";
      "ability"; "keyword"; "team" ]%string.

Definition should_translate_field (field_name : pystr) (value : json) : bool :=
  policy.classify NON_TRANSLATABLE_FIELDS TRANSLATABLE_FIELDS field_name value.

(** [isinstance(x, str) and should_translate_field(field_name, x) and
    x.strip()], the test of both places that collect a string. *)
Definition wanted (field_name : pystr) (x : json) : bool :=
  match x with
  | JStr s => should_translate_field field_name x && str_truthy (strip s)
  | _ => false
  end.

(** [str(i)] for an index: its decimal digits. *)
Fixpoint digits (d : Decimal.uint) : pystr :=
  match d with
  | Decimal.Nil => []
  | Decimal.D0 d' => 48 :: digits d'
  | Decimal.D1 d' => 49 :: digits d'
  | Decimal.D2 d' => 50 :: digits d'
  | Decimal.D3 d' => 51 :: digits d'
  | Decimal.D4 d' => 52 :: digits d'
  | Decimal.D5 d' => 53 :: digits d'
  | Decimal.D6 d' => 54 :: digits d'
  | Decimal.D7 d' => 55 :: digits d'
  | Decimal.D8 d' => 56 :: digits d'
  | Decimal.D9 d' => 57 :: digits d'
  end.

Definition str_of_nat (i : nat) : pystr := digits (Nat.to_uint i).

(** The [dict] that [collect_translatable_strings] appends: its [path],
    [field] and [value] entries. *)
Record found : Type := Found {
  found_path : pystr;
  found_field : pystr;
  found_value : pystr
}.

(** [f"{path}.{k}" if path else k] *)
Definition key_path (path k : pystr) : pystr :=
  if str_truthy path then path ++ py "." ++ k else k.

(** [f"{path}[{i}]" if path else f"[{i}]"] *)
Definition index_path (path : pystr) (i : nat) : pystr :=
  if str_truthy path then path ++ py "[" ++ str_of_nat i ++ py "]"
  else py "[" ++ str_of_nat i ++ py "]".

(** [for i, item in enumerate(items): strings.extend(f(i, item))], the
    count starting at [i]. *)
Definition extend_each {A B : Type} (f : nat -> A -> list B)
    : nat -> list A -> list B :=
  fix enumerate (i : nat) (items : list A) : list B :=
    match items with
    | [] => []
    | item :: rest => f i item ++ enumerate (S i) rest
    end.

Fixpoint collect_translatable_strings (data : json) (field_name path : pystr)
    : list found :=
  match data with
  | JStr s =>
      if wanted field_name data then [Found path field_name s] else []
  | JObj kvs =>
      flat_map (fun kv : pystr * json =>
                  collect_translatable_strings (snd kv) (fst kv)
                    (key_path path (fst kv)))
               kvs
  | JArr items =>
      extend_each
        (fun i item =>
           let new_path := index_path path i in
           match item with
           | JStr s =>
               if wanted field_name item
               then [Found new_path field_name s]
               else collect_translatable_strings item field_name new_path
           | _ => collect_translatable_strings item field_name new_path
           end)
        0%nat items
  | _ => []
  end.

(** *** [set_value_by_path] *)

(** [s.rstrip(c)] for a [c] of one code point. *)
Fixpoint lstrip_char (c : N) (s : pystr) : pystr :=
  match s with
  | x :: s' => if N.eqb x c then lstrip_char c s' else s
  | [] => []
  end.

Definition rstrip_char (c : N) (s : pystr) : pystr :=
  rev (lstrip_char c (rev s)).

(** What a call does to the document it is given.  The function assigns
    in place and returns nothing; the document after the call is the
    value [Assigned] carries (a loaded document shares no part, so the
    assignment shows where it is made and nowhere else).  [IntKey]: the
    assignment [d[idx] = value] was made on a [dict], which now has an
    integer among its keys -- not a JSON object any more. *)
Inductive assigned : Type :=
| Assigned (data : json)
| Raised
| IntKey.

(** The position of [seq[idx]] in a sequence of [n] items: a negative
    index counts from the end; [None] is [IndexError]. *)
Definition position (n : nat) (idx : Z) : option nat :=
  if (0 <=? idx)%Z then
    (if (idx <? Z.of_nat n)%Z then Some (Z.to_nat idx) else None)
  else
    (if (0 <=? Z.of_nat n + idx)%Z then Some (Z.to_nat (Z.of_nat n + idx))
     else None).

Definition left_bracket : N := 91.
Definition right_bracket : N := 93.
Definition dot : N := 46.

Section Restore.
(** [int(s)] for a [str]; [None] is [ValueError]. *)
Variable int : pystr -> option Z.

(** [base, idx = part.split('['); idx = int(idx.rstrip(']'))] *)
Definition item_of (part : pystr) : option (pystr * Z) :=
  match split left_bracket part with
  | [base; idx] =>
      match int (rstrip_char right_bracket idx) with
      | Some i => Some (base, i)
      | None => None
      end
  | _ => None
  end.

(** [current = current[key]] for a [str] key, what follows done on the
    value found, and the document with that value as it is afterwards.
    Only a [dict] can be indexed by a [str]. *)
Definition under_key (current : json) (key : pystr)
    (below : json -> assigned) : assigned :=
  match current with
  | JObj d =>
      match dict_get key d with
      | Some child =>
          match below child with
          | Assigned child' => Assigned (JObj (dict_set key child' d))
          | r => r
          end
      | None => Raised
      end
  | _ => Raised
  end.

(** [current = current[idx]] for an [int].  A [dict] of a JSON document
    has no integer key; the item of a [str] is a [str], in which nothing
    can be assigned, so the call raises there or later. *)
Definition under_index (current : json) (idx : Z)
    (below : json -> assigned) : assigned :=
  match current with
  | JArr l =>
      match position (List.length l) idx with
      | Some i =>
          match nth_error l i with
          | Some child =>
              match below child with
              | Assigned child' => Assigned (JArr (<[i := child']> l))
              | r => r
              end
          | None => Raised
          end
      | None => Raised
      end
  | _ => Raised
  end.

(** [current[key] = value] for a [str] key. *)
Definition setitem_key (current : json) (key value : pystr) : assigned :=
  match current with
  | JObj d => Assigned (JObj (dict_set key (JStr value) d))
  | _ => Raised
  end.

(** [current[idx] = value] for an [int]. *)
Definition setitem_index (current : json) (idx : Z) (value : pystr) : assigned :=
  match current with
  | JArr l =>
      match position (List.length l) idx with
      | Some i => Assigned (JArr (<[i := JStr value]> l))
      | None => Raised
      end
  | JObj _ => IntKey
  | _ => Raised
  end.

(** The lines after the loop, on [parts[-1]]. *)
Definition set_final (current : json) (final_part value : pystr) : assigned :=
  if has_char left_bracket final_part then
    match item_of final_part with
    | Some (base, idx) =>
        if str_truthy base
        then under_key current base (fun c => setitem_index c idx value)
        else setitem_index current idx value
    | None => Raised
    end
  else setitem_key current final_part value.

(** The loop over [parts[:-1]] and the final assignment. *)
Fixpoint set_parts (current : json) (parts : list pystr) (value : pystr)
    : assigned :=
  match parts with
  | [] => Raised
  | [final_part] => set_final current final_part value
  | part :: rest =>
      if has_char left_bracket part then
        match item_of part with
        | Some (base, idx) =>
            if str_truthy base
            then under_key current base (fun c =>
                   under_index c idx (fun c' => set_parts c' rest value))
            else under_index current idx (fun c' => set_parts c' rest value)
        | None => Raised
        end
      else under_key current part (fun c => set_parts c rest value)
  end.

Definition set_value_by_path (data : json) (path value : pystr) : assigned :=
  set_parts data (split dot path) value.

(** The loop of [translate_file] that applies the translations: the
    [i]-th text goes to the [i]-th path, as long as there are texts. *)
Fixpoint apply_translations (data : json) (translatable_strings : list found)
    (translated_texts : list pystr) : assigned :=
  match translatable_strings, translated_texts with
  | string_info :: more, text :: texts =>
      match set_value_by_path data (found_path string_info) text with
      | Assigned data' => apply_translations data' more texts
      | r => r
      end
  | _, _ => Assigned data
  end.
End Restore.

(** *** What putting back means *)

(** [f] along a list, the texts that are left handed on. *)
Definition thread {A B : Type} (f : A -> list pystr -> B * list pystr)
    : list A -> list pystr -> list B * list pystr :=
  fix each (items : list A) (texts : list pystr) : list B * list pystr :=
    match items with
    | [] => ([], texts)
    | item :: more =>
        let (item', texts1) := f item texts in
        let (more', texts2) := each more texts1 in
        (item' :: more', texts2)
    end.

(** The strings [collect_translatable_strings] finds, replaced in its
    order by the texts, one each, as long as there are texts; with the
    texts that are left. *)
Fixpoint put_back (data : json) (field_name : pystr) (texts : list pystr)
    : json * list pystr :=
  match data with
  | JStr s =>
      if wanted field_name data then
        match texts with
        | text :: rest => (JStr text, rest)
        | [] => (data, [])
        end
      else (data, texts)
  | JObj kvs =>
      let (kvs', rest) :=
        thread (fun (kv : pystr * json) texts =>
                  let (v', texts') := put_back (snd kv) (fst kv) texts in
                  ((fst kv, v'), texts'))
               kvs texts in
      (JObj kvs', rest)
  | JArr items =>
      let (items', rest) :=
        thread (fun item texts => put_back item field_name texts) items texts in
      (JArr items', rest)
  | _ => (data, texts)
  end.

(** A key that a path can name: not empty, without a dot or an opening
    bracket. *)
Definition plain_key (k : pystr) : Prop :=
  k <> [] /\ ~ In dot k /\ ~ In left_bracket k.

Definition is_arr (v : json) : Prop :=
  match v with JArr _ => True | _ => False end.

(** A document every string of which a path can reach: all keys are
    plain (and distinct, as Python has them), and no array is an element
    of an array. *)
Inductive addressable : json -> Prop :=
| ad_null : addressable JNull
| ad_bool b : addressable (JBool b)
| ad_num n : addressable (JNum n)
| ad_str s : addressable (JStr s)
| ad_arr l :
    Forall (fun item => addressable item /\ ~ is_arr item) l ->
    addressable (JArr l)
| ad_obj kvs :
    List.NoDup (List.map fst kvs) ->
    Forall (fun kv => plain_key (fst kv) /\ addressable (snd kv)) kvs ->
    addressable (JObj kvs).

(** The places of a document, for the proofs: a key or an index at each
    step from the root. *)
Inductive hop : Type :=
| At (k : pystr)
| Nth (i : nat).

(** The path of a place, built as [collect_translatable_strings] builds
    it on the way down. *)
Fixpoint render_from (path : pystr) (place : list hop) : pystr :=
  match place with
  | [] => path
  | At k :: place' => render_from (key_path path k) place'
  | Nth i :: place' => render_from (index_path path i) place'
  end.

(** The places of the strings collected, with field and value. *)
Fixpoint sites (data : json) (field_name : pystr)
    : list (list hop * (pystr * pystr)) :=
  match data with
  | JStr s => if wanted field_name data then [([], (field_name, s))] else []
  | JObj kvs =>
      flat_map (fun kv : pystr * json =>
                  List.map (fun site => (At (fst kv) :: fst site, snd site))
                           (sites (snd kv) (fst kv)))
               kvs
  | JArr items =>
      extend_each
        (fun i item =>
           List.map (fun site => (Nth i :: fst site, snd site))
                    (sites item field_name))
        0%nat items
  | _ => []
  end.

(** The value at a place replaced by a string. *)
Fixpoint set_at (data : json) (place : list hop) (text : pystr) : option json :=
  match place with
  | [] => Some (JStr text)
  | At k :: place' =>
      match data with
      | JObj d =>
          match dict_get k d with
          | Some child =>
              match set_at child place' text with
              | Some child' => Some (JObj (dict_set k child' d))
              | None => None
              end
          | None => None
          end
      | _ => None
      end
  | Nth i :: place' =>
      match data with
      | JArr l =>
          match nth_error l i with
          | Some child =>
              match set_at child place' text with
              | Some child' => Some (JArr (<[i := child']> l))
              | None => None
              end
          | None => None
          end
      | _ => None
      end
  end.

Fixpoint set_all (data : json) (places : list (list hop)) (texts : list pystr)
    : option json :=
  match places, texts with
  | place :: more, text :: rest =>
      match set_at data place text with
      | Some data' => set_all data' more rest
      | None => None
      end
  | _, _ => Some data
  end.

(** Python's [int] on the numerals that occur in paths: plain decimal
    digits. *)
Fixpoint undigits (s : pystr) : option Decimal.uint :=
  match s with
  | [] => Some Decimal.Nil
  | c :: s' =>
      match undigits s' with
      | Some d =>
          if N.eqb c 48 then Some (Decimal.D0 d)
          else if N.eqb c 49 then Some (Decimal.D1 d)
          else if N.eqb c 50 then Some (Decimal.D2 d)
          else if N.eqb c 51 then Some (Decimal.D3 d)
          else if N.eqb c 52 then Some (Decimal.D4 d)
          else if N.eqb c 53 then Some (Decimal.D5 d)
          else if N.eqb c 54 then Some (Decimal.D6 d)
          else if N.eqb c 55 then Some (Decimal.D7 d)
          else if N.eqb c 56 then Some (Decimal.D8 d)
          else if N.eqb c 57 then Some (Decimal.D9 d)
          else None
      | None => None
      end
  end.

Definition int_of_digits (s : pystr) : option Z :=
  match s with
  | [] => None
  | _ => match undigits s with
         | Some d => Some (Z.of_nat (Nat.of_uint d))
         | None => None
         end
  end.

(** *** Notions for the proofs *)

(** The entry collected at a site, under the path the collection started
    with. *)
Definition entry_of (path : pystr) (site : list hop * (pystr * pystr)) : found :=
  Found (render_from path (fst site)) (fst (snd site)) (snd (snd site)).

Definition value_of (site : list hop * (pystr * pystr)) : pystr := snd (snd site).

Definition places_of (data : json) (field_name : pystr) : list (list hop) :=
  List.map fst (sites data field_name).

(** What [put_back] says of one value: it is what setting the places of
    its strings one after the other gives, and it leaves the texts that
    are not used. *)
Definition put_back_sets (data : json) : Prop :=
  forall field_name texts,
    set_all data (places_of data field_name) texts
    = Some (fst (put_back data field_name texts))
    /\ snd (put_back data field_name texts)
       = skipn (List.length (sites data field_name)) texts.

(** What a non-empty path gains on the way down to a place. *)
Fixpoint suffix_of (place : list hop) : pystr :=
  match place with
  | [] => []
  | At k :: place' => dot :: k ++ suffix_of place'
  | Nth i :: place' =>
      left_bracket :: str_of_nat i ++ right_bracket :: suffix_of place'
  end.

End batch_file.

(** * Properties *)

(** ** Strings *)

Lemma str_eqb_eq (a b : pystr) : str_eqb a b = true <-> a = b.
Proof.
  revert b; induction a as [|x a IH]; intros [|y b]; simpl; split;
    try congruence; try reflexivity.
  - rewrite andb_true_iff, N.eqb_eq, IH. intros [-> ->]. reflexivity.
  - intros [= -> ->]. rewrite N.eqb_refl. simpl. apply IH. reflexivity.
Qed.

Lemma str_eqb_refl (a : pystr) : str_eqb a a = true.
Proof. apply str_eqb_eq. reflexivity. Qed.

Lemma str_eqb_neq (a b : pystr) : str_eqb a b = false <-> a <> b.
Proof.
  rewrite <- str_eqb_eq. destruct (str_eqb a b); split; congruence.
Qed.

Lemma str_eqb_sym (a b : pystr) : str_eqb a b = str_eqb b a.
Proof.
  destruct (str_eqb a b) eqn:E.
  - apply str_eqb_eq in E. subst. symmetry. apply str_eqb_refl.
  - symmetry. apply str_eqb_neq. apply str_eqb_neq in E. congruence.
Qed.

Lemma str_in_In (x : pystr) (xs : list pystr) : str_in x xs = true <-> In x xs.
Proof.
  unfold str_in. rewrite existsb_exists. split.
  - intros (y & Hy & E). apply str_eqb_eq in E. subst. exact Hy.
  - intros H. exists x. split; [exact H | apply str_eqb_refl].
Qed.

Lemma str_in_not_In (x : pystr) (xs : list pystr) :
  str_in x xs = false <-> ~ In x xs.
Proof.
  rewrite <- str_in_In. destruct (str_in x xs); split; congruence.
Qed.

Lemma has_char_In (c : N) (s : pystr) : has_char c s = true <-> In c s.
Proof.
  unfold has_char. rewrite existsb_exists. split.
  - intros (y & Hy & E). apply N.eqb_eq in E. subst. exact Hy.
  - intros H. exists c. split; [exact H | apply N.eqb_refl].
Qed.

Lemma replace_absent (c : N) (r s : pystr) : ~ In c s -> replace c r s = s.
Proof.
  unfold replace. induction s as [|x s IH]; simpl; intros H; [reflexivity|].
  destruct (N.eqb x c) eqn:E.
  - apply N.eqb_eq in E. subst. exfalso. apply H. left. reflexivity.
  - simpl. f_equal. apply IH. intros Hc. apply H. right. exact Hc.
Qed.

Lemma in_replace (c : N) (r s : pystr) (x : N) :
  In x (replace c r s) -> (In x s /\ x <> c) \/ In x r.
Proof.
  unfold replace. rewrite in_flat_map. intros (y & Hy & Hx).
  destruct (N.eqb y c) eqn:E.
  - right. exact Hx.
  - left. destruct Hx as [<- | []]. split; [exact Hy|].
    apply N.eqb_neq. exact E.
Qed.

Lemma count_absent (c : N) (s : pystr) : ~ In c s -> count c s = 0%nat.
Proof.
  unfold count. induction s as [|x s IH]; simpl; intros H; [reflexivity|].
  destruct (N.eqb c x) eqn:E.
  - apply N.eqb_eq in E. subst. exfalso. apply H. left. reflexivity.
  - apply IH. intros Hc. apply H. right. exact Hc.
Qed.

(** ** check_unicode.py: the substitution table *)

Section Substitution.
Import check_unicode.

Lemma fix_entry_fst (s : pystr) (n : nat) (e : N * pystr) :
  fst (fix_entry (s, n) e) = replace (fst e) (snd e) s.
Proof.
  destruct e as [c r]. simpl. destruct (has_char c s) eqn:E; simpl.
  - reflexivity.
  - symmetry. apply replace_absent. rewrite <- has_char_In. congruence.
Qed.

Lemma fix_with_fst (table : list (N * pystr)) (s : pystr) (n : nat) :
  fst (fix_with table s n) = subst_all table s.
Proof.
  unfold fix_with, subst_all. revert s n.
  induction table as [|e table IH]; intros s n; cbn [fold_left]; [reflexivity|].
  destruct (fix_entry (s, n) e) as [s' n'] eqn:E.
  rewrite IH. f_equal. rewrite <- (fix_entry_fst s n e), E. reflexivity.
Qed.

Lemma ascii_onlyb_sound keys table :
  ascii_onlyb keys table = true -> ascii_only keys table.
Proof.
  unfold ascii_onlyb, ascii_only. rewrite forallb_forall, List.Forall_forall.
  intros H e He c Hc. specialize (H e He). rewrite forallb_forall in H.
  specialize (H c Hc). rewrite negb_true_iff in H.
  rewrite <- has_char_In. congruence.
Qed.

Lemma subst_all_absent (table : list (N * pystr)) (s : pystr) :
  (forall c, In c (List.map fst table) -> ~ In c s) ->
  subst_all table s = s.
Proof.
  unfold subst_all. revert s.
  induction table as [|[c r] table IH]; intros s H; simpl; [reflexivity|].
  rewrite replace_absent by (apply H; left; reflexivity).
  apply IH. intros c' Hc'. apply H. right. exact Hc'.
Qed.

(** Once a key is gone it stays gone, and every key met is removed. *)
Lemma subst_all_removes (keys done : list N) (table : list (N * pystr))
    (s : pystr) :
  ascii_only keys table ->
  (forall c, In c done -> In c keys) ->
  (forall c, In c (List.map fst table) -> In c keys) ->
  (forall c, In c done -> ~ In c s) ->
  forall c, In c (done ++ List.map fst table) -> ~ In c (subst_all table s).
Proof.
  unfold subst_all. revert done s.
  induction table as [|[k r] table IH]; intros done s Hok Hdone Hkeys Hs c Hc;
    simpl in *.
  - rewrite app_nil_r in Hc. apply Hs. exact Hc.
  - inversion Hok as [|? ? Hr Hok']; subst. simpl in Hr.
    apply (IH (done ++ [k])); try assumption.
    + intros c' Hc'. apply in_app_iff in Hc'. destruct Hc' as [Hc'|[<-|[]]].
      * apply Hdone. exact Hc'.
      * apply Hkeys. left. reflexivity.
    + intros c' Hc'. apply Hkeys. right. exact Hc'.
    + intros c' Hc' Hin. apply in_replace in Hin.
      destruct Hin as [[Hin Hne] | Hin].
      * apply in_app_iff in Hc'. destruct Hc' as [Hc'|[<-|[]]].
        -- exact (Hs c' Hc' Hin).
        -- apply Hne. reflexivity.
      * apply (Hr c'); [|exact Hin].
        apply in_app_iff in Hc'. destruct Hc' as [Hc'|[<-|[]]].
        -- apply Hdone. exact Hc'.
        -- apply Hkeys. left. reflexivity.
    + rewrite <- app_assoc. exact Hc.
Qed.

Lemma subst_all_idempotent (table : list (N * pystr)) (s : pystr) :
  ascii_only (List.map fst table) table ->
  subst_all table (subst_all table s) = subst_all table s.
Proof.
  intros Hok. apply subst_all_absent. intros c Hc.
  apply (subst_all_removes (List.map fst table) [] table s Hok).
  - intros ? [].
  - intros ? H. exact H.
  - intros ? [].
  - exact Hc.
Qed.

Lemma table_ascii_only :
  ascii_only (List.map fst UNICODE_TO_ASCII) UNICODE_TO_ASCII.
Proof. apply ascii_onlyb_sound. vm_compute. reflexivity. Qed.
End Substitution.

(** C7. The character normalisation is idempotent: normalising a
    normalised string changes nothing, whatever the string. *)
Theorem normalize_idempotent (s : pystr) :
  check_unicode.normalize (check_unicode.normalize s) = check_unicode.normalize s.
Proof.
  unfold check_unicode.normalize, check_unicode.fix_str.
  rewrite !fix_with_fst.
  apply subst_all_idempotent. exact table_ascii_only.
Qed.

Lemma startswith_spec (s pre : pystr) :
  startswith s pre = true <-> exists rest, s = pre ++ rest.
Proof.
  revert s; induction pre as [|p pre IH]; intros s; simpl.
  - split; [intros _; exists s; reflexivity | reflexivity].
  - destruct s as [|c s]; simpl.
    + split; [discriminate | intros (rest & H); discriminate].
    + rewrite andb_true_iff, N.eqb_eq, IH. split.
      * intros (-> & rest & ->). exists rest. reflexivity.
      * intros (rest & [= -> ->]). split; [reflexivity | exists rest; reflexivity].
Qed.

Lemma endswith_spec (s suf : pystr) :
  endswith s suf = true <-> exists front, s = front ++ suf.
Proof.
  unfold endswith. rewrite startswith_spec. split.
  - intros (rest & H). exists (rev rest).
    rewrite <- (rev_involutive s), H, rev_app_distr, rev_involutive. reflexivity.
  - intros (front & ->). exists (rev front). apply rev_app_distr.
Qed.

Lemma endswith_lower (name suf : pystr) :
  endswith (lower name) suf = true <-> policy.ends_with_ci name suf.
Proof.
  rewrite endswith_spec. unfold policy.ends_with_ci, lower. split.
  - intros (front & H). apply List.map_eq_app in H.
    destruct H as (l1 & l2 & -> & _ & H2). exists l1, l2. split; [reflexivity | exact H2].
  - intros (front & back & -> & <-). exists (List.map lower_char front).
    apply List.map_app.
Qed.

Lemma lstrip_nil (s : pystr) : lstrip s = [] <-> policy.whitespace_only s.
Proof.
  unfold policy.whitespace_only. induction s as [|c s IH]; simpl.
  - split; [constructor | reflexivity].
  - destruct (isspace c) eqn:E.
    + rewrite IH. split; [intros H; constructor; assumption | intros H; inversion H; assumption].
    + split; [discriminate | intros H; inversion H; congruence].
Qed.

Lemma lstrip_whitespace_only (s : pystr) :
  policy.whitespace_only (lstrip s) <-> policy.whitespace_only s.
Proof.
  unfold policy.whitespace_only. induction s as [|c s IH]; simpl; [reflexivity|].
  destruct (isspace c) eqn:E.
  - rewrite IH. split; [intros H; constructor; assumption | intros H; inversion H; assumption].
  - split; intros H; inversion H; congruence.
Qed.

Lemma strip_nil (s : pystr) : strip s = [] <-> policy.whitespace_only s.
Proof.
  unfold strip, rstrip. split.
  - intros H. apply (f_equal (@rev N)) in H. rewrite rev_involutive in H. simpl in H.
    apply lstrip_nil in H. unfold policy.whitespace_only in H.
    apply Forall_rev in H. rewrite rev_involutive in H.
    apply lstrip_whitespace_only. exact H.
  - intros H. apply lstrip_whitespace_only in H.
    assert (H' : lstrip (rev (lstrip s)) = []).
    { apply lstrip_nil. apply Forall_rev. exact H. }
    rewrite H'. reflexivity.
Qed.

(** [value.strip()] is true exactly for a string that is not blank. *)
Lemma strip_truthy (s : pystr) :
  str_truthy (strip s) = true <-> ~ policy.whitespace_only s.
Proof.
  rewrite <- strip_nil. destruct (strip s); simpl; split; congruence.
Qed.

Lemma strip_blank (s : pystr) :
  str_truthy (strip s) = false <-> policy.whitespace_only s.
Proof.
  rewrite <- strip_nil. destruct (strip s); simpl; split; congruence.
Qed.

(** ** The deny-list classifiers *)

Section DenyList.
Variables exclude include : list pystr.

Lemma classify_policy :
  policy.deny_list_policy exclude include (policy.classify exclude include).
Proof.
  intros name s. unfold policy.classify. split; [|split].
  - intros H. apply str_in_In in H. rewrite H. reflexivity.
  - intros H1 H2. apply str_in_not_In in H1. apply str_in_In in H2.
    rewrite H1, H2. reflexivity.
  - intros Hex Hin. apply str_in_not_In in Hex. apply str_in_not_In in Hin.
    rewrite Hex, Hin.
    assert (Hp : startswith name (py "_") = true <-> policy.private_name name).
    { rewrite startswith_spec. unfold policy.private_name. reflexivity. }
    assert (Hi : endswith_any (lower name)
                   [py "id"; py "_id"; py "code"; py "_code"] = true
                 <-> policy.identifier_name name).
    { unfold endswith_any, policy.identifier_name. cbn [existsb].
      rewrite !orb_true_iff, !endswith_lower. intuition discriminate. }
    rewrite <- strip_truthy, <- Hp, <- Hi.
    destruct (str_truthy (strip s)), (startswith name (py "_")),
      (endswith_any _ _); simpl; intuition congruence.
Qed.
End DenyList.

(** C3. Under the deny-list-with-heuristic policy a string field is out
    when its name is in the exclude set (looked at first, so also when the
    name is in both sets), in when its name is in the include set, and
    otherwise in exactly when the value is not blank and the name neither
    begins with an underscore nor ends, letter case ignored, in [id],
    [_id], [code] or [_code]; for the classifier of
    [translate_comprehensive.py] and for that of [translate_deepl.py]. *)
Theorem deny_list_classification :
  policy.deny_list_policy
    translate_comprehensive.NON_TRANSLATABLE_FIELDS
    translate_comprehensive.TRANSLATABLE_FIELDS
    translate_comprehensive.should_translate_field
  /\ policy.deny_list_policy
       translate_deepl.NON_TRANSLATABLE
       translate_deepl.TRANSLATABLE
       translate_deepl.should_translate_field.
Proof.
  split.
  - exact (classify_policy translate_comprehensive.NON_TRANSLATABLE_FIELDS
             translate_comprehensive.TRANSLATABLE_FIELDS).
  - exact (classify_policy translate_deepl.NON_TRANSLATABLE
             translate_deepl.TRANSLATABLE).
Qed.

Lemma deny_list_classification_witness :
  translate_comprehensive.should_translate_field (py "id") (JStr (py "Shoot")) = false
  /\ translate_deepl.should_translate_field (py "opCode") (JStr (py "Shoot")) = false.
Proof.
  split.
  - apply (proj1 (proj1 deny_list_classification (py "id") (py "Shoot"))).
    vm_compute. tauto.
  - destruct (proj2 deny_list_classification (py "opCode") (py "Shoot"))
      as (_ & _ & H).
    destruct (translate_deepl.should_translate_field (py "opCode") (JStr (py "Shoot")))
      eqn:E; [|reflexivity].
    exfalso.
    assert (Hex : ~ In (py "opCode") translate_deepl.NON_TRANSLATABLE).
    { apply str_in_not_In. vm_compute. reflexivity. }
    assert (Hin : ~ In (py "opCode") translate_deepl.TRANSLATABLE).
    { apply str_in_not_In. vm_compute. reflexivity. }
    destruct (proj1 (H Hex Hin) eq_refl) as (_ & _ & Hid).
    apply Hid. right. right. left. exists (py "op"), (py "Code").
    split; vm_compute; reflexivity.
Defined.

(** ** translation_config.py: the classifier fails closed *)

Section FailClosed.
Import translation_config.

Lemma rule_get_absent (seg : pystr) (entries : list (pystr * rule)) :
  ~ In seg (List.map fst entries) -> rule_get seg entries = None.
Proof.
  induction entries as [|[k r] entries IH]; simpl; intros H; [reflexivity|].
  destruct (str_eqb k seg) eqn:E.
  - apply str_eqb_eq in E. exfalso. apply H. left. exact E.
  - apply IH. intros Hin. apply H. right. exact Hin.
Qed.

Lemma navigate_leads (root : rule) (path : list pystr) (node : rule) :
  navigate root path = Some node <-> leads_to root path node.
Proof.
  split.
  - revert root. induction path as [|seg path IH]; intros root; simpl.
    + intros [= ->]. constructor.
    + destruct root as [b|entries]; [discriminate|].
      destruct (rule_get seg entries) as [sub|] eqn:E; [|discriminate].
      intros H. econstructor; [exact E | apply IH; exact H].
  - induction 1 as [r | entries seg sub path r Hget _ IH]; simpl.
    + reflexivity.
    + rewrite Hget. exact IH.
Qed.

Lemma navigate_lost (root node : rule) (pre post : list pystr) (seg : pystr) :
  leads_to root pre node -> absent_from seg node ->
  navigate root (pre ++ seg :: post) = None.
Proof.
  induction 1 as [r | entries s sub path r Hget _ IH]; simpl; intros Habs.
  - destruct r as [b|entries]; [reflexivity|].
    simpl in Habs. rewrite (rule_get_absent _ _ Habs). reflexivity.
  - rewrite Hget. apply IH. exact Habs.
Qed.
End FailClosed.

(** C2. The classifier of [translation_config.py] fails closed, for every
    rule table: it returns [False] when the file resolves to no entry of
    the table, when some segment of the ancestor path is absent from the
    node reached so far (a flag has no segments at all, so a path that
    goes on past a flag is lost too), and when the field name is absent
    from the node the whole path leads to. *)
Theorem classifier_fail_closed
    (rules_table : list (pystr * translation_config.rule))
    (file_name : pystr) (field_path : list pystr) (field_name : pystr) :
  let key := translation_config.rules_key file_name in
  ~ In key (List.map fst rules_table)
  \/ (exists root pre seg post node,
        translation_config.rule_get key rules_table = Some root /\
        field_path = pre ++ seg :: post /\
        translation_config.leads_to root pre node /\
        translation_config.absent_from seg node)
  \/ (exists root node,
        translation_config.rule_get key rules_table = Some root /\
        translation_config.leads_to root field_path node /\
        translation_config.absent_from field_name node) ->
  translation_config.should_translate_field_in
    rules_table file_name field_path field_name
  = translation_config.RBool false.
Proof.
  intros key H. unfold translation_config.should_translate_field_in. fold key.
  destruct H as [H | [H | H]].
  - rewrite (rule_get_absent _ _ H). reflexivity.
  - destruct H as (root & pre & seg & post & node & Hroot & -> & Hlead & Habs).
    rewrite Hroot, (navigate_lost _ _ _ _ _ Hlead Habs). reflexivity.
  - destruct H as (root & node & Hroot & Hlead & Habs).
    rewrite Hroot. apply navigate_leads in Hlead. rewrite Hlead.
    destruct node as [b|entries]; [reflexivity|].
    simpl in Habs. rewrite (rule_get_absent _ _ Habs). reflexivity.
Qed.

Lemma classifier_fail_closed_witness :
  translation_config.should_translate_field
    (py "actions.json") [py "actions"; py "name"; py "deeper"] (py "text")
  = translation_config.RBool false.
Proof.
  apply (classifier_fail_closed translation_config.TRANSLATION_RULES).
  right. left.
  exists (translation_config.RDict
            [(py "actions", translation_config.action_rules)]),
    [py "actions"; py "name"], (py "deeper"), [], (translation_config.RBool true).
  split; [vm_compute; reflexivity|].
  split; [reflexivity|].
  split; [|exact I].
  eapply translation_config.leads_down; [vm_compute; reflexivity|].
  eapply translation_config.leads_down; [vm_compute; reflexivity|].
  apply translation_config.leads_here.
Defined.

(** ** The translation leaf transform never raises *)

Section Provider.
Import gtx.
Variable net : network.

Lemma request_counts (text lang : pystr) (n : nat) :
  snd (request net text lang n) = S n.
Proof.
  unfold request. destruct (requests_get net n text lang) as [|st [v|]];
    [reflexivity | | ]; destruct (Z.eqb st 200); reflexivity.
Qed.

Lemma request_failed (text lang : pystr) (n : nat) :
  failed_attempt (requests_get net n text lang) ->
  request net text lang n = (Exn, S n) \/ request net text lang n = (Ok None, S n).
Proof.
  unfold request, failed_attempt.
  destruct (requests_get net n text lang) as [|st payload].
  - intros _. left. reflexivity.
  - destruct (Z.eqb st 200) eqn:E.
    + apply Z.eqb_eq in E. intros [H | H]; [congruence|].
      destruct payload as [result|]; [|left; reflexivity].
      destruct H as [H | H].
      * right. unfold read_result. rewrite H. reflexivity.
      * left. rewrite H. reflexivity.
    + intros _. right. reflexivity.
Qed.

Lemma precise_translate_text_total (text lang : pystr) (n : nat) :
  exists t n',
    translate_precise.translate_text net text lang n = (Ok t, n') /\ (n' <= n + 2)%nat.
Proof.
  unfold translate_precise.translate_text.
  destruct (negb (str_truthy text) || negb (str_truthy (strip text))).
  { exists text, n. split; [reflexivity | lia]. }
  unfold catch, bind, import_requests.
  destruct (have_requests net); cbn [ret raise].
  - pose proof (request_counts text lang n) as C1.
    destruct (request net text lang n) as [[[t|]|] n1]; simpl in C1; subst n1.
    + exists t, (S n). split; [reflexivity | lia].
    + exists text, (S n). split; [reflexivity | lia].
    + pose proof (request_counts text lang (S n)) as C2.
      destruct (request net text lang (S n)) as [[[t|]|] n2]; simpl in C2; subst n2.
      * exists t, (S (S n)). split; [reflexivity | lia].
      * exists text, (S (S n)). split; [reflexivity | lia].
      * exists text, (S (S n)). split; [reflexivity | lia].
  - exists text, n. split; [reflexivity | lia].
Qed.

Lemma request_raised (text lang : pystr) (n n' : nat) :
  request net text lang n = (Exn, n') ->
  attempt_raises (requests_get net n text lang).
Proof.
  unfold request, attempt_raises.
  destruct (requests_get net n text lang) as [|st payload]; [intros _; exact I|].
  destruct (Z.eqb st 200) eqn:E; [|discriminate].
  apply Z.eqb_eq in E. intros H. split; [exact E|].
  destruct payload as [result|]; [|exact I].
  destruct (read_result result); [discriminate | reflexivity].
Qed.

Lemma precise_translate_text_fallback (text lang : pystr) (n : nat) :
  failed_attempt (requests_get net n text lang) ->
  (attempt_raises (requests_get net n text lang) ->
   failed_attempt (requests_get net (S n) text lang)) ->
  fst (translate_precise.translate_text net text lang n) = Ok text.
Proof.
  intros Hfirst Hretry. unfold translate_precise.translate_text.
  destruct (negb (str_truthy text) || negb (str_truthy (strip text)));
    [reflexivity|].
  unfold catch, bind, import_requests.
  destruct (have_requests net); cbn [ret raise]; [|reflexivity].
  destruct (request_failed text lang n Hfirst) as [E | E]; rewrite E;
    [|reflexivity].
  destruct (request_failed text lang (S n) (Hretry (request_raised _ _ _ _ E)))
    as [-> | ->]; reflexivity.
Qed.

Lemma batch_translate_text_total (text lang src : pystr) (n : nat) :
  exists t n',
    translate_batch.translate_text net text lang src n = (Ok t, n') /\ (n' <= n + 1)%nat.
Proof.
  unfold translate_batch.translate_text.
  destruct (negb (str_truthy text) || negb (str_truthy (strip text))).
  { exists text, n. split; [reflexivity | lia]. }
  unfold catch, bind, import_requests.
  destruct (have_requests net); cbn [ret raise].
  - pose proof (request_counts text lang n) as C1.
    destruct (request net text lang n) as [[[t|]|] n1]; simpl in C1; subst n1.
    + exists t, (S n). split; [reflexivity | lia].
    + exists text, (S n). split; [reflexivity | lia].
    + exists text, (S n). split; [reflexivity | lia].
  - exists text, n. split; [reflexivity | lia].
Qed.

Lemma batch_translate_text_fallback (text lang src : pystr) (n : nat) :
  failed_attempt (requests_get net n text lang) ->
  fst (translate_batch.translate_text net text lang src n) = Ok text.
Proof.
  intros Hfail. unfold translate_batch.translate_text.
  destruct (negb (str_truthy text) || negb (str_truthy (strip text)));
    [reflexivity|].
  unfold catch, bind, import_requests.
  destruct (have_requests net); cbn [ret raise]; [|reflexivity].
  destruct (request_failed text lang n Hfail) as [-> | ->]; reflexivity.
Qed.
End Provider.

(** C4 (as amended). [translate_text] never raises: in
    [translate_precise.py] (one retry, at most two requests) and in
    [translate_batch.py] (no retry, at most one request) every call
    returns a string, whatever the provider does.  When the attempts
    made fail -- the request raises, the status is not 200, the body is
    not JSON or is an empty value, or reading the body raises -- the
    string returned is the original text; the retry of
    [translate_precise.py] is made, and has to fail too, only when the
    first attempt raised. *)
Theorem translate_text_never_raises
    (net : gtx.network) (text target_lang source_lang : pystr) (n : nat) :
  (exists t n',
     translate_precise.translate_text net text target_lang n = (Ok t, n')
     /\ (n' <= n + 2)%nat)
  /\ (exists t n',
        translate_batch.translate_text net text target_lang source_lang n
        = (Ok t, n')
        /\ (n' <= n + 1)%nat)
  /\ (gtx.failed_attempt (gtx.requests_get net n text target_lang) ->
      (gtx.attempt_raises (gtx.requests_get net n text target_lang) ->
       gtx.failed_attempt (gtx.requests_get net (S n) text target_lang)) ->
      fst (translate_precise.translate_text net text target_lang n) = Ok text)
  /\ (gtx.failed_attempt (gtx.requests_get net n text target_lang) ->
      fst (translate_batch.translate_text net text target_lang source_lang n)
      = Ok text).
Proof.
  split; [apply precise_translate_text_total|].
  split; [apply batch_translate_text_total|].
  split.
  - apply precise_translate_text_fallback.
  - apply batch_translate_text_fallback.
Qed.

Lemma translate_text_never_raises_witness :
  fst (translate_precise.translate_text gtx.down_twice (py "Shoot") (py "es") 0%nat)
  = Ok (py "Shoot").
Proof.
  apply (proj1 (proj2 (proj2 (translate_text_never_raises
                                gtx.down_twice (py "Shoot") (py "es") (py "en")
                                0%nat)))).
  - exact I.
  - intros _. exact I.
Defined.

(** A 200 answer whose body is JSON but not of the endpoint's form is
    read all the same: the body ["oops"] gives ["o"], and a part whose
    head is [null] gives the empty string; neither is the text. *)
Lemma translate_text_never_raises_counterexample :
  fst (translate_precise.translate_text (gtx.garbled (JStr (py "oops")))
         (py "Shoot") (py "es") 0%nat)
  = Ok (py "o")
  /\ fst (translate_batch.translate_text (gtx.garbled (JStr (py "oops")))
            (py "Shoot") (py "es") (py "en") 0%nat)
     = Ok (py "o")
  /\ fst (translate_precise.translate_text
            (gtx.garbled (JArr [JArr [JArr [JNull; JStr (py "x")]]]))
            (py "Shoot") (py "es") 0%nat)
     = Ok []
  /\ py "o" <> py "Shoot" /\ [] <> py "Shoot".
Proof.
  repeat split; try (vm_compute; reflexivity); discriminate.
Qed.

(** ** Batching *)

Lemma bind_ok_inv {S A B : Type} (m : M S A) (k : A -> M S B) (s s' : S) (b : B) :
  bind m k s = (Ok b, s') ->
  exists a s1, m s = (Ok a, s1) /\ k a s1 = (Ok b, s').
Proof.
  unfold bind. destruct (m s) as [[a|] s1]; [|discriminate].
  intros H. exists a, s1. split; [reflexivity | exact H].
Qed.




Lemma pad_length (n : nat) (rs : list pystr) :
  (n <= List.length (translate_batch.pad n rs))%nat.
Proof.
  unfold translate_batch.pad. rewrite List.length_app, List.repeat_length. lia.
Qed.



Section Batch.
Import translate_batch.
Variables lang src : pystr.




Lemma batch_length (net : gtx.network) (texts : list pystr) (n : nat) :
  exists r n',
    translate_batch net lang src texts n = (Ok r, n')
    /\ List.length r = List.length texts.
Proof.
  unfold translate_batch, catch.
  match goal with |- context [match ?m n with _ => _ end] =>
    destruct (m n) as [[r|] n'] eqn:E end.
  - exists r, n'. split; [reflexivity|].
    apply bind_ok_inv in E. destruct E as (_ & s1 & _ & E).
    apply bind_ok_inv in E. destruct E as (st & s2 & _ & E).
    apply bind_ok_inv in E. destruct E as (rs & s3 & _ & E).
    unfold ret in E. injection E as <- _.
    rewrite List.length_firstn. pose proof (pad_length (List.length texts) rs). lia.
  - exists texts, n'. split; reflexivity.
Qed.
End Batch.

(** ** Induction over documents *)

Lemma json_ind' (P : json -> Prop) :
  P JNull ->
  (forall b, P (JBool b)) ->
  (forall n, P (JNum n)) ->
  (forall s, P (JStr s)) ->
  (forall l, Forall P l -> P (JArr l)) ->
  (forall kvs, Forall (fun kv => P (snd kv)) kvs -> P (JObj kvs)) ->
  forall v, P v.
Proof.
  intros Hnull Hbool Hnum Hstr Harr Hobj.
  fix IH 1. intros [ | b | n | s | l | kvs].
  - exact Hnull.
  - apply Hbool.
  - apply Hnum.
  - apply Hstr.
  - apply Harr. induction l as [|x l IHl]; constructor; [apply IH | exact IHl].
  - apply Hobj. induction kvs as [|[k x] kvs IHl]; constructor;
      [apply IH | exact IHl].
Qed.

(** What [mapM] gives when it returns: one result per element, each
    related to its element as the function relates them. *)
Lemma mapM_ok {S A B C : Type} (f : A -> M S B) (gA : A -> C) (gB : B -> C)
    (l : list A) :
  (forall x, In x l -> forall s r s', f x s = (Ok r, s') -> gB r = gA x) ->
  forall s rs s', mapM f l s = (Ok rs, s') -> List.map gB rs = List.map gA l.
Proof.
  induction l as [|a l IH]; intros Hf s rs s' H.
  - cbn in H. injection H as <- _. reflexivity.
  - cbn [mapM] in H.
    apply bind_ok_inv in H. destruct H as (b & s1 & Hb & H).
    apply bind_ok_inv in H. destruct H as (bs & s2 & Hbs & H).
    cbn in H. injection H as <- _. simpl. f_equal.
    + apply (Hf a (or_introl eq_refl) _ _ _ Hb).
    + apply (IH (fun x Hx => Hf x (or_intror Hx)) _ _ _ Hbs).
Qed.

(** ** translate_precise.py: the walk keeps the shape *)

Section PreciseShape.
Import translation_config translate_precise.
Context {S : Type}.
Variable rules_table : list (pystr * rule).
Variable translate_text : pystr -> pystr -> M S pystr.
Variables file_name target_lang : pystr.

Local Abbreviation walk := (translate_value rules_table translate_text file_name target_lang).
Local Abbreviation walk_item := (translate_item translate_text target_lang).

Lemma precise_item_shape (item : json) (s : S) (r : json) (s' : S) :
  walk_item item s = (Ok r, s') -> shape_of r = shape_of item.
Proof.
  destruct item as [ | b | n | str | l | kvs]; simpl; try discriminate.
  destruct (str_truthy (strip str)).
  - intros H. apply bind_ok_inv in H. destruct H as (t & s1 & _ & H).
    cbn in H. injection H as <- _. reflexivity.
  - cbn. intros [= <- _]. reflexivity.
Qed.

Lemma precise_shape (value : json) :
  forall field_name field_path s r s',
    walk value field_name field_path s = (Ok r, s') ->
    shape_of r = shape_of value.
Proof.
  induction value as [ | b | n | str | l IH | kvs IH] using json_ind';
    intros field_name field_path s r s' H; cbn [translate_value] in H;
    try (cbn in H; injection H as <- _; reflexivity).
  - destruct (in_scope rules_table file_name field_path field_name
              && str_truthy (strip str)).
    + unfold catch in H.
      destruct (bind (translate_text str target_lang) (fun t => ret (JStr t)) s)
        as [[a|] s1] eqn:E.
      * injection H as <- _. apply bind_ok_inv in E.
        destruct E as (t & s2 & _ & E). cbn in E. injection E as <- _. reflexivity.
      * cbn in H. injection H as <- _. reflexivity.
    + cbn in H. injection H as <- _. reflexivity.
  - destruct l as [|first l]; [cbn in H; injection H as <- _; reflexivity|].
    assert (Hrec : forall s r s',
      (let* items' := mapM (fun item => walk item []
                              (extend field_path field_name)) (first :: l) in
       ret (JArr items')) s = (Ok r, s') ->
      shape_of r = shape_of (JArr (first :: l))).
    { clear H. intros s0 r0 s0' H. apply bind_ok_inv in H.
      destruct H as (items' & s1 & Hm & H). cbn in H. injection H as <- _.
      cbn [shape_of]. f_equal.
      eapply (mapM_ok _ shape_of shape_of); [|exact Hm].
      intros x Hx s2 r2 s2' Hw. rewrite List.Forall_forall in IH.
      exact (IH x Hx _ _ _ _ _ Hw). }
    destruct first as [ | b | n | str | l' | kvs']; try exact (Hrec _ _ _ H).
    destruct (in_scope rules_table file_name field_path field_name).
    + apply bind_ok_inv in H. destruct H as (items' & s1 & Hm & H).
      cbn in H. injection H as <- _. cbn [shape_of]. f_equal.
      eapply (mapM_ok _ shape_of shape_of); [|exact Hm].
      intros x _ s2 r2 s2' Hw. exact (precise_item_shape _ _ _ _ Hw).
    + cbn in H. injection H as <- _. reflexivity.
  - apply bind_ok_inv in H. destruct H as (kvs' & s1 & Hm & H).
    cbn in H. injection H as <- _. cbn [shape_of]. f_equal.
    eapply (mapM_ok _ (fun kv => (fst kv, shape_of (snd kv)))
                      (fun kv => (fst kv, shape_of (snd kv)))); [|exact Hm].
    intros [k v] Hx s2 [k2 v2] s2' Hw.
    apply bind_ok_inv in Hw. destruct Hw as (v' & s3 & Hv & Hw).
    cbn in Hw. injection Hw as <- <- _. simpl. f_equal.
    rewrite List.Forall_forall in IH. exact (IH (k, v) Hx _ _ _ _ _ Hv).
Qed.
End PreciseShape.

(** ** translate_comprehensive.py: keys outside the include list stay *)

Lemma dict_set_fresh (k : pystr) (v : json) (d : dict) :
  ~ In k (List.map fst d) -> dict_set k v d = d ++ [(k, v)].
Proof.
  induction d as [|[k' v'] d IH]; simpl; intros H; [reflexivity|].
  destruct (str_eqb k' k) eqn:E.
  - apply str_eqb_eq in E. exfalso. apply H. left. exact E.
  - f_equal. apply IH. intros Hin. apply H. right. exact Hin.
Qed.

Section ComprehensiveShape.
Import translate_comprehensive.
Context {S : Type}.
Variable translate_func : pystr -> pystr -> M S pystr.
Variable target_lang : pystr.

Local Abbreviation walk := (translate_value translate_func target_lang).
Local Abbreviation entry_shape :=
  (fun kv : pystr * json => (fst kv, shape_of (snd kv))).

Lemma comprehensive_item_shape (item : json) (s : S) (r : json) (s' : S) :
  translate_item translate_func target_lang item s = (Ok r, s') ->
  shape_of r = shape_of item.
Proof.
  destruct item as [ | b | n | str | l | kvs]; simpl;
    try (cbn; intros [= <- _]; reflexivity).
  destruct (str_truthy (strip str)).
  - intros H. apply bind_ok_inv in H. destruct H as (t & s1 & _ & H).
    cbn in H. injection H as <- _. reflexivity.
  - cbn. intros [= <- _]. reflexivity.
Qed.

(** The [for k, v in value.items()] loop, when no key is translated and
    no key comes twice: every item is appended under its own name. *)
Lemma comprehensive_items (kvs : list (pystr * json)) :
  Forall (fun kv =>
            ~ In (fst kv) TRANSLATABLE_FIELDS /\
            forall field_name s r s',
              walk (snd kv) field_name s = (Ok r, s') ->
              shape_of r = shape_of (snd kv)) kvs ->
  forall (acc : dict) s r s',
    List.NoDup (List.map fst acc ++ List.map fst kvs) ->
    foldM (fun (result : dict) (kv : pystr * json) =>
             let (k, v) := kv in
             let* translated_key :=
               (if str_in k TRANSLATABLE_FIELDS
                then translate_str translate_func target_lang k []
                else ret k) in
             let* v' := walk v k in
             ret (dict_set translated_key v' result))
          kvs acc s = (Ok r, s') ->
    List.map entry_shape r = List.map entry_shape acc ++ List.map entry_shape kvs.
Proof.
  induction 1 as [|[k v] kvs [Hk Hv] _ IH]; intros acc s r s' Hnd H.
  - cbn in H. injection H as <- _. rewrite app_nil_r. reflexivity.
  - cbn [foldM] in H. apply bind_ok_inv in H. destruct H as (acc' & s1 & Hstep & H).
    cbn [fst snd] in Hk, Hv. apply str_in_not_In in Hk. rewrite Hk in Hstep.
    apply bind_ok_inv in Hstep. destruct Hstep as (k' & s2 & Hk' & Hstep).
    cbn in Hk'. injection Hk' as <- <-.
    apply bind_ok_inv in Hstep. destruct Hstep as (v' & s3 & Hv' & Hstep).
    cbn in Hstep. injection Hstep as <- <-.
    simpl in Hnd.
    rewrite dict_set_fresh in H.
    2:{ apply List.NoDup_remove_2 in Hnd. intros Hin. apply Hnd.
        apply in_app_iff. left. exact Hin. }
    apply IH in H.
    + rewrite H, List.map_app, <- app_assoc. simpl.
      rewrite (Hv _ _ _ _ Hv'). reflexivity.
    + rewrite List.map_app, <- app_assoc. simpl.
      apply List.NoDup_remove_1 in Hnd as Hnd1.
      apply List.NoDup_remove_2 in Hnd as Hnd2.
      clear - Hnd1 Hnd2.
      induction (List.map fst acc) as [|a l IHl]; simpl in *.
      * constructor; assumption.
      * inversion Hnd1 as [|? ? Ha Hl]; subst. constructor.
        -- intros Hin. apply in_app_iff in Hin. destruct Hin as [Hin | [<- | Hin]].
           ++ apply Ha. apply in_app_iff. left. exact Hin.
           ++ apply Hnd2. left. reflexivity.
           ++ apply Ha. apply in_app_iff. right. exact Hin.
        -- apply IHl; [exact Hl|]. intros Hin. apply Hnd2. right. exact Hin.
Qed.

Lemma comprehensive_shape (value : json) :
  forall field_name s r s',
    distinct_keys value ->
    keys_avoid TRANSLATABLE_FIELDS value ->
    walk value field_name s = (Ok r, s') ->
    shape_of r = shape_of value.
Proof.
  induction value as [ | b | n | str | l IH | kvs IH] using json_ind';
    intros field_name s r s' Hdk Hka H; cbn [translate_value] in H;
    try (cbn in H; injection H as <- _; reflexivity).
  - apply bind_ok_inv in H. destruct H as (t & s1 & _ & H).
    cbn in H. injection H as <- _. reflexivity.
  - destruct l as [|first l]; [cbn in H; injection H as <- _; reflexivity|].
    inversion Hdk as [ | | | | ? Hdk' | ]; subst.
    inversion Hka as [ | | | | ? Hka' | ]; subst.
    assert (Hrec : forall s r s',
      (let* items' := mapM (fun item => walk item field_name) (first :: l) in
       ret (JArr items')) s = (Ok r, s') ->
      shape_of r = shape_of (JArr (first :: l))).
    { clear H. intros s0 r0 s0' H. apply bind_ok_inv in H.
      destruct H as (items' & s1 & Hm & H). cbn in H. injection H as <- _.
      cbn [shape_of]. f_equal.
      eapply (mapM_ok _ shape_of shape_of); [|exact Hm].
      intros x Hx s2 r2 s2' Hw. rewrite List.Forall_forall in IH, Hdk', Hka'.
      exact (IH x Hx _ _ _ _ (Hdk' x Hx) (Hka' x Hx) Hw). }
    destruct first as [ | b | n | str | l' | kvs']; try exact (Hrec _ _ _ H).
    destruct (str_in field_name [py "effects"; py "conditions"; py "packs"]
              || should_translate_field field_name (JStr str)).
    + apply bind_ok_inv in H. destruct H as (items' & s1 & Hm & H).
      cbn in H. injection H as <- _. cbn [shape_of]. f_equal.
      eapply (mapM_ok _ shape_of shape_of); [|exact Hm].
      intros x _ s2 r2 s2' Hw. exact (comprehensive_item_shape _ _ _ _ Hw).
    + cbn in H. injection H as <- _. reflexivity.
  - inversion Hdk as [ | | | | | ? Hnd Hdk' ]; subst.
    inversion Hka as [ | | | | | ? Hka' ]; subst.
    apply bind_ok_inv in H. destruct H as (result & s1 & Hfold & H).
    cbn in H. injection H as <- _. cbn [shape_of]. f_equal.
    apply comprehensive_items in Hfold; [exact Hfold | | simpl; exact Hnd].
    rewrite List.Forall_forall in IH, Hdk', Hka'. apply List.Forall_forall.
    intros kv Hkv. destruct (Hka' kv Hkv) as [Hk Hsub]. split; [exact Hk|].
    intros fn s2 r2 s2' Hw. exact (IH kv Hkv _ _ _ _ (Hdk' kv Hkv) Hsub Hw).
Qed.
End ComprehensiveShape.

(** ** translate_comprehensive.py: how the keys are renamed *)

Lemma mapM_rel {S A B : Type} (f : A -> M S B) (R : A -> B -> Prop) (l : list A) :
  (forall x, In x l -> forall s r s', f x s = (Ok r, s') -> R x r) ->
  forall s rs s', mapM f l s = (Ok rs, s') -> Forall2 R l rs.
Proof.
  induction l as [|a l IH]; intros Hf s rs s' H.
  - cbn in H. injection H as <- _. constructor.
  - cbn [mapM] in H.
    apply bind_ok_inv in H. destruct H as (b & s1 & Hb & H).
    apply bind_ok_inv in H. destruct H as (bs & s2 & Hbs & H).
    cbn in H. injection H as <- _. constructor.
    + apply (Hf a (or_introl eq_refl) _ _ _ Hb).
    + apply (IH (fun x Hx => Hf x (or_intror Hx)) _ _ _ Hbs).
Qed.

Lemma assign_fresh (kvs : list (pystr * json)) :
  forall acc : dict,
    List.NoDup (List.map fst acc ++ List.map fst kvs) ->
    fold_left (fun (result : dict) (item : pystr * json) =>
                 dict_set (fst item) (snd item) result) kvs acc
    = acc ++ kvs.
Proof.
  induction kvs as [|[k v] kvs IH]; intros acc Hnd; simpl.
  - rewrite app_nil_r. reflexivity.
  - simpl in Hnd. rewrite dict_set_fresh.
    + rewrite IH; [rewrite <- app_assoc; reflexivity|].
      rewrite List.map_app, <- app_assoc. exact Hnd.
    + apply List.NoDup_remove_2 in Hnd. intros Hin. apply Hnd.
      apply in_app_iff. left. exact Hin.
Qed.

Lemma assign_distinct (kvs : list (pystr * json)) :
  List.NoDup (List.map fst kvs) -> renaming.assign kvs = kvs.
Proof.
  intros Hnd. unfold renaming.assign. rewrite assign_fresh; [reflexivity|].
  exact Hnd.
Qed.

Section ComprehensiveNames.
Import translate_comprehensive renaming.
Context {S : Type}.
Variable translate_func : pystr -> pystr -> M S pystr.
Variable target_lang : pystr.

Local Abbreviation walk := (translate_value translate_func target_lang).
Local Abbreviation related := (renamed translate_func target_lang).
Local Abbreviation named := (stored_as translate_func target_lang).
Local Abbreviation entry_shape :=
  (fun kv : pystr * json => (fst kv, shape_of (snd kv))).

Lemma item_of_refl (l : list json) : Forall2 item_of l l.
Proof.
  induction l as [|x l IH]; constructor; [|exact IH].
  destruct x; simpl; eauto.
Qed.

(** A listed key is a string the classifier lets through: the walk calls
    the leaf transform on it. *)
Lemma listed_key_translated (k : pystr) :
  In k TRANSLATABLE_FIELDS ->
  translate_str translate_func target_lang k []
  = catch (translate_func k target_lang) (ret k).
Proof.
  intros Hin. unfold translate_str.
  assert (H : Forall (fun k => should_translate_field [] (JStr k)
                               && str_truthy (strip k) = true)
                     TRANSLATABLE_FIELDS).
  { unfold TRANSLATABLE_FIELDS. cbn [List.map].
    repeat (constructor; [vm_compute; reflexivity|]). constructor. }
  rewrite List.Forall_forall in H. rewrite (H k Hin). reflexivity.
Qed.

Lemma comprehensive_item_of (item : json) (s : S) (r : json) (s' : S) :
  translate_item translate_func target_lang item s = (Ok r, s') ->
  item_of item r.
Proof.
  destruct item as [ | b | n | str | l | kvs]; simpl;
    try (cbn; intros [= <- _]; reflexivity).
  destruct (str_truthy (strip str)).
  - intros H. apply bind_ok_inv in H. destruct H as (t & s1 & _ & H).
    cbn in H. injection H as <- _. eauto.
  - cbn. intros [= <- _]. eauto.
Qed.

(** The [for k, v in value.items()] loop: every value is assigned, in
    order, under the name its key is stored as. *)
Lemma comprehensive_assigns (kvs : list (pystr * json)) :
  Forall (fun kv =>
            forall field_name s r s',
              walk (snd kv) field_name s = (Ok r, s') ->
              related (snd kv) r) kvs ->
  forall (acc : dict) s r s',
    foldM (fun (result : dict) (kv : pystr * json) =>
             let (k, v) := kv in
             let* translated_key :=
               (if str_in k TRANSLATABLE_FIELDS
                then translate_str translate_func target_lang k []
                else ret k) in
             let* v' := walk v k in
             ret (dict_set translated_key v' result))
          kvs acc s = (Ok r, s') ->
    exists items,
      Forall2 (fun kv item =>
                 named (fst kv) (fst item) /\ related (snd kv) (snd item))
              kvs items
      /\ r = fold_left (fun (result : dict) (item : pystr * json) =>
                          dict_set (fst item) (snd item) result) items acc.
Proof.
  induction 1 as [|[k v] kvs Hv _ IH]; intros acc s r s' H.
  - cbn in H. injection H as <- _. exists []. split; [constructor | reflexivity].
  - cbn [foldM] in H. apply bind_ok_inv in H. destruct H as (acc' & s1 & Hstep & H).
    cbn [fst snd] in Hv.
    apply bind_ok_inv in Hstep. destruct Hstep as (k' & s2 & Hk' & Hstep).
    apply bind_ok_inv in Hstep. destruct Hstep as (v' & s3 & Hv' & Hstep).
    cbn in Hstep. injection Hstep as <- <-.
    apply IH in H. destruct H as (items & Hitems & ->).
    exists ((k', v') :: items). split; [|reflexivity].
    constructor; [|exact Hitems]. cbn [fst snd]. split.
    + unfold stored_as. destruct (str_in k TRANSLATABLE_FIELDS) eqn:Hin.
      * apply str_in_In in Hin. rewrite (listed_key_translated k Hin) in Hk'.
        unfold catch in Hk'.
        destruct (translate_func k target_lang s) as [[name|] s0] eqn:Hcall.
        -- injection Hk' as <- _. exists s, s0. left. exact Hcall.
        -- cbn in Hk'. injection Hk' as <- _. exists s, s0. right.
           split; [exact Hcall | reflexivity].
      * cbn in Hk'. injection Hk' as <- _. reflexivity.
    + exact (Hv _ _ _ _ Hv').
Qed.

Lemma comprehensive_renamed (value : json) :
  forall field_name s r s',
    walk value field_name s = (Ok r, s') ->
    related value r.
Proof.
  induction value as [ | b | n | str | l IH | kvs IH] using json_ind';
    intros field_name s r s' H; cbn [translate_value] in H;
    try (cbn in H; injection H as <- _; constructor).
  - apply bind_ok_inv in H. destruct H as (t & s1 & _ & H).
    cbn in H. injection H as <- _. constructor.
  - destruct l as [|first l];
      [cbn in H; injection H as <- _; apply rn_arr; [reflexivity | constructor]|].
    assert (Hrec : forall s r s',
      (let* items' := mapM (fun item => walk item field_name) (first :: l) in
       ret (JArr items')) s = (Ok r, s') ->
      exists items', r = JArr items' /\ Forall2 related (first :: l) items').
    { clear H. intros s0 r0 s0' H. apply bind_ok_inv in H.
      destruct H as (items' & s1 & Hm & H). cbn in H. injection H as <- _.
      exists items'. split; [reflexivity|]. eapply mapM_rel; [|exact Hm].
      intros x Hx s2 r2 s2' Hw. rewrite List.Forall_forall in IH.
      exact (IH x Hx _ _ _ _ Hw). }
    destruct first as [ | b | n | str | l' | kvs'];
      try (destruct (Hrec _ _ _ H) as (items' & -> & HF);
           apply rn_arr; [reflexivity | exact HF]).
    destruct (str_in field_name [py "effects"; py "conditions"; py "packs"]
              || should_translate_field field_name (JStr str)).
    + apply bind_ok_inv in H. destruct H as (items' & s1 & Hm & H).
      cbn in H. injection H as <- _. apply rn_strs; [reflexivity|].
      eapply mapM_rel; [|exact Hm].
      intros x Hx s2 r2 s2' Hw. exact (comprehensive_item_of _ _ _ _ Hw).
    + cbn in H. injection H as <- _. apply rn_strs; [reflexivity|].
      apply item_of_refl.
  - apply bind_ok_inv in H. destruct H as (result & s1 & Hfold & H).
    cbn in H. injection H as <- _.
    apply comprehensive_assigns in Hfold.
    + destruct Hfold as (items & Hitems & ->). constructor. exact Hitems.
    + rewrite List.Forall_forall in IH. apply List.Forall_forall.
      intros kv Hkv fn s2 r2 s2' Hw. exact (IH kv Hkv _ _ _ _ Hw).
Qed.

Lemma item_of_shape (l l' : list json) :
  Forall2 item_of l l' -> List.map shape_of l' = List.map shape_of l.
Proof.
  induction 1 as [|x y l1 l2 Hxy _ IHF]; [reflexivity|].
  simpl. f_equal; [|exact IHF].
  destruct x; simpl in Hxy; try (subst; reflexivity).
  destruct Hxy as (t & ->). reflexivity.
Qed.

(** When every name a key is stored as is the key, the shape is kept. *)
Lemma renamed_same_shape (value : json) :
  (forall k name, named k name -> name = k) ->
  forall r, distinct_keys value -> related value r -> shape_of r = shape_of value.
Proof.
  intros Hsame.
  induction value as [ | b | n | str | l IH | kvs IH] using json_ind';
    intros r Hdk Hr; inversion Hr; subst; try reflexivity.
  - inversion Hdk as [ | | | | ? Hdk' | ]; subst.
    cbn [shape_of]. f_equal. clear Hdk Hr.
    match goal with Hs : strings_first l = false |- _ => clear Hs end.
    match goal with HF : Forall2 related l _ |- _ =>
      revert IH Hdk'; induction HF as [|x y l1 l2 Hxy _ IHF]; intros IH Hdk' end;
      [reflexivity|].
    inversion IH; inversion Hdk'; subst. simpl. f_equal; auto.
  - cbn [shape_of]. f_equal. apply item_of_shape. assumption.
  - inversion Hdk as [ | | | | | ? Hnd Hdk' ]; subst.
    match goal with HF : Forall2 _ kvs _ |- _ => rename HF into Hitems end.
    assert (Hkeys : List.map fst items = List.map fst kvs).
    { clear - Hitems Hsame. induction Hitems as [|kv item l1 l2 [Hn _] _ IHF];
        [reflexivity|]. simpl. f_equal; [apply Hsame; exact Hn | exact IHF]. }
    rewrite assign_distinct by (rewrite Hkeys; exact Hnd).
    cbn [shape_of]. f_equal. clear Hnd Hkeys Hdk Hr.
    revert IH Hdk'. induction Hitems as [|kv item l1 l2 [Hn Hv] _ IHF];
      intros IH Hdk'; [reflexivity|].
    inversion IH; inversion Hdk'; subst. simpl. f_equal; [|auto].
    rewrite (Hsame _ _ Hn). f_equal. auto.
Qed.

(** A leaf transform that returns the listed keys as they are stores
    every key under its own name. *)
Lemma keys_kept_named :
  (forall k s name s',
     In k TRANSLATABLE_FIELDS ->
     translate_func k target_lang s = (Ok name, s') -> name = k) ->
  forall k name, named k name -> name = k.
Proof.
  intros Hkept k name. unfold stored_as.
  destruct (str_in k TRANSLATABLE_FIELDS) eqn:Hin; [|exact (fun H => H)].
  apply str_in_In in Hin. intros (s & s' & [Hcall | [_ ->]]);
    [exact (Hkept _ _ _ _ Hin Hcall) | reflexivity].
Qed.
End ComprehensiveNames.


(** C1 (as amended). Whenever the walk of [translate_precise.py] returns,
    for every rule table and every leaf transform, the document returned
    has the shape of the input: the same keys in the same order in every
    object, the same length for every array.  The walk of
    [translate_comprehensive.py] keeps every array length and every key
    that is not listed in [TRANSLATABLE_FIELDS], and assigns the value of
    a listed key, in the input's order, under the name the leaf transform
    returns for the key (the key itself when the transform raises on it).
    So it keeps the shape of every document (the keys of each object
    distinct, as Python holds them) none of whose keys is listed, and of
    every document when the transform returns the listed keys as they
    are; with another transform the listed keys are renamed. *)
Theorem walk_preserves_shape {S : Type} :
  (forall (rules_table : list (pystr * translation_config.rule))
          (translate_text : pystr -> pystr -> M S pystr)
          (file_name target_lang : pystr)
          (value : json) (field_name : pystr) (field_path : list pystr)
          (s : S) (r : json) (s' : S),
     translate_precise.translate_value rules_table translate_text
       file_name target_lang value field_name field_path s = (Ok r, s') ->
     shape_of r = shape_of value)
  /\ (forall (translate_func : pystr -> pystr -> M S pystr)
             (target_lang : pystr)
             (value : json) (field_name : pystr) (s : S) (r : json) (s' : S),
        distinct_keys value ->
        keys_avoid translate_comprehensive.TRANSLATABLE_FIELDS value ->
        translate_comprehensive.translate_value translate_func target_lang
          value field_name s = (Ok r, s') ->
        shape_of r = shape_of value)
  /\ (forall (translate_func : pystr -> pystr -> M S pystr)
             (target_lang : pystr)
             (value : json) (field_name : pystr) (s : S) (r : json) (s' : S),
        translate_comprehensive.translate_value translate_func target_lang
          value field_name s = (Ok r, s') ->
        renaming.renamed translate_func target_lang value r)
  /\ (forall (translate_func : pystr -> pystr -> M S pystr)
             (target_lang : pystr)
             (value : json) (field_name : pystr) (s : S) (r : json) (s' : S),
        (forall k s0 name s1,
           In k translate_comprehensive.TRANSLATABLE_FIELDS ->
           translate_func k target_lang s0 = (Ok name, s1) -> name = k) ->
        distinct_keys value ->
        translate_comprehensive.translate_value translate_func target_lang
          value field_name s = (Ok r, s') ->
        shape_of r = shape_of value).
Proof.
  split; [|split; [|split]].
  - intros. eapply precise_shape. eassumption.
  - intros. eapply comprehensive_shape; eassumption.
  - intros. eapply comprehensive_renamed. eassumption.
  - intros translate_func target_lang value field_name s r s' Hkept Hdk H.
    apply (renamed_same_shape translate_func target_lang value
             (keys_kept_named translate_func target_lang Hkept) r Hdk).
    eapply comprehensive_renamed. exact H.
Qed.

Lemma walk_preserves_shape_witness :
  shape_of (JObj [(py "actions",
                   JArr [JObj [(py "name", JStr (py "SHOOT"));
                               (py "id", JStr (py "act-01"));
                               (py "effects", JArr [JStr (py "DEAL 1 DAMAGE")])]])])
  = shape_of (JObj [(py "actions",
                     JArr [JObj [(py "name", JStr (py "Shoot"));
                                 (py "id", JStr (py "act-01"));
                                 (py "effects", JArr [JStr (py "Deal 1 damage")])]])])
  /\ renaming.renamed shout (py "es")
       (JObj [(py "actions",
               JArr [JObj [(py "name", JStr (py "Shoot"));
                           (py "id", JStr (py "act-01"));
                           (py "effects", JArr [JStr (py "Deal 1 damage")])]])])
       (JObj [(py "actions",
               JArr [JObj [(py "NAME", JStr (py "SHOOT"));
                           (py "id", JStr (py "act-01"));
                           (py "EFFECTS", JArr [JStr (py "DEAL 1 DAMAGE")])]])]).
Proof.
  split.
  - apply (proj1 (@walk_preserves_shape unit)
             translation_config.TRANSLATION_RULES shout
             (py "actions.json") (py "es") _ [] [] tt _ tt).
    vm_compute. reflexivity.
  - apply (proj1 (proj2 (proj2 (@walk_preserves_shape unit)))
             shout (py "es") _ [] tt _ tt).
    vm_compute. reflexivity.
Defined.

(** A key listed in [TRANSLATABLE_FIELDS] is renamed by the walk of
    [translate_comprehensive.py], and two keys given one name leave one
    entry. *)
Lemma walk_preserves_shape_counterexample :
  let value := JObj [(py "name", JStr (py "Shoot"))] in
  translate_comprehensive.translate_value shout (py "es") value [] tt
  = (Ok (JObj [(py "NAME", JStr (py "SHOOT"))]), tt)
  /\ shape_of (JObj [(py "NAME", JStr (py "SHOOT"))]) <> shape_of value
  /\ translate_comprehensive.translate_value shout (py "es")
       (JObj [(py "NAME", JStr (py "Shoot")); (py "name", JStr (py "Fight"))])
       [] tt
     = (Ok (JObj [(py "NAME", JStr (py "FIGHT"))]), tt).
Proof.
  split; [vm_compute; reflexivity | split; [vm_compute; discriminate |]].
  vm_compute. reflexivity.
Qed.

(** ** Blank strings *)

(** In [translate_precise.py] a blank string leaf comes back as it is and
    the leaf transform is not called (the state does not move), as an
    object value and as an element of a string array. *)
Lemma precise_blank_leaf {S : Type}
    (rules_table : list (pystr * translation_config.rule))
    (translate_text : pystr -> pystr -> M S pystr)
    (file_name target_lang : pystr) (text field_name : pystr)
    (field_path : list pystr) (s : S) :
  policy.whitespace_only text ->
  translate_precise.translate_value rules_table translate_text file_name
    target_lang (JStr text) field_name field_path s = (Ok (JStr text), s)
  /\ translate_precise.translate_item translate_text target_lang (JStr text) s
     = (Ok (JStr text), s).
Proof.
  intros H. apply strip_blank in H. split.
  - cbn [translate_precise.translate_value]. rewrite H, andb_false_r. reflexivity.
  - unfold translate_precise.translate_item. rewrite H. reflexivity.
Qed.

(** The same for the string leaves and the guarded string arrays of
    [translate_fast.py]. *)
Lemma fast_blank_leaf {S : Type}
    (translate_func : pystr -> pystr -> M S pystr)
    (translate_other : json -> pystr -> M S json)
    (target_lang text field_name : pystr) (s : S) :
  policy.whitespace_only text ->
  translate_fast.translate_value_recursive translate_func translate_other
    target_lang (JStr text) field_name s = (Ok (JStr text), s)
  /\ translate_fast.translate_nonblank translate_func target_lang (JStr text) s
     = (Ok (JStr text), s).
Proof.
  intros H. apply strip_blank in H. split.
  - cbn [translate_fast.translate_value_recursive].
    rewrite H, andb_false_r, orb_false_r.
    destruct (str_in field_name translate_fast.TRANSLATABLE); [|reflexivity].
    destruct (endswith_any _ _); reflexivity.
  - unfold translate_fast.translate_nonblank. rewrite H. reflexivity.
Qed.

(** C5. In [translate_fast.py] the branch for a string array named
    [archetypes] computes [translate_func(item, target_lang)] for every
    item, blank ones too: the blank second item below is handed to the
    leaf transform and comes back changed (whatever the transform does
    with values that are not strings). *)
Theorem fast_archetypes_blank_transformed
    (translate_other : json -> pystr -> M (list pystr) json) :
  translate_fast.translate_value_recursive mark translate_other (py "de")
    (JArr [JStr (py "Recon"); JStr (py " ")]) (py "archetypes") []
  = (Ok (JArr [JStr (py "Recon!"); JStr (py " !")]), [py "Recon"; py " "]).
Proof. vm_compute. reflexivity. Qed.

(** ** check_unicode.py: a file without table characters *)

Lemma mapM_id {S A : Type} (f : A -> M S A) (l : list A) :
  (forall x, In x l -> forall s, f x s = (Ok x, s)) ->
  forall s, mapM f l s = (Ok l, s).
Proof.
  induction l as [|a l IH]; intros Hf s; [reflexivity|].
  cbn [mapM]. unfold bind at 1. rewrite (Hf a (or_introl eq_refl)).
  unfold bind at 1. rewrite (IH (fun x Hx => Hf x (or_intror Hx))). reflexivity.
Qed.

Section NothingToFix.
Import files check_unicode.

Lemma fix_with_clean (table : list (N * pystr)) (s : pystr) (n : nat) :
  (forall c, In c (List.map fst table) -> ~ In c s) ->
  fix_with table s n = (s, n).
Proof.
  unfold fix_with. induction table as [|[c r] table IH]; intros H; [reflexivity|].
  cbn [fold_left]. unfold fix_entry at 2.
  assert (Hc : has_char c s = false).
  { destruct (has_char c s) eqn:E; [|reflexivity].
    apply has_char_In in E. exfalso. exact (H c (or_introl eq_refl) E). }
  rewrite Hc. apply IH. intros c' Hc'. apply H. right. exact Hc'.
Qed.

Lemma fix_string_value_clean (value : json) :
  clean_values value -> forall n, fix_string_value value n = (Ok value, n).
Proof.
  induction value as [ | b | k | str | l IH | kvs IH] using json_ind';
    intros Hclean n; try reflexivity.
  - inversion Hclean as [ | | | ? Hs | | ]; subst.
    cbn [fix_string_value]. unfold fix_str. rewrite (fix_with_clean _ _ _ Hs).
    reflexivity.
  - inversion Hclean as [ | | | | ? Hl | ]; subst.
    cbn [fix_string_value]. unfold bind.
    rewrite mapM_id; [reflexivity|].
    intros x Hx s. rewrite List.Forall_forall in IH, Hl.
    exact (IH x Hx (Hl x Hx) s).
  - inversion Hclean as [ | | | | | ? Hl ]; subst.
    cbn [fix_string_value]. unfold bind at 1.
    rewrite mapM_id; [reflexivity|].
    intros [key val] Hx s. rewrite List.Forall_forall in IH, Hl.
    pose proof (IH (key, val) Hx (Hl (key, val) Hx) s) as E. cbn [snd] in E.
    unfold bind. rewrite E. reflexivity.
Qed.

Lemma backup_name_differs (filename : pystr) :
  filename ++ py ".backup" <> filename.
Proof.
  intros H. apply (f_equal (@List.length N)) in H.
  rewrite List.length_app in H. simpl in H. lia.
Qed.
End NothingToFix.

(** C10. In fix mode, on a file that parses as JSON and holds no
    character of the substitution table in any string value, [fix_file]
    writes the backup, finds a replacement count of zero, returns [False]
    and leaves the file as it was: the only change on disk is the backup,
    which holds the file's content. *)
Theorem fix_file_nothing_to_fix
    (sys : files.io) (fs : gmap pystr pystr) (filename content : pystr)
    (data : json) :
  fs !! filename = Some content ->
  files.json_loads sys content = Some data ->
  check_unicode.clean_values data ->
  files.writable sys (filename ++ py ".backup") = true ->
  let fs' := <[filename ++ py ".backup" := content]> fs in
  check_unicode.fix_file sys filename true fs = (Ok false, fs')
  /\ fs' !! filename = Some content
  /\ fs' !! (filename ++ py ".backup") = Some content.
Proof.
  intros Hfile Hjson Hclean Hw fs'. split; [|split].
  - unfold check_unicode.fix_file, catch, bind, files.read_file, files.parse,
      files.write_file.
    rewrite Hfile. cbn [ret]. rewrite Hjson. cbn [ret]. rewrite Hw.
    rewrite (fix_string_value_clean data Hclean 0%nat). reflexivity.
  - subst fs'. rewrite lookup_insert_ne; [exact Hfile|].
    apply backup_name_differs.
  - subst fs'. apply lookup_insert_eq.
Qed.

Lemma fix_file_nothing_to_fix_witness :
  check_unicode.fix_file files.toy (py "en/teams.json") true
    (<[py "en/teams.json" := py "{}"]> ∅)
  = (Ok false,
     <[py "en/teams.json" ++ py ".backup" := py "{}"]>
       (<[py "en/teams.json" := py "{}"]> ∅)).
Proof.
  apply (fix_file_nothing_to_fix files.toy
           (<[py "en/teams.json" := py "{}"]> ∅)
           (py "en/teams.json") (py "{}") (JObj [])).
  - apply lookup_insert_eq.
  - reflexivity.
  - constructor. constructor.
  - reflexivity.
Defined.

(** ** merge_actions.py *)

Section Merging.
Import files merge_actions.
Variable sys : io.

Lemma read_actions_contributes (fs : gmap pystr pystr) (file : pystr)
    (actions : list json) :
  contributes sys fs file actions ->
  read_actions sys file fs = (Ok (Some (JArr actions)), fs).
Proof.
  unfold contributes, read_actions, load_actions, file_exists, read_file, parse,
    catch, bind.
  intros [[Habsent ->] | (content & d & Hfile & Hjson & Hactions)].
  - rewrite Habsent. reflexivity.
  - rewrite Hfile. cbn [ret]. rewrite Hfile, Hjson. cbn [ret].
    destruct Hactions as [[-> ->] | ->]; reflexivity.
Qed.
End Merging.

(** C9 (as amended). Merging is concatenation: when each input file is
    absent, or is an object without an [actions] key, or is an object
    whose [actions] is an array, and the output can be opened for
    writing, the merged document is the object whose [actions] array is
    the universal actions followed by the mission actions, each element
    as it was and in its order; an absent file and a missing key
    contribute nothing.  When every key and string of it can be encoded
    in UTF-8, [merge_actions] writes its dump and returns [True]; when a
    lone surrogate occurs in it, [json.dump] raises after the output was
    opened, [merge_actions] returns [False] and the output is left cut
    off. *)
Theorem merge_is_concatenation
    (sys : files.io) (fs : gmap pystr pystr) (lang_dir : pystr)
    (universal_actions mission_actions : list json) :
  merge_actions.contributes sys fs
    (lang_dir ++ py "/universal_actions.json") universal_actions ->
  merge_actions.contributes sys fs
    (lang_dir ++ py "/mission_actions.json") mission_actions ->
  files.writable sys (lang_dir ++ py "/actions.json") = true ->
  let merged_data :=
    JObj [(py "actions", JArr (universal_actions ++ mission_actions))] in
  merge_actions.merge_actions sys lang_dir fs
  = if encodable merged_data
    then (Ok true,
          <[lang_dir ++ py "/actions.json" := files.json_dumps sys merged_data]> fs)
    else (Ok false,
          <[lang_dir ++ py "/actions.json" := files.cut_off sys merged_data]> fs).
Proof.
  intros Hu Hm Hw merged_data. unfold merge_actions.merge_actions.
  unfold bind at 1. rewrite (read_actions_contributes sys fs _ _ Hu).
  unfold bind at 1. rewrite (read_actions_contributes sys fs _ _ Hm).
  unfold bind, lift, catch, files.dump_file. cbn [merge_actions.add].
  rewrite Hw. fold merged_data. destruct (encodable merged_data); reflexivity.
Qed.

Lemma merge_is_concatenation_witness :
  let sys :=
    examples.two_docs
      (py "u") (JObj [(py "actions", JArr [JObj [(py "name", JStr (py "Dash"))]])])
      (py "m") (JObj [(py "actions", JArr [JObj [(py "name", JStr (py "Loot"))]])])
      examples.leaves in
  let fs : gmap pystr pystr :=
    <[py "en/universal_actions.json" := py "u"]>
      (<[py "en/mission_actions.json" := py "m"]> ∅) in
  merge_actions.merge_actions sys (py "en") fs
  = (Ok true,
     <[py "en/actions.json" :=
         files.json_dumps sys
           (JObj [(py "actions", JArr [JObj [(py "name", JStr (py "Dash"))];
                                       JObj [(py "name", JStr (py "Loot"))]])])]> fs).
Proof.
  intros sys fs.
  apply (merge_is_concatenation sys fs (py "en")
           [JObj [(py "name", JStr (py "Dash"))]]
           [JObj [(py "name", JStr (py "Loot"))]]).
  - right. exists (py "u"), [(py "actions", JArr [JObj [(py "name", JStr (py "Dash"))]])].
    split; [apply lookup_insert_eq|]. split; [reflexivity|]. right. reflexivity.
  - right. exists (py "m"), [(py "actions", JArr [JObj [(py "name", JStr (py "Loot"))]])].
    split.
    + unfold fs. rewrite lookup_insert_ne; [apply lookup_insert_eq|].
      vm_compute. discriminate.
    + split; [reflexivity|]. right. reflexivity.
  - reflexivity.
Defined.

(** A lone surrogate, which [json.load] reads from the escape [\ud800],
    in an action: the inputs are a valid pair, yet the merge returns
    [False] and [actions.json] does not hold the concatenation. *)
Lemma merge_is_concatenation_counterexample :
  let action := JObj [(py "name", JStr [0xD800])] in
  let sys :=
    examples.one_doc (py "u") (JObj [(py "actions", JArr [action])])
      examples.leaves in
  let fs : gmap pystr pystr := <[py "en/universal_actions.json" := py "u"]> ∅ in
  merge_actions.contributes sys fs (py "en/universal_actions.json") [action]
  /\ merge_actions.contributes sys fs (py "en/mission_actions.json") []
  /\ fst (merge_actions.merge_actions sys (py "en") fs) = Ok false
  /\ snd (merge_actions.merge_actions sys (py "en") fs) !! (py "en/actions.json")
     <> Some (files.json_dumps sys (JObj [(py "actions", JArr [action])])).
Proof.
  intros action sys fs. split; [|split; [|split]].
  - right. exists (py "u"), [(py "actions", JArr [action])].
    split; [apply lookup_insert_eq|]. split; [reflexivity|]. right. reflexivity.
  - left. split; [|reflexivity]. unfold fs.
    rewrite lookup_insert_ne; [apply lookup_empty | vm_compute; discriminate].
  - vm_compute. reflexivity.
  - vm_compute. discriminate.
Qed.

(** ** clean_team_fields.py *)

Lemma filter_filter {A : Type} (p q : A -> bool) (l : list A) :
  List.filter q (List.filter p l) = List.filter (fun x => p x && q x) l.
Proof.
  induction l as [|a l IH]; simpl; [reflexivity|].
  destruct (p a); simpl; [destruct (q a); rewrite IH; reflexivity | exact IH].
Qed.

Lemma filter_map_keys {V W : Type} (p : pystr -> bool) (g : pystr * V -> W)
    (l : list (pystr * V)) :
  List.filter (fun kv => p (fst kv)) (List.map (fun kv => (fst kv, g kv)) l)
  = List.map (fun kv => (fst kv, g kv)) (List.filter (fun kv => p (fst kv)) l).
Proof.
  induction l as [|a l IH]; simpl; [reflexivity|].
  destruct (p (fst a)); simpl; rewrite IH; reflexivity.
Qed.

Lemma filter_keeps_distinct {V : Type} (p : pystr * V -> bool)
    (l : list (pystr * V)) :
  List.NoDup (List.map fst l) -> List.NoDup (List.map fst (List.filter p l)).
Proof.
  induction l as [|a l IH]; simpl; intros H; [constructor|].
  inversion H as [|? ? Ha Hl]; subst.
  destruct (p a); simpl; [|exact (IH Hl)].
  constructor; [|exact (IH Hl)].
  intros Hin. apply Ha. apply in_map_iff in Hin.
  destruct Hin as (b & Hb & Hin). apply filter_In in Hin.
  apply in_map_iff. exists b. split; [exact Hb | apply Hin].
Qed.

Lemma dict_get_first (key : pystr) (x : json) (d : dict) :
  List.NoDup (List.map fst d) -> In (key, x) d -> dict_get key d = Some x.
Proof.
  induction d as [|[k v] d IH]; simpl; intros Hnd Hin; [contradiction|].
  inversion Hnd as [|? ? Hk Hd]; subst.
  destruct Hin as [[= -> ->] | Hin].
  - rewrite str_eqb_refl. reflexivity.
  - destruct (str_eqb k key) eqn:E; [|exact (IH Hd Hin)].
    apply str_eqb_eq in E. subst. exfalso. apply Hk.
    apply in_map_iff. exists (key, x). split; [reflexivity | exact Hin].
Qed.

Lemma dict_map_same (g : pystr -> json -> json) (d : dict) :
  (forall k x, In (k, x) d -> g k x = x) ->
  List.map (fun kv => (fst kv, g (fst kv) (snd kv))) d = d.
Proof.
  induction d as [|[k v] d IH]; simpl; intros H; [reflexivity|].
  rewrite (H k v (or_introl eq_refl)).
  rewrite IH; [reflexivity|]. intros k' x' Hin. apply H. right. exact Hin.
Qed.

(** Assigning to one key of a dictionary is a map over its items when
    the map changes nothing under the other keys. *)
Lemma dict_set_map (g : pystr -> json -> json) (key : pystr) (x0 : json)
    (d : dict) :
  List.NoDup (List.map fst d) ->
  dict_get key d = Some x0 ->
  (forall k x, In (k, x) d -> k <> key -> g k x = x) ->
  dict_set key (g key x0) d
  = List.map (fun kv => (fst kv, g (fst kv) (snd kv))) d.
Proof.
  induction d as [|[k v] d IH]; simpl; intros Hnd Hget Hg; [discriminate|].
  inversion Hnd as [|? ? Hk Hd]; subst.
  destruct (str_eqb k key) eqn:E.
  - apply str_eqb_eq in E. subst. injection Hget as ->. f_equal.
    symmetry. apply dict_map_same. intros k' x' Hin. apply Hg; [right; exact Hin|].
    intros ->. apply Hk. apply in_map_iff. exists (key, x').
    split; [reflexivity | exact Hin].
  - rewrite (Hg k v (or_introl eq_refl)) by (apply str_eqb_neq; exact E).
    f_equal. apply IH; [exact Hd | exact Hget |].
    intros k' x' Hin. apply Hg. right. exact Hin.
Qed.

Lemma res_mapM_eq {A B : Type} (f : A -> res B) (g : A -> B) (l : list A)
    (l' : list B) :
  (forall x y, In x l -> f x = Ok y -> y = g x) ->
  res_mapM f l = Ok l' -> l' = List.map g l.
Proof.
  revert l'. induction l as [|a l IH]; simpl; intros l' Hf H.
  - injection H as <-. reflexivity.
  - destruct (f a) as [b|] eqn:Ea; [|discriminate]. simpl in H.
    destruct (res_mapM f l) as [bs|] eqn:El; [|discriminate]. simpl in H.
    injection H as <-. f_equal.
    + apply (Hf a b (or_introl eq_refl) Ea).
    + apply IH; [|reflexivity]. intros x y Hx. apply Hf. right. exact Hx.
Qed.

Section Cleaning.
Import clean_team_fields.

(** The [pop] loop removes exactly the items named in the list. *)
Lemma pop_all_filter (fields : list pystr) (d : dict) :
  pop_all fields d = List.filter (fun kv => negb (str_in (fst kv) fields)) d.
Proof.
  unfold pop_all. revert d. induction fields as [|f fields IH]; intros d; simpl.
  - symmetry. apply forallb_filter_id. apply forallb_forall. reflexivity.
  - rewrite IH. unfold dict_pop. rewrite filter_filter.
    apply filter_ext. intros kv. rewrite negb_orb. reflexivity.
Qed.

(** The source's own order: pop at this level, then visit what is left. *)
Lemma remove_fields_obj (kvs : dict) (fields : list pystr) :
  remove_fields_from_dict (JObj kvs) fields
  = JObj (List.map (fun kv => (fst kv, remove_fields_from_dict (snd kv) fields))
                   (pop_all fields kvs)).
Proof.
  cbn [remove_fields_from_dict]. rewrite !pop_all_filter.
  rewrite (filter_map_keys (fun k => negb (str_in k fields))
             (fun kv => remove_fields_from_dict (snd kv) fields)).
  reflexivity.
Qed.

Lemma remove_fields_prune (fields : list pystr) (v : json) :
  forall here, remove_fields_from_dict v fields = prune (everywhere fields) here v.
Proof.
  induction v as [ | b | n | s | l IH | kvs IH] using json_ind'; intros here;
    try reflexivity.
  - cbn [remove_fields_from_dict prune]. f_equal. apply map_ext_in.
    intros x Hx. rewrite List.Forall_forall in IH. apply IH. exact Hx.
  - cbn [remove_fields_from_dict prune]. rewrite pop_all_filter. f_equal.
    unfold everywhere. f_equal. apply map_ext_in.
    intros kv Hkv. rewrite List.Forall_forall in IH. f_equal. apply IH. exact Hkv.
Qed.

(** Where nothing is selected, [prune] changes nothing. *)
Lemma prune_nothing (doomed : list step -> pystr -> bool) (v : json) :
  forall here,
    (forall ext k, doomed (here ++ ext) k = false) ->
    prune doomed here v = v.
Proof.
  induction v as [ | b | n | s | l IH | kvs IH] using json_ind'; intros here Hq;
    try reflexivity.
  - cbn [prune]. f_equal. rewrite <- (List.map_id l) at 2. apply map_ext_in.
    intros x Hx. rewrite List.Forall_forall in IH. apply (IH x Hx).
    intros ext k. rewrite <- app_assoc. apply Hq.
  - cbn [prune]. f_equal.
    rewrite (dict_map_same (fun k x => prune doomed (here ++ [Key k]) x)).
    + apply forallb_filter_id. apply forallb_forall. intros kv _.
      specialize (Hq [] (fst kv)). rewrite app_nil_r in Hq. rewrite Hq. reflexivity.
    + intros k x Hin. rewrite List.Forall_forall in IH. apply (IH (k, x) Hin).
      intros ext k'. rewrite <- app_assoc. apply Hq.
Qed.
End Cleaning.

Section TeamPlaces.
Import clean_team_fields.

Local Abbreviation in_opTypes := [Key (py "opTypes"); Elem].
Local Abbreviation in_weapons :=
  [Key (py "opTypes"); Elem; Key (py "weapons"); Elem].

Lemma step_eqb_eq (a b : step) : step_eqb a b = true <-> a = b.
Proof.
  destruct a as [x|], b as [y|]; simpl; split; try congruence; try reflexivity.
  - intros H. apply str_eqb_eq in H. congruence.
  - intros [= ->]. apply str_eqb_refl.
Qed.

Lemma place_eqb_eq (p q : list step) : place_eqb p q = true <-> p = q.
Proof.
  revert q. induction p as [|a p IH]; intros [|b q]; simpl; split;
    try congruence; try reflexivity.
  - rewrite andb_true_iff, step_eqb_eq, IH. intros [-> ->]. reflexivity.
  - intros [= -> ->]. rewrite andb_true_iff, step_eqb_eq, IH. split; reflexivity.
Qed.

Lemma team_places_true (here : list step) (k : pystr) :
  team_places here k = true ->
  here = [] \/ here = in_opTypes \/ here = in_weapons.
Proof.
  unfold team_places. rewrite !orb_true_iff, !andb_true_iff, !place_eqb_eq.
  tauto.
Qed.

Lemma team_places_at_root (k : pystr) :
  team_places [] k = str_in k root_fields_to_remove.
Proof. unfold team_places. cbn [place_eqb andb]. rewrite !orb_false_r. reflexivity. Qed.

Lemma team_places_in_opTypes (k : pystr) :
  team_places in_opTypes k = str_in k opType_fields_to_remove.
Proof.
  unfold team_places.
  replace (place_eqb in_opTypes []) with false by reflexivity.
  replace (place_eqb in_opTypes in_opTypes) with true by reflexivity.
  replace (place_eqb in_opTypes in_weapons) with false by reflexivity.
  cbn [andb orb]. rewrite orb_false_r. reflexivity.
Qed.

Lemma team_places_in_weapons (k : pystr) :
  team_places in_weapons k = str_in k [py "isDefault"].
Proof.
  unfold team_places.
  replace (place_eqb in_weapons []) with false by reflexivity.
  replace (place_eqb in_weapons in_opTypes) with false by reflexivity.
  replace (place_eqb in_weapons in_weapons) with true by reflexivity.
  cbn [andb orb str_in existsb]. rewrite orb_false_r. reflexivity.
Qed.

(** A place is quiet when no extension of it is one of the three. *)
Lemma quiet_unless (here : list step) :
  (forall ext, here ++ ext <> []) ->
  (forall ext, here ++ ext <> in_opTypes) ->
  (forall ext, here ++ ext <> in_weapons) ->
  quiet here.
Proof.
  intros H0 H1 H2 ext k. destruct (team_places (here ++ ext) k) eqn:E;
    [|reflexivity].
  apply team_places_true in E. destruct E as [E | [E | E]].
  - exfalso. exact (H0 ext E).
  - exfalso. exact (H1 ext E).
  - exfalso. exact (H2 ext E).
Qed.

Lemma quiet_below_weapon (k : pystr) : quiet (in_weapons ++ [Key k]).
Proof.
  apply quiet_unless; intros ext H; simpl in H; discriminate.
Qed.

Lemma quiet_beside_weapons (k : pystr) :
  k <> py "weapons" -> quiet (in_opTypes ++ [Key k]).
Proof.
  intros Hk. apply quiet_unless; intros ext H; simpl in H; try discriminate.
  injection H as H _. apply Hk. exact H.
Qed.

Lemma quiet_under_weapons (k : pystr) :
  quiet (in_opTypes ++ [Key (py "weapons"); Key k]).
Proof.
  apply quiet_unless; intros ext H; simpl in H; discriminate.
Qed.

Lemma quiet_beside_opTypes (k : pystr) : k <> py "opTypes" -> quiet ([] ++ [Key k]).
Proof.
  intros Hk. apply quiet_unless; intros ext H; simpl in H; try discriminate.
  - injection H as H _. apply Hk. exact H.
  - injection H as H _. apply Hk. exact H.
Qed.

Lemma quiet_under_opTypes (k : pystr) : quiet ([] ++ [Key (py "opTypes"); Key k]).
Proof.
  apply quiet_unless; intros ext H; simpl in H; discriminate.
Qed.

(** One level of [clean_team_file]: pop the level's fields, then clean
    the elements of the array under [key], if there is one. *)
Lemma clean_level (here : list step) (fields : list pystr) (key : pystr)
    (elem : json -> res json) (d : dict) (r : json) :
  (forall k, team_places here k = str_in k fields) ->
  (forall k, k <> key -> quiet (here ++ [Key k])) ->
  (forall k, team_places (here ++ [Key key]) k = false) ->
  (forall k, quiet (here ++ [Key key; Key k])) ->
  (forall xs x y,
     dict_get key (pop_all fields d) = Some (JArr xs) -> In x xs ->
     elem x = Ok y -> y = prune team_places (here ++ [Key key; Elem]) x) ->
  List.NoDup (List.map fst d) ->
  match dict_get key (pop_all fields d) with
  | Some (JArr xs) =>
      res_bind (res_mapM elem xs) (fun xs' =>
      Ok (JObj (dict_set key (JArr xs') (pop_all fields d))))
  | _ => Ok (JObj (pop_all fields d))
  end = Ok r ->
  r = prune team_places here (JObj d).
Proof.
  intros Hhere Hother Hkey Hsub Helem Hnd H.
  set (g := fun k x => prune team_places (here ++ [Key k]) x).
  assert (Hprune : prune team_places here (JObj d)
                   = JObj (List.map (fun kv => (fst kv, g (fst kv) (snd kv)))
                                    (pop_all fields d))).
  { cbn [prune]. rewrite pop_all_filter. f_equal.
    rewrite <- (filter_map_keys (fun k => negb (str_in k fields))
                  (fun kv => g (fst kv) (snd kv))).
    apply filter_ext. intros kv. rewrite Hhere. reflexivity. }
  rewrite Hprune. clear Hprune.
  assert (Hnd1 : List.NoDup (List.map fst (pop_all fields d))).
  { rewrite pop_all_filter. apply filter_keeps_distinct. exact Hnd. }
  assert (Hquiet : forall k x, k <> key -> g k x = x).
  { intros k x Hk. apply prune_nothing. apply (Hother k Hk). }
  assert (Hscalar : forall x,
            match x with JArr _ => False | _ => True end -> g key x = x).
  { intros x Hx. unfold g. destruct x as [ | b | n | s | l | kvs];
      try reflexivity; [contradiction|].
    cbn [prune]. f_equal.
    rewrite (dict_map_same
               (fun k x => prune team_places ((here ++ [Key key]) ++ [Key k]) x)).
    - apply forallb_filter_id. apply forallb_forall. intros kv _.
      rewrite Hkey. reflexivity.
    - intros k x _. apply prune_nothing. rewrite <- app_assoc. apply Hsub. }
  destruct (dict_get key (pop_all fields d)) as [x0|] eqn:Hget.
  - destruct x0 as [ | b | n | s | xs | kvs];
      try (injection H as <-; f_equal; symmetry; apply dict_map_same;
           intros k x Hin; destruct (str_eqb k key) eqn:E;
           [ apply str_eqb_eq in E; subst k;
             rewrite (dict_get_first _ _ _ Hnd1 Hin) in Hget;
             injection Hget as ->; apply Hscalar; exact I
           | apply Hquiet; apply str_eqb_neq; exact E ]).
    destruct (res_mapM elem xs) as [xs'|] eqn:Hxs; [|discriminate].
    simpl in H. injection H as <-. f_equal.
    assert (Hxs' : JArr xs' = g key (JArr xs)).
    { unfold g. cbn [prune]. f_equal. rewrite <- app_assoc.
      apply (res_mapM_eq elem _ xs xs'); [|exact Hxs].
      intros x y Hx Hy. exact (Helem xs x y eq_refl Hx Hy). }
    rewrite Hxs'. apply dict_set_map; [exact Hnd1 | exact Hget |].
    intros k x _ Hk. apply Hquiet. exact Hk.
  - injection H as <-. f_equal. symmetry. apply dict_map_same.
    intros k x Hin. destruct (str_eqb k key) eqn:E.
    + apply str_eqb_eq in E. subst k.
      rewrite (dict_get_first _ _ _ Hnd1 Hin) in Hget. discriminate.
    + apply Hquiet. apply str_eqb_neq. exact E.
Qed.
End TeamPlaces.

Section CleanTeam.
Import clean_team_fields.

Lemma dict_get_in (key : pystr) (x : json) (d : dict) :
  dict_get key d = Some x -> In (key, x) d.
Proof.
  induction d as [|[k v] d IH]; simpl; [discriminate|].
  destruct (str_eqb k key) eqn:E.
  - apply str_eqb_eq in E. intros [= ->]. left. congruence.
  - intros H. right. exact (IH H).
Qed.

Lemma clean_weapon_prune (weapon r : json) :
  clean_weapon weapon = Ok r ->
  r = prune team_places
        [Key (py "opTypes"); Elem; Key (py "weapons"); Elem] weapon.
Proof.
  destruct weapon as [ | b | n | s | l | d]; try discriminate.
  simpl. intros [= <-]. f_equal. unfold dict_pop.
  rewrite (dict_map_same
             (fun k x => prune team_places
                           ([Key (py "opTypes"); Elem; Key (py "weapons"); Elem]
                            ++ [Key k]) x)).
  - apply filter_ext. intros kv. rewrite team_places_in_weapons.
    cbn [str_in existsb]. rewrite orb_false_r. reflexivity.
  - intros k x _. apply prune_nothing. apply quiet_below_weapon.
Qed.

Lemma clean_opType_prune (opType r : json) :
  distinct_keys opType ->
  clean_opType opType = Ok r ->
  r = prune team_places [Key (py "opTypes"); Elem] opType.
Proof.
  destruct opType as [ | b | n | s | l | d]; try discriminate.
  intros Hdk H. inversion Hdk as [ | | | | | ? Hnd _ ]; subst.
  unfold clean_opType in H.
  apply (clean_level [Key (py "opTypes"); Elem] opType_fields_to_remove
           (py "weapons") clean_weapon d r); try assumption.
  - apply team_places_in_opTypes.
  - intros k Hk. apply quiet_beside_weapons. exact Hk.
  - intros k. reflexivity.
  - intros k. apply quiet_under_weapons.
  - intros xs x y _ _ Hy. apply clean_weapon_prune. exact Hy.
Qed.

Lemma clean_team_data_prune (data r : json) :
  distinct_keys data ->
  clean_team_data data = Ok r ->
  r = prune team_places [] data.
Proof.
  destruct data as [ | b | n | s | l | d]; try discriminate.
  intros Hdk H. inversion Hdk as [ | | | | | ? Hnd Hsub ]; subst.
  unfold clean_team_data in H.
  apply (clean_level [] root_fields_to_remove (py "opTypes") clean_opType d r);
    try assumption.
  - apply team_places_at_root.
  - intros k Hk. apply quiet_beside_opTypes. exact Hk.
  - intros k. reflexivity.
  - intros k. apply quiet_under_opTypes.
  - intros xs x y Hget Hx Hy. apply clean_opType_prune; [|exact Hy].
    apply dict_get_in in Hget. rewrite pop_all_filter in Hget.
    apply filter_In in Hget. destruct Hget as [Hget _].
    rewrite List.Forall_forall in Hsub. specialize (Hsub _ Hget). simpl in Hsub.
    inversion Hsub as [ | | | | ? Hxs | ]; subst.
    rewrite List.Forall_forall in Hxs. exact (Hxs x Hx).
Qed.

Lemma dict_get_filter (key : pystr) (p : pystr * json -> bool) (d : dict) :
  (forall x, p (key, x) = true) ->
  dict_get key (List.filter p d) = dict_get key d.
Proof.
  intros Hp. induction d as [|[k v] d IH]; [reflexivity|].
  cbn [List.filter dict_get]. destruct (str_eqb k key) eqn:E.
  - apply str_eqb_eq in E. subst k. rewrite Hp. cbn [dict_get].
    rewrite str_eqb_refl. reflexivity.
  - destruct (p (k, v)); [|exact IH]. cbn [dict_get]. rewrite E. exact IH.
Qed.

Lemma dict_get_pop_all (key : pystr) (fields : list pystr) (d : dict) :
  str_in key fields = false ->
  dict_get key (pop_all fields d) = dict_get key d.
Proof.
  intros H. rewrite pop_all_filter. apply dict_get_filter.
  intros x. cbn [fst]. rewrite H. reflexivity.
Qed.

Lemma res_mapM_shaped {A : Type} (f : A -> res A) (g : A -> bool) (l : list A) :
  (forall x, g x = true -> exists y, f x = Ok y) ->
  (forall x, g x = false -> f x = Exn) ->
  if forallb g l then exists ys, res_mapM f l = Ok ys else res_mapM f l = Exn.
Proof.
  intros Hok Hexn. induction l as [|a l IH]; cbn [forallb res_mapM].
  - eexists. reflexivity.
  - destruct (g a) eqn:Ea; cbn [andb].
    + destruct (Hok a Ea) as (y & ->). cbn [res_bind].
      destruct (forallb g l).
      * destruct IH as (ys & ->). eexists. reflexivity.
      * rewrite IH. reflexivity.
    + rewrite (Hexn a Ea). reflexivity.
Qed.

Lemma clean_weapon_shaped (weapon : json) :
  if is_obj weapon then exists r, clean_weapon weapon = Ok r
  else clean_weapon weapon = Exn.
Proof. destruct weapon; cbn; try reflexivity. eexists. reflexivity. Qed.

Lemma clean_opType_shaped (opType : json) :
  if opType_shaped opType then exists r, clean_opType opType = Ok r
  else clean_opType opType = Exn.
Proof.
  destruct opType as [ | b | n | s | l | d]; cbn [opType_shaped]; try reflexivity.
  unfold clean_opType.
  rewrite (dict_get_pop_all (py "weapons") opType_fields_to_remove d eq_refl).
  destruct (dict_get (py "weapons") d) as [[ | b | n | s | weapons | d']|];
    try (eexists; reflexivity).
  pose proof (res_mapM_shaped clean_weapon is_obj weapons) as H.
  assert (Hok : forall x, is_obj x = true -> exists y, clean_weapon x = Ok y).
  { intros x Hx. pose proof (clean_weapon_shaped x) as Hc. rewrite Hx in Hc.
    exact Hc. }
  assert (Hexn : forall x, is_obj x = false -> clean_weapon x = Exn).
  { intros x Hx. pose proof (clean_weapon_shaped x) as Hc. rewrite Hx in Hc.
    exact Hc. }
  specialize (H Hok Hexn). destruct (forallb is_obj weapons).
  - destruct H as (ys & ->). eexists. reflexivity.
  - rewrite H. reflexivity.
Qed.

Lemma clean_team_data_shaped (data : json) :
  if team_shaped data then exists r, clean_team_data data = Ok r
  else clean_team_data data = Exn.
Proof.
  destruct data as [ | b | n | s | l | d]; cbn [team_shaped]; try reflexivity.
  unfold clean_team_data.
  rewrite (dict_get_pop_all (py "opTypes") root_fields_to_remove d eq_refl).
  destruct (dict_get (py "opTypes") d) as [[ | b | n | s | opTypes | d']|];
    try (eexists; reflexivity).
  pose proof (res_mapM_shaped clean_opType opType_shaped opTypes) as H.
  assert (Hok : forall x, opType_shaped x = true -> exists y, clean_opType x = Ok y).
  { intros x Hx. pose proof (clean_opType_shaped x) as Hc. rewrite Hx in Hc.
    exact Hc. }
  assert (Hexn : forall x, opType_shaped x = false -> clean_opType x = Exn).
  { intros x Hx. pose proof (clean_opType_shaped x) as Hc. rewrite Hx in Hc.
    exact Hc. }
  specialize (H Hok Hexn). destruct (forallb opType_shaped opTypes).
  - destruct H as (ys & ->). eexists. reflexivity.
  - rewrite H. reflexivity.
Qed.

Lemma clean_team_data_total (data : json) :
  distinct_keys data ->
  clean_team_data data
  = if team_shaped data then Ok (prune team_places [] data) else Exn.
Proof.
  intros Hdk. pose proof (clean_team_data_shaped data) as H.
  destruct (team_shaped data); [|exact H].
  destruct H as (r & Hr). rewrite Hr. f_equal.
  apply clean_team_data_prune; assumption.
Qed.

Lemma clean_team_file_total (sys : files.io) (fs : gmap pystr pystr)
    (file_path content : pystr) (data : json) :
  fs !! file_path = Some content ->
  files.json_loads sys content = Some data ->
  distinct_keys data ->
  clean_team_file sys file_path fs
  = if team_shaped data && files.writable sys file_path
    then if encodable (prune team_places [] data)
         then (Ok true,
               <[file_path := files.json_dumps sys (prune team_places [] data)]> fs)
         else (Ok false,
               <[file_path := files.cut_off sys (prune team_places [] data)]> fs)
    else (Ok false, fs).
Proof.
  intros Hfile Hjson Hdk.
  unfold clean_team_file, catch, bind, files.read_file, files.parse, lift,
    files.dump_file.
  rewrite Hfile. cbn [ret]. rewrite Hjson. cbn [ret].
  rewrite (clean_team_data_total data Hdk).
  destruct (team_shaped data); [|reflexivity]. cbn [andb].
  destruct (files.writable sys file_path); [|reflexivity].
  destruct (encodable (prune team_places [] data)); reflexivity.
Qed.
End CleanTeam.

(** C8 (as amended). [clean_team_file] removes [isPublished],
    [isHomebrew] and [userId] from the root object only, the seven opType
    fields from the objects that are elements of the root's [opTypes]
    array only, and [isDefault] from the objects that are elements of
    such an element's [weapons] array only; every other key and every
    value, the same names at any other place included, is left as it
    was.  This is what the cleaning gives on every document it can
    clean: the root an object, the elements of its [opTypes] array
    objects, the elements of their [weapons] arrays objects.  On any
    other document a [pop] raises, the tool returns [False] and nothing
    is removed or written.  On a file, the cleaned document is what is
    dumped (cut off at a lone surrogate); a file that cannot be opened
    for writing stays as it was.  The recursive helper
    [remove_fields_from_dict] removes the names it is given at every
    depth, and nothing else. *)
Theorem clean_removes_configured_places :
  (forall data : json,
     distinct_keys data ->
     clean_team_fields.clean_team_data data
     = if clean_team_fields.team_shaped data
       then Ok (clean_team_fields.prune clean_team_fields.team_places [] data)
       else Exn)
  /\ (forall (sys : files.io) (fs : gmap pystr pystr)
             (file_path content : pystr) (data : json),
        fs !! file_path = Some content ->
        files.json_loads sys content = Some data ->
        distinct_keys data ->
        let cleaned :=
          clean_team_fields.prune clean_team_fields.team_places [] data in
        clean_team_fields.clean_team_file sys file_path fs
        = if clean_team_fields.team_shaped data && files.writable sys file_path
          then if encodable cleaned
               then (Ok true, <[file_path := files.json_dumps sys cleaned]> fs)
               else (Ok false, <[file_path := files.cut_off sys cleaned]> fs)
          else (Ok false, fs))
  /\ (forall (obj : json) (fields_to_remove : list pystr),
        clean_team_fields.remove_fields_from_dict obj fields_to_remove
        = clean_team_fields.prune
            (clean_team_fields.everywhere fields_to_remove) [] obj).
Proof.
  split; [|split].
  - apply clean_team_data_total.
  - intros sys fs file_path content data Hfile Hjson Hdk cleaned.
    apply (clean_team_file_total sys fs file_path content data); assumption.
  - intros obj fields. apply remove_fields_prune.
Qed.

Lemma clean_removes_configured_places_witness :
  clean_team_fields.clean_team_data
    (JObj [(py "isPublished", JBool true);
           (py "killteamName", JStr (py "Angels"));
           (py "opTypes",
            JArr [JObj [(py "opId", JStr (py "a1"));
                        (py "opTypeName", JStr (py "Trooper"));
                        (py "weapons",
                         JArr [JObj [(py "isDefault", JBool true);
                                     (py "wepName", JStr (py "Bolter"))]])]])])
  = Ok (JObj [(py "killteamName", JStr (py "Angels"));
              (py "opTypes",
               JArr [JObj [(py "opTypeName", JStr (py "Trooper"));
                           (py "weapons",
                            JArr [JObj [(py "wepName", JStr (py "Bolter"))]])]])]).
Proof.
  refine (proj1 clean_removes_configured_places
            (JObj [(py "isPublished", JBool true);
                   (py "killteamName", JStr (py "Angels"));
                   (py "opTypes",
                    JArr [JObj [(py "opId", JStr (py "a1"));
                                (py "opTypeName", JStr (py "Trooper"));
                                (py "weapons",
                                 JArr [JObj [(py "isDefault", JBool true);
                                             (py "wepName", JStr (py "Bolter"))]])]])])
            _).
  repeat (constructor; try (intros H; vm_compute in H; intuition discriminate)).
Defined.

(** A configured name below the place it is configured for stays; and
    a document with a string among its [opTypes] makes the cleaning
    raise, so that nothing at all is removed. *)
Lemma clean_removes_configured_places_counterexample :
  let data :=
    JObj [(py "killteamName", JStr (py "Angels"));
          (py "opTypes", JArr [JObj [(py "userId", JStr (py "u1"));
                                     (py "opTypeName", JStr (py "Trooper"))]])] in
  clean_team_fields.clean_team_data data = Ok data
  /\ clean_team_fields.prune
       (clean_team_fields.everywhere clean_team_fields.configured_fields) [] data
     <> data
  /\ clean_team_fields.clean_team_data
       (JObj [(py "userId", JStr (py "u"));
              (py "opTypes", JArr [JObj [(py "opId", JNum (PInt 1))];
                                   JStr (py "x")])])
     = Exn.
Proof.
  split; [vm_compute; reflexivity|].
  split; [vm_compute; discriminate | vm_compute; reflexivity].
Qed.

(** ** The walks return *)

Lemma bind_ok {S A B : Type} (m : M S A) (k : A -> M S B) (s s1 : S) (a : A) :
  m s = (Ok a, s1) -> bind m k s = k a s1.
Proof. unfold bind. intros ->. reflexivity. Qed.

Lemma mapM_returns {S A B : Type} (f : A -> M S B) (l : list A) :
  (forall x, In x l -> forall s, exists r s', f x s = (Ok r, s')) ->
  forall s, exists rs s', mapM f l s = (Ok rs, s').
Proof.
  induction l as [|a l IH]; intros Hf s.
  - exists [], s. reflexivity.
  - destruct (Hf a (or_introl eq_refl) s) as (b & s1 & Hb).
    destruct (IH (fun x Hx => Hf x (or_intror Hx)) s1) as (bs & s2 & Hbs).
    exists (b :: bs), s2. cbn [mapM]. unfold bind at 1. rewrite Hb.
    unfold bind at 1. rewrite Hbs. reflexivity.
Qed.

(** On a document with uniform arrays the walk of [translate_precise.py]
    returns, whatever the rules, when the leaf transform does. *)
Lemma precise_walk_returns {S : Type}
    (rules_table : list (pystr * translation_config.rule))
    (translate_text : pystr -> pystr -> M S pystr)
    (file_name target_lang : pystr) (value : json) :
  never_raises translate_text ->
  uniform_arrays value ->
  forall field_name field_path s,
  exists r s',
    translate_precise.translate_value rules_table translate_text file_name
      target_lang value field_name field_path s = (Ok r, s').
Proof.
  intros Htotal.
  induction value as [ | b | n | str | l IH | kvs IH] using json_ind';
    intros Hua field_name field_path s; cbn [translate_precise.translate_value];
    try (eexists _, _; reflexivity).
  - destruct (translate_precise.in_scope _ _ _ _ && str_truthy (strip str));
      [|eexists _, _; reflexivity].
    unfold catch, bind.
    destruct (Htotal str target_lang s) as (t & s1 & ->).
    eexists _, _; reflexivity.
  - inversion Hua as [ | | | | ? Hl Hstr | ]; subst.
    destruct l as [|first l]; [eexists _, _; reflexivity|].
    assert (Hrec : forall path s, exists r s',
      (let* items' := mapM (fun item =>
                              translate_precise.translate_value rules_table
                                translate_text file_name target_lang item [] path)
                           (first :: l) in
       ret (JArr items')) s = (Ok r, s')).
    { intros path s0.
      destruct (mapM_returns
                  (fun item => translate_precise.translate_value rules_table
                                 translate_text file_name target_lang item [] path)
                  (first :: l)) with (s := s0) as (rs & s1 & Hrs).
      - intros x Hx s2. rewrite List.Forall_forall in IH, Hl.
        apply (IH x Hx (Hl x Hx)).
      - rewrite (bind_ok _ _ _ _ _ Hrs). eexists _, _; reflexivity. }
    destruct first as [ | b | n | str | l' | kvs']; try apply Hrec.
    destruct (translate_precise.in_scope _ _ _ _); [|eexists _, _; reflexivity].
    destruct (mapM_returns
                (translate_precise.translate_item translate_text target_lang)
                (JStr str :: l)) with (s := s) as (rs & s1 & Hrs).
    + intros x Hx s2. rewrite List.Forall_forall in Hstr.
      specialize (Hstr x Hx). destruct x as [ | | | t | | ]; try contradiction.
      unfold translate_precise.translate_item.
      destruct (str_truthy (strip t)); [|eexists _, _; reflexivity].
      unfold bind. destruct (Htotal t target_lang s2) as (t' & s3 & ->).
      eexists _, _; reflexivity.
    + rewrite (bind_ok _ _ _ _ _ Hrs). eexists _, _; reflexivity.
  - inversion Hua as [ | | | | | ? Hkvs ]; subst.
    match goal with |- context [mapM ?f kvs] =>
      destruct (mapM_returns f kvs) with (s := s) as (rs & s1 & Hrs) end.
    + intros [k v] Hx s2. rewrite List.Forall_forall in IH, Hkvs.
      destruct (IH (k, v) Hx (Hkvs (k, v) Hx) k
                  (translate_precise.extend field_path field_name) s2)
        as (v' & s3 & Hv).
      cbn [snd] in Hv. rewrite (bind_ok _ _ _ _ _ Hv). eexists _, _; reflexivity.
    + rewrite (bind_ok _ _ _ _ _ Hrs). eexists _, _; reflexivity.
Qed.

Lemma foldM_returns {S A B : Type} (f : B -> A -> M S B) (l : list A) :
  (forall x, In x l -> forall acc s, exists r s', f acc x s = (Ok r, s')) ->
  forall acc s, exists r s', foldM f l acc s = (Ok r, s').
Proof.
  induction l as [|a l IH]; intros Hf acc s.
  - exists acc, s. reflexivity.
  - destruct (Hf a (or_introl eq_refl) acc s) as (acc' & s1 & Hacc).
    destruct (IH (fun x Hx => Hf x (or_intror Hx)) acc' s1) as (r & s2 & Hr).
    exists r, s2. cbn [foldM]. rewrite (bind_ok _ _ _ _ _ Hacc). exact Hr.
Qed.

Lemma comprehensive_str_returns {S : Type}
    (translate_func : pystr -> pystr -> M S pystr)
    (target_lang text field_name : pystr) (s : S) :
  exists t s',
    translate_comprehensive.translate_str translate_func target_lang
      text field_name s = (Ok t, s').
Proof.
  unfold translate_comprehensive.translate_str.
  destruct (translate_comprehensive.should_translate_field _ _ && _);
    [|eexists _, _; reflexivity].
  unfold catch. destruct (translate_func text target_lang s) as [[t|] s1];
    eexists _, _; reflexivity.
Qed.

(** The walk of [translate_comprehensive.py] returns on every document
    when the leaf transform does. *)
Lemma comprehensive_walk_returns {S : Type}
    (translate_func : pystr -> pystr -> M S pystr)
    (target_lang : pystr) (value : json) :
  never_raises translate_func ->
  forall field_name s,
  exists r s',
    translate_comprehensive.translate_value translate_func target_lang
      value field_name s = (Ok r, s').
Proof.
  intros Htotal.
  induction value as [ | b | n | str | l IH | kvs IH] using json_ind';
    intros field_name s; cbn [translate_comprehensive.translate_value];
    try (eexists _, _; reflexivity).
  - destruct (comprehensive_str_returns translate_func target_lang str field_name s)
      as (t & s1 & Ht).
    rewrite (bind_ok _ _ _ _ _ Ht). eexists _, _; reflexivity.
  - destruct l as [|first l]; [eexists _, _; reflexivity|].
    assert (Hrec : forall s, exists r s',
      (let* items' := mapM (fun item =>
                              translate_comprehensive.translate_value
                                translate_func target_lang item field_name)
                           (first :: l) in
       ret (JArr items')) s = (Ok r, s')).
    { intros s0.
      destruct (mapM_returns
                  (fun item => translate_comprehensive.translate_value
                                 translate_func target_lang item field_name)
                  (first :: l)) with (s := s0) as (rs & s1 & Hrs).
      - intros x Hx s2. rewrite List.Forall_forall in IH. apply (IH x Hx).
      - rewrite (bind_ok _ _ _ _ _ Hrs). eexists _, _; reflexivity. }
    destruct first as [ | b | n | str | l' | kvs']; try apply Hrec.
    destruct (str_in field_name _ || _); [|eexists _, _; reflexivity].
    destruct (mapM_returns
                (translate_comprehensive.translate_item translate_func target_lang)
                (JStr str :: l)) with (s := s) as (rs & s1 & Hrs).
    + intros x _ s2. unfold translate_comprehensive.translate_item.
      destruct x as [ | | | t | | ]; try (eexists _, _; reflexivity).
      destruct (str_truthy (strip t)); [|eexists _, _; reflexivity].
      destruct (Htotal t target_lang s2) as (t' & s3 & Ht).
      rewrite (bind_ok _ _ _ _ _ Ht). eexists _, _; reflexivity.
    + rewrite (bind_ok _ _ _ _ _ Hrs). eexists _, _; reflexivity.
  - match goal with |- context [foldM ?f kvs []] =>
      destruct (foldM_returns f kvs) with (acc := @nil (pystr * json)) (s := s)
        as (r & s1 & Hr) end.
    + intros [k v] Hx acc s2.
      assert (Hkey : exists k' s3,
        (if str_in k translate_comprehensive.TRANSLATABLE_FIELDS
         then translate_comprehensive.translate_str translate_func target_lang k []
         else ret k) s2 = (Ok k', s3)).
      { destruct (str_in k translate_comprehensive.TRANSLATABLE_FIELDS);
          [apply comprehensive_str_returns | eexists _, _; reflexivity]. }
      destruct Hkey as (k' & s3 & Hk').
      rewrite List.Forall_forall in IH.
      destruct (IH (k, v) Hx k s3) as (v' & s4 & Hv). cbn [snd] in Hv.
      rewrite (bind_ok _ _ _ _ _ Hk'), (bind_ok _ _ _ _ _ Hv).
      eexists _, _; reflexivity.
    + rewrite (bind_ok _ _ _ _ _ Hr). eexists _, _; reflexivity.
Qed.

(** * Further properties of the tools *)

(** ** check_unicode.py: counting and fixing *)

Section Counting.
Import check_unicode unicode_spec.

Local Abbreviation among keys :=
  (fun c : N => existsb (N.eqb c) keys).

Lemma count_among_cons (c : N) (keys : list N) (s : pystr) :
  ~ In c keys ->
  List.length (List.filter (among (c :: keys)) s)
  = (count c s + List.length (List.filter (among keys) s))%nat.
Proof.
  intros Hc. unfold count. induction s as [|x s IH]; [reflexivity|].
  cbn [List.filter existsb] in IH |- *. rewrite (N.eqb_sym x c).
  destruct (N.eqb c x) eqn:E.
  - apply N.eqb_eq in E. subst x.
    assert (Hk : among keys c = false).
    { destruct (among keys c) eqn:F; [|reflexivity].
      apply existsb_exists in F. destruct F as (y & Hy & F).
      apply N.eqb_eq in F. subst y. contradiction. }
    cbn [orb]. rewrite Hk. cbn [List.length]. rewrite IH. reflexivity.
  - cbn [orb]. destruct (among keys x); cbn [List.length]; rewrite IH; lia.
Qed.

Lemma count_among_replace (c : N) (r : pystr) (keys : list N) (s : pystr) :
  ~ In c keys ->
  (forall k, In k keys -> ~ In k r) ->
  List.length (List.filter (among keys) (replace c r s))
  = List.length (List.filter (among keys) s).
Proof.
  intros Hc Hr. unfold replace.
  assert (Hnone : List.filter (among keys) r = []).
  { clear - Hr. induction r as [|y r IH]; [reflexivity|]. cbn [List.filter].
    assert (Hy : among keys y = false).
    { destruct (among keys y) eqn:F; [|reflexivity].
      apply existsb_exists in F. destruct F as (k & Hk & F).
      apply N.eqb_eq in F. subst k. exfalso. apply (Hr y Hk). left. reflexivity. }
    rewrite Hy. apply IH. intros k Hk Hin. apply (Hr k Hk). right. exact Hin. }
  induction s as [|x s IH]; [reflexivity|].
  cbn [flat_map]. rewrite List.filter_app, List.length_app, IH.
  destruct (N.eqb x c) eqn:E.
  - apply N.eqb_eq in E. subst x. rewrite Hnone. cbn [List.filter].
    assert (Hk : among keys c = false).
    { destruct (among keys c) eqn:F; [|reflexivity].
      apply existsb_exists in F. destruct F as (y & Hy & F).
      apply N.eqb_eq in F. subst y. contradiction. }
    rewrite Hk. reflexivity.
  - cbn [List.filter]. destruct (among keys x); reflexivity.
Qed.

Lemma fix_entry_counts (s : pystr) (n : nat) (c : N) (r : pystr) :
  fix_entry (s, n) (c, r) = (replace c r s, (n + count c s)%nat).
Proof.
  cbn [fix_entry]. destruct (has_char c s) eqn:E; [reflexivity|].
  assert (H : ~ In c s) by (rewrite <- has_char_In; congruence).
  rewrite (replace_absent c r s H), (count_absent c s H), Nat.add_0_r.
  reflexivity.
Qed.

(** A run over a table whose keys are distinct and whose replacement
    texts hold no key adds the number of key characters of the string. *)
Lemma fix_with_counts (keys : list N) (table : list (N * pystr)) :
  ascii_only keys table ->
  (forall c, In c (List.map fst table) -> In c keys) ->
  List.NoDup (List.map fst table) ->
  forall s n,
    fix_with table s n
    = (subst_all table s,
       (n + List.length (List.filter (among (List.map fst table)) s))%nat).
Proof.
  unfold fix_with, subst_all.
  induction table as [|[c r] table IH]; intros Hok Hkeys Hnd s n.
  - cbn [fold_left List.map existsb]. rewrite List.filter_false.
    cbn. rewrite Nat.add_0_r. reflexivity.
  - inversion Hok as [|? ? Hr Hok']; subst. inversion Hnd as [|? ? Hc Hnd']; subst.
    cbn [fold_left List.map fst]. rewrite fix_entry_counts.
    rewrite (IH Hok' (fun c' H => Hkeys c' (or_intror H)) Hnd').
    cbn [fst snd]. f_equal.
    rewrite count_among_replace.
    + rewrite (count_among_cons c _ s Hc). lia.
    + exact Hc.
    + intros k Hk. apply Hr. apply Hkeys. right. exact Hk.
Qed.

Lemma table_keys_distinct : List.NoDup (List.map fst UNICODE_TO_ASCII).
Proof.
  repeat (constructor; [intros H; vm_compute in H; intuition discriminate|]).
  constructor.
Qed.

Lemma fix_str_counts (s : pystr) (n : nat) :
  fix_str s n = (normalize s, (n + table_chars s)%nat).
Proof.
  unfold normalize, fix_str, table_chars, in_table.
  rewrite !(fix_with_counts (List.map fst UNICODE_TO_ASCII) UNICODE_TO_ASCII
             table_ascii_only (fun c H => H) table_keys_distinct).
  reflexivity.
Qed.
End Counting.

Lemma mapM_counts {A B : Type} (f : A -> M nat B) (g : A -> B) (w : A -> nat)
    (l : list A) :
  (forall x, In x l -> forall n, f x n = (Ok (g x), (n + w x)%nat)) ->
  forall n, mapM f l n = (Ok (List.map g l), (n + list_sum (List.map w l))%nat).
Proof.
  induction l as [|a l IH]; intros Hf n.
  - cbn. rewrite Nat.add_0_r. reflexivity.
  - cbn [mapM]. rewrite (bind_ok _ _ _ _ _ (Hf a (or_introl eq_refl) n)).
    rewrite (bind_ok _ _ _ _ _ (IH (fun x Hx => Hf x (or_intror Hx)) _)).
    cbn. rewrite Nat.add_assoc. reflexivity.
Qed.

Lemma fix_value_counts (value : json) (replacements_count : nat) :
  check_unicode.fix_string_value value replacements_count
  = (Ok (unicode_spec.map_strings check_unicode.normalize value),
     (replacements_count + unicode_spec.table_chars_in value)%nat).
Proof.
  revert replacements_count.
  induction value as [ | b | k | str | l IH | kvs IH] using json_ind'; intros n;
    try (cbn; rewrite Nat.add_0_r; reflexivity).
  - cbn [check_unicode.fix_string_value]. rewrite fix_str_counts. reflexivity.
  - cbn [check_unicode.fix_string_value unicode_spec.map_strings
         unicode_spec.table_chars_in].
    rewrite (bind_ok _ _ _ _ _
               (mapM_counts _ (unicode_spec.map_strings check_unicode.normalize)
                  unicode_spec.table_chars_in l
                  (fun x Hx => proj1 (List.Forall_forall _ _) IH x Hx) n)).
    reflexivity.
  - cbn [check_unicode.fix_string_value unicode_spec.map_strings
         unicode_spec.table_chars_in].
    erewrite bind_ok; [reflexivity|].
    apply (mapM_counts _
             (fun kv => (fst kv,
                         unicode_spec.map_strings check_unicode.normalize (snd kv)))
             (fun kv => unicode_spec.table_chars_in (snd kv))).
    intros [key val] Hx m. rewrite List.Forall_forall in IH.
    pose proof (IH (key, val) Hx m) as E. cbn [snd] in E.
    rewrite (bind_ok _ _ _ _ _ E). reflexivity.
Qed.

(** X1. [fix_string_value] returns the document with every string value
    normalised -- keys, other scalars and the shape as they were -- and
    adds to the counter exactly the number of table characters that
    occurred in the string values. *)
Theorem fix_string_value_counts (value : json) (replacements_count : nat) :
  check_unicode.fix_string_value value replacements_count
  = (Ok (unicode_spec.map_strings check_unicode.normalize value),
     (replacements_count + unicode_spec.table_chars_in value)%nat).
Proof. apply fix_value_counts. Qed.

Section Fixing.
Import files check_unicode unicode_spec.

Lemma normalize_clean (s : pystr) : clean_str (normalize s).
Proof.
  unfold clean_str, normalize, fix_str. rewrite fix_with_fst. intros c Hc.
  apply (subst_all_removes (List.map fst UNICODE_TO_ASCII) []
           UNICODE_TO_ASCII s table_ascii_only).
  - intros ? [].
  - intros ? H. exact H.
  - intros ? [].
  - exact Hc.
Qed.

Lemma map_strings_clean (v : json) : clean_values (map_strings normalize v).
Proof.
  induction v as [ | b | k | str | l IH | kvs IH] using json_ind';
    cbn [map_strings]; constructor.
  - apply normalize_clean.
  - apply List.Forall_forall. intros x Hx. apply in_map_iff in Hx.
    destruct Hx as (y & <- & Hy). rewrite List.Forall_forall in IH. exact (IH y Hy).
  - apply List.Forall_forall. intros x Hx. apply in_map_iff in Hx.
    destruct Hx as (y & <- & Hy). rewrite List.Forall_forall in IH. exact (IH y Hy).
Qed.

Lemma list_sum_zero {A : Type} (w : A -> nat) (l : list A) :
  list_sum (List.map w l) = 0%nat -> forall x, In x l -> w x = 0%nat.
Proof.
  induction l as [|a l IH]; simpl; intros H x Hx; [contradiction|].
  destruct Hx as [<- | Hx]; [lia | apply IH; [lia | exact Hx]].
Qed.

Lemma table_chars_zero (s : pystr) : table_chars s = 0%nat -> clean_str s.
Proof.
  unfold table_chars, clean_str. intros H c Hc Hin.
  assert (Hf : In c (List.filter in_table s)).
  { apply filter_In. split; [exact Hin|]. unfold in_table.
    apply existsb_exists. exists c. split; [exact Hc | apply N.eqb_refl]. }
  destruct (List.filter in_table s); [contradiction | discriminate].
Qed.

Lemma table_chars_in_zero (v : json) : table_chars_in v = 0%nat -> clean_values v.
Proof.
  induction v as [ | b | k | str | l IH | kvs IH] using json_ind';
    cbn [table_chars_in]; intros H; constructor.
  - apply table_chars_zero. exact H.
  - apply List.Forall_forall. intros x Hx. rewrite List.Forall_forall in IH.
    apply (IH x Hx). exact (list_sum_zero _ _ H x Hx).
  - apply List.Forall_forall. intros x Hx. rewrite List.Forall_forall in IH.
    apply (IH x Hx). exact (list_sum_zero (fun kv => table_chars_in (snd kv)) _ H x Hx).
Qed.

Lemma encodable_replace (c : N) (r s : pystr) :
  surrogate c = false -> encodable_str r = true ->
  encodable_str (replace c r s) = encodable_str s.
Proof.
  intros Hc Hr. unfold encodable_str, replace.
  induction s as [|x s IH]; [reflexivity|].
  cbn [flat_map forallb]. rewrite forallb_app, IH.
  destruct (N.eqb x c) eqn:E.
  - apply N.eqb_eq in E. subst x. unfold encodable_str in Hr.
    rewrite Hr, Hc. reflexivity.
  - cbn [forallb]. rewrite andb_true_r. reflexivity.
Qed.

Lemma encodable_subst_all (table : list (N * pystr)) :
  forallb (fun e => negb (surrogate (fst e)) && encodable_str (snd e)) table
  = true ->
  forall s, encodable_str (subst_all table s) = encodable_str s.
Proof.
  unfold subst_all. induction table as [|[c r] table IH]; intros H s;
    [reflexivity|].
  cbn [forallb fst snd] in H. apply andb_true_iff in H. destruct H as [H Htable].
  apply andb_true_iff in H. destruct H as [Hc Hr].
  apply negb_true_iff in Hc.
  cbn [fold_left fst snd]. rewrite (IH Htable).
  apply encodable_replace; assumption.
Qed.

Lemma encodable_normalize (s : pystr) :
  encodable_str (normalize s) = encodable_str s.
Proof.
  unfold normalize, fix_str. rewrite fix_with_fst.
  apply encodable_subst_all. vm_compute. reflexivity.
Qed.

Lemma encodable_map_strings (v : json) :
  encodable (map_strings normalize v) = encodable v.
Proof.
  induction v as [ | b | k | str | l IH | kvs IH] using json_ind';
    cbn [map_strings encodable]; try reflexivity.
  - apply encodable_normalize.
  - induction IH as [|x l Hx _ IHl]; [reflexivity|].
    cbn [List.map forallb]. rewrite Hx, IHl. reflexivity.
  - induction IH as [|[key val] kvs Hx _ IHl]; [reflexivity|].
    cbn [List.map forallb fst snd] in Hx |- *. rewrite Hx, IHl. reflexivity.
Qed.
End Fixing.

(** X2. In fix mode, on a file that parses as JSON and holds a table
    character in some string value, with the backup and the file both
    open to writing: the backup holds the file's old content, and the
    document to write is the one with every string value normalised, in
    which no table character is left.  When the document holds no lone
    surrogate, [fix_file] returns [True] and the file holds the dump of
    the normalised document; when it holds one, [json.dump] raises out
    of [fix_file] and the file is left cut off.  Normalising neither
    brings in nor takes out a surrogate. *)
Theorem fix_file_fixes
    (sys : files.io) (fs : gmap pystr pystr) (filename content : pystr)
    (data : json) :
  fs !! filename = Some content ->
  files.json_loads sys content = Some data ->
  ~ check_unicode.clean_values data ->
  files.writable sys (filename ++ py ".backup") = true ->
  files.writable sys filename = true ->
  let fixed := unicode_spec.map_strings check_unicode.normalize data in
  let backed_up := <[filename ++ py ".backup" := content]> fs in
  check_unicode.fix_file sys filename true fs
  = (if encodable fixed
     then (Ok true, <[filename := files.json_dumps sys fixed]> backed_up)
     else (Exn, <[filename := files.cut_off sys fixed]> backed_up))
  /\ check_unicode.clean_values fixed
  /\ encodable fixed = encodable data.
Proof.
  intros Hfile Hjson Hdirty Hwb Hwf fixed backed_up.
  split; [|split; [apply map_strings_clean | apply encodable_map_strings]].
  unfold check_unicode.fix_file, catch, bind, files.read_file, files.parse,
    files.write_file, files.dump_file.
  rewrite Hfile. cbn [ret]. rewrite Hjson. cbn [ret]. rewrite Hwb.
  rewrite fix_value_counts. cbn [Nat.add].
  destruct (unicode_spec.table_chars_in data) as [|k] eqn:E.
  - exfalso. apply Hdirty. apply table_chars_in_zero. exact E.
  - cbn [Nat.eqb]. rewrite Hwf. fold fixed.
    destruct (encodable fixed); reflexivity.
Qed.

Lemma fix_file_fixes_witness :
  check_unicode.fix_file
    (examples.one_doc (py "x")
       (JObj [(py "name", JStr [0x2019; 115])]) examples.leaves)
    (py "f.json") true (<[py "f.json" := py "x"]> ∅)
  = (Ok true,
     <[py "f.json" := py "'s"]>
       (<[py "f.json" ++ py ".backup" := py "x"]> (<[py "f.json" := py "x"]> ∅))).
Proof.
  refine (proj1 (fix_file_fixes
                   (examples.one_doc (py "x")
                      (JObj [(py "name", JStr [0x2019; 115])]) examples.leaves)
                   (<[py "f.json" := py "x"]> ∅) (py "f.json") (py "x")
                   (JObj [(py "name", JStr [0x2019; 115])]) _ _ _ _ _)).
  - apply lookup_insert_eq.
  - reflexivity.
  - intros H. inversion H as [ | | | | | ? Hkvs ]; subst.
    inversion Hkvs as [|? ? Hv _]; subst. cbn [snd] in Hv.
    inversion Hv as [ | | | ? Hs | | ]; subst.
    apply (Hs 0x2019); [vm_compute; tauto | left; reflexivity].
  - reflexivity.
  - reflexivity.
Defined.

(** X3. [fix_file] on a file that is missing or is not valid JSON returns
    [False] and leaves the file system exactly as it was: nothing is
    written, not even the backup. *)
Theorem fix_file_rejects_bad_input
    (sys : files.io) (fs : gmap pystr pystr) (filename : pystr) (backup : bool) :
  fs !! filename = None
  \/ (exists content,
        fs !! filename = Some content /\ files.json_loads sys content = None) ->
  check_unicode.fix_file sys filename backup fs = (Ok false, fs).
Proof.
  unfold check_unicode.fix_file, catch, bind, files.read_file, files.parse.
  intros [H | (content & H & Hjson)]; rewrite H; cbn [ret raise].
  - reflexivity.
  - rewrite Hjson. reflexivity.
Qed.

Lemma fix_file_rejects_bad_input_witness :
  check_unicode.fix_file files.toy (py "f.json") true (<[py "f.json" := py "{"]> ∅)
  = (Ok false, <[py "f.json" := py "{"]> ∅).
Proof.
  apply fix_file_rejects_bad_input. right. exists (py "{").
  split; [apply lookup_insert_eq | reflexivity].
Defined.

(** ** clean_team_fields.py: what is left after cleaning *)

Section RemoveFields.
Import clean_team_fields.

Lemma remove_fields_avoids (fields : list pystr) (obj : json) :
  keys_avoid fields (remove_fields_from_dict obj fields).
Proof.
  induction obj as [ | b | n | s | l IH | kvs IH] using json_ind';
    try (constructor; fail).
  - cbn [remove_fields_from_dict]. constructor. apply List.Forall_forall.
    intros x Hx. apply in_map_iff in Hx. destruct Hx as (y & <- & Hy).
    rewrite List.Forall_forall in IH. exact (IH y Hy).
  - cbn [remove_fields_from_dict]. constructor. rewrite pop_all_filter.
    apply List.Forall_forall. intros kv Hkv. apply filter_In in Hkv.
    destruct Hkv as [Hkv Hkeep]. apply in_map_iff in Hkv.
    destruct Hkv as (y & <- & Hy). cbn [fst snd] in *. split.
    + apply str_in_not_In. apply negb_true_iff. exact Hkeep.
    + rewrite List.Forall_forall in IH. exact (IH y Hy).
Qed.

Lemma remove_fields_nothing (fields : list pystr) (obj : json) :
  keys_avoid fields obj -> remove_fields_from_dict obj fields = obj.
Proof.
  induction obj as [ | b | n | s | l IH | kvs IH] using json_ind'; intros Hka;
    try reflexivity.
  - inversion Hka as [ | | | | ? Hl | ]; subst.
    cbn [remove_fields_from_dict]. f_equal.
    rewrite <- (List.map_id l) at 2. apply map_ext_in. intros x Hx.
    rewrite List.Forall_forall in IH, Hl. exact (IH x Hx (Hl x Hx)).
  - inversion Hka as [ | | | | | ? Hkvs ]; subst.
    cbn [remove_fields_from_dict]. f_equal. rewrite pop_all_filter.
    rewrite List.Forall_forall in IH, Hkvs.
    rewrite (dict_map_same (fun _ x => remove_fields_from_dict x fields)).
    + apply forallb_filter_id. apply forallb_forall. intros kv Hkv.
      apply negb_true_iff. apply str_in_not_In. apply (Hkvs kv Hkv).
    + intros k x Hin. apply (IH (k, x) Hin). apply (Hkvs (k, x) Hin).
Qed.
End RemoveFields.

(** X4. After [remove_fields_from_dict] no object of the document, at
    any depth, has a key among the names given; and a document in which
    none of the names occurs comes back as it was. *)
Theorem remove_fields_exact (obj : json) (fields_to_remove : list pystr) :
  keys_avoid fields_to_remove
    (clean_team_fields.remove_fields_from_dict obj fields_to_remove)
  /\ (keys_avoid fields_to_remove obj ->
      clean_team_fields.remove_fields_from_dict obj fields_to_remove = obj).
Proof.
  split; [apply remove_fields_avoids | apply remove_fields_nothing].
Qed.

Lemma remove_fields_exact_witness :
  clean_team_fields.remove_fields_from_dict
    (JArr [JObj [(py "wepName", JStr (py "Bolter"))]]) [py "isDefault"]
  = JArr [JObj [(py "wepName", JStr (py "Bolter"))]].
Proof.
  apply (proj2 (remove_fields_exact
                  (JArr [JObj [(py "wepName", JStr (py "Bolter"))]])
                  [py "isDefault"])).
  repeat constructor. intros H. vm_compute in H. intuition discriminate.
Defined.

Section CleanTwice.
Import clean_team_fields.

Lemma dict_pop_twice (k : pystr) (d : dict) :
  dict_pop k (dict_pop k d) = dict_pop k d.
Proof.
  unfold dict_pop. rewrite filter_filter. apply filter_ext.
  intros kv. apply andb_diag.
Qed.

Lemma pop_all_twice (fields : list pystr) (d : dict) :
  pop_all fields (pop_all fields d) = pop_all fields d.
Proof.
  rewrite !pop_all_filter, filter_filter. apply filter_ext.
  intros kv. apply andb_diag.
Qed.

Lemma dict_get_set (key : pystr) (v x : json) (d : dict) :
  dict_get key d = Some x -> dict_get key (dict_set key v d) = Some v.
Proof.
  induction d as [|[k y] d IH]; simpl; [discriminate|].
  destruct (str_eqb k key) eqn:E; simpl; rewrite E; [reflexivity | exact IH].
Qed.

Lemma dict_set_twice (key : pystr) (v : json) (d : dict) :
  dict_set key v (dict_set key v d) = dict_set key v d.
Proof.
  induction d as [|[k y] d IH]; simpl.
  - rewrite str_eqb_refl. reflexivity.
  - destruct (str_eqb k key) eqn:E; simpl; rewrite E; [reflexivity|].
    f_equal. exact IH.
Qed.

(** Assigning under a key that is there keeps the keys, so the pops that
    removed nothing before remove nothing after. *)
Lemma filter_keys_set (p : pystr -> bool) (key : pystr) (v x : json) (d : dict) :
  dict_get key d = Some x ->
  List.filter (fun kv => p (fst kv)) d = d ->
  List.filter (fun kv => p (fst kv)) (dict_set key v d) = dict_set key v d.
Proof.
  intros Hget Hd. apply forallb_filter_id. apply forallb_forall.
  assert (Hall : forall kv, In kv d -> p (fst kv) = true).
  { intros kv Hkv. rewrite <- Hd in Hkv. apply filter_In in Hkv. apply Hkv. }
  clear Hd. revert Hget Hall. induction d as [|[k y] d IH]; simpl;
    intros Hget Hall kv Hkv; [discriminate|].
  destruct (str_eqb k key) eqn:E.
  - destruct Hkv as [<- | Hkv].
    + apply (Hall (k, y)). left. reflexivity.
    + apply Hall. right. exact Hkv.
  - destruct Hkv as [<- | Hkv].
    + apply (Hall (k, y)). left. reflexivity.
    + apply (IH Hget (fun kv' H => Hall kv' (or_intror H)) kv Hkv).
Qed.

Lemma res_mapM_fixed {A : Type} (f : A -> res A) (l l' : list A) :
  (forall x y, f x = Ok y -> f y = Ok y) ->
  res_mapM f l = Ok l' -> res_mapM f l' = Ok l'.
Proof.
  intros Hf. revert l'. induction l as [|a l IH]; simpl; intros l' H.
  - injection H as <-. reflexivity.
  - destruct (f a) as [b|] eqn:Ea; [|discriminate]. simpl in H.
    destruct (res_mapM f l) as [bs|] eqn:El; [|discriminate]. simpl in H.
    injection H as <-. simpl. rewrite (Hf a b Ea). simpl.
    rewrite (IH bs eq_refl). reflexivity.
Qed.

(** One level of the cleaning, run on its own result. *)
Lemma clean_level_twice (fields : list pystr) (key : pystr)
    (elem : json -> res json) (d : dict) (r : json) :
  (forall x y, elem x = Ok y -> elem y = Ok y) ->
  match dict_get key (pop_all fields d) with
  | Some (JArr xs) =>
      res_bind (res_mapM elem xs) (fun xs' =>
      Ok (JObj (dict_set key (JArr xs') (pop_all fields d))))
  | _ => Ok (JObj (pop_all fields d))
  end = Ok r ->
  exists d',
    r = JObj d' /\
    match dict_get key (pop_all fields d') with
    | Some (JArr xs) =>
        res_bind (res_mapM elem xs) (fun xs' =>
        Ok (JObj (dict_set key (JArr xs') (pop_all fields d'))))
    | _ => Ok (JObj (pop_all fields d'))
    end = Ok r.
Proof.
  intros Helem H.
  destruct (dict_get key (pop_all fields d)) as [x0|] eqn:Hget.
  - destruct x0 as [ | b | n | s | xs | kvs].
    1-4,6: injection H as <-; exists (pop_all fields d);
      (split; [reflexivity|]); rewrite pop_all_twice, Hget; reflexivity.
    destruct (res_mapM elem xs) as [xs'|] eqn:Hxs; [|discriminate].
    simpl in H. injection H as <-.
    exists (dict_set key (JArr xs') (pop_all fields d)). split; [reflexivity|].
    assert (Hpop : pop_all fields (dict_set key (JArr xs') (pop_all fields d))
                   = dict_set key (JArr xs') (pop_all fields d)).
    { rewrite (pop_all_filter fields (dict_set _ _ _)).
      apply (filter_keys_set (fun k => negb (str_in k fields)) key _ (JArr xs));
        [exact Hget|].
      rewrite <- pop_all_filter. apply pop_all_twice. }
    rewrite Hpop, (dict_get_set key (JArr xs') (JArr xs) _ Hget).
    rewrite (res_mapM_fixed elem xs xs' Helem Hxs). simpl.
    rewrite dict_set_twice. reflexivity.
  - injection H as <-. exists (pop_all fields d). split; [reflexivity|].
    rewrite pop_all_twice, Hget. reflexivity.
Qed.
End CleanTwice.

Section CleanFixpoint.
Import clean_team_fields.

Lemma clean_weapon_twice (x y : json) :
  clean_weapon x = Ok y -> clean_weapon y = Ok y.
Proof.
  destruct x as [ | b | n | s | l | d]; try discriminate.
  simpl. intros [= <-]. simpl. rewrite dict_pop_twice. reflexivity.
Qed.

Lemma clean_opType_twice (x y : json) :
  clean_opType x = Ok y -> clean_opType y = Ok y.
Proof.
  destruct x as [ | b | n | s | l | d]; try discriminate.
  unfold clean_opType at 1. intros H.
  destruct (clean_level_twice opType_fields_to_remove (py "weapons")
              clean_weapon d y clean_weapon_twice H) as (d' & -> & H').
  exact H'.
Qed.

Lemma clean_team_data_twice (data r : json) :
  clean_team_data data = Ok r -> clean_team_data r = Ok r.
Proof.
  destruct data as [ | b | n | s | l | d]; try discriminate.
  unfold clean_team_data at 1. intros H.
  destruct (clean_level_twice root_fields_to_remove (py "opTypes")
              clean_opType d r clean_opType_twice H) as (d' & -> & H').
  exact H'.
Qed.
End CleanFixpoint.

(** X5. Cleaning is idempotent: the document [clean_team_file] produces
    is cleaned again without error and without change, so a second run
    of the tool rewrites every team file with the same document. *)
Theorem clean_team_data_idempotent (data r : json) :
  clean_team_fields.clean_team_data data = Ok r ->
  clean_team_fields.clean_team_data r = Ok r.
Proof. apply clean_team_data_twice. Qed.

Lemma clean_team_data_idempotent_witness :
  clean_team_fields.clean_team_data
    (JObj [(py "killteamName", JStr (py "Angels"));
           (py "opTypes",
            JArr [JObj [(py "opTypeName", JStr (py "Trooper"));
                        (py "weapons", JArr [JObj [(py "wepName", JStr (py "Bolter"))]])]])])
  = Ok (JObj [(py "killteamName", JStr (py "Angels"));
              (py "opTypes",
               JArr [JObj [(py "opTypeName", JStr (py "Trooper"));
                           (py "weapons", JArr [JObj [(py "wepName", JStr (py "Bolter"))]])]])]).
Proof.
  apply (clean_team_data_idempotent
           (JObj [(py "userId", JStr (py "u1"));
                  (py "killteamName", JStr (py "Angels"));
                  (py "opTypes",
                   JArr [JObj [(py "opId", JStr (py "a1"));
                               (py "opTypeName", JStr (py "Trooper"));
                               (py "weapons",
                                JArr [JObj [(py "isDefault", JBool true);
                                            (py "wepName", JStr (py "Bolter"))]])]])])).
  vm_compute. reflexivity.
Defined.

(** X6. [clean_team_file] never raises, and the file given is the only
    one it can change.  When it returns [True] the file was read, parsed
    and cleaned, the cleaned document holds no lone surrogate, and the
    file holds its dump.  When it returns [False], either nothing was
    written -- the file is missing, is not JSON, holds something other
    than an object where the tool pops fields, or cannot be opened for
    writing -- or the cleaned document holds a lone surrogate, on which
    [json.dump] raised after the file was opened: the file is left cut
    off. *)
Theorem clean_team_file_outcome
    (sys : files.io) (fs : gmap pystr pystr) (file_path : pystr) :
  exists (ok : bool) (fs' : gmap pystr pystr),
    clean_team_fields.clean_team_file sys file_path fs = (Ok ok, fs')
    /\ (ok = true ->
        exists content data r,
          fs !! file_path = Some content /\
          files.json_loads sys content = Some data /\
          clean_team_fields.clean_team_data data = Ok r /\
          encodable r = true /\
          fs' = <[file_path := files.json_dumps sys r]> fs)
    /\ (ok = false ->
        fs' = fs
        \/ exists content data r,
             fs !! file_path = Some content /\
             files.json_loads sys content = Some data /\
             clean_team_fields.clean_team_data data = Ok r /\
             encodable r = false /\
             files.writable sys file_path = true /\
             fs' = <[file_path := files.cut_off sys r]> fs).
Proof.
  unfold clean_team_fields.clean_team_file, catch, bind, files.read_file,
    files.parse, lift, files.dump_file.
  destruct (fs !! file_path) as [content|] eqn:Hfile; cbn [ret raise].
  2:{ exists false, fs. split; [reflexivity|]. split; [discriminate | left; reflexivity]. }
  destruct (files.json_loads sys content) as [data|] eqn:Hjson; cbn [ret raise].
  2:{ exists false, fs. split; [reflexivity|]. split; [discriminate | left; reflexivity]. }
  destruct (clean_team_fields.clean_team_data data) as [r|] eqn:Hclean.
  2:{ exists false, fs. split; [reflexivity|]. split; [discriminate | left; reflexivity]. }
  destruct (files.writable sys file_path) eqn:Hw.
  2:{ exists false, fs. split; [reflexivity|]. split; [discriminate | left; reflexivity]. }
  destruct (encodable r) eqn:Henc.
  - exists true, (<[file_path := files.json_dumps sys r]> fs).
    split; [reflexivity|]. split; [|discriminate]. intros _.
    exists content, data, r. repeat split; assumption.
  - exists false, (<[file_path := files.cut_off sys r]> fs).
    split; [reflexivity|]. split; [discriminate|]. intros _. right.
    exists content, data, r. repeat split; assumption.
Qed.

(** ** merge_actions.py: what a merge leaves alone *)

Section MergeFrame.
Import files merge_actions merge_spec.
Variable sys : io.

(** Reading an input never changes a file and never raises. *)
Lemma read_actions_reads (fs : gmap pystr pystr) (file : pystr) :
  exists r, read_actions sys file fs = (Ok r, fs).
Proof.
  unfold read_actions, load_actions, file_exists, read_file, parse, catch, bind,
    lift.
  destruct (fs !! file) as [content|] eqn:Hfile; cbn [ret raise];
    [|eexists; reflexivity].
  rewrite Hfile.
  destruct (json_loads sys content) as [data|]; cbn [ret raise];
    [|eexists; reflexivity].
  destruct data as [ | b | n | s | l | d]; cbn [ret raise];
    try (eexists; reflexivity).
  destruct (len _); eexists; reflexivity.
Qed.

Lemma read_actions_unusable (fs : gmap pystr pystr) (file : pystr) :
  unusable sys fs file -> read_actions sys file fs = (Ok None, fs).
Proof.
  intros (content & Hfile & H).
  unfold read_actions, load_actions, file_exists, read_file, parse, catch, bind,
    lift.
  rewrite Hfile. cbn [ret raise]. rewrite Hfile.
  destruct (json_loads sys content) as [data|]; cbn [ret raise]; [|reflexivity].
  destruct data as [ | b | n | s | l | d]; cbn [ret raise]; try reflexivity.
  destruct (dict_get (py "actions") d) as [a|]; [|contradiction].
  rewrite H. reflexivity.
Qed.

Lemma output_is_no_input (lang_dir : pystr) :
  lang_dir ++ py "/actions.json" <> lang_dir ++ py "/universal_actions.json"
  /\ lang_dir ++ py "/actions.json" <> lang_dir ++ py "/mission_actions.json".
Proof.
  split; intros H; apply app_inv_head in H; vm_compute in H; discriminate.
Qed.
End MergeFrame.

(** X7. Whenever [merge_actions] returns, every file other than
    [actions.json] is as it was -- the two inputs in particular.  When it
    returns [False], either nothing at all was written, or the merged
    document holds a lone surrogate and [actions.json] was opened and
    left cut off. *)
Theorem merge_actions_frame
    (sys : files.io) (fs fs' : gmap pystr pystr) (lang_dir : pystr) (ok : bool) :
  merge_actions.merge_actions sys lang_dir fs = (Ok ok, fs') ->
  (ok = false ->
   fs' = fs
   \/ exists merged_data,
        encodable merged_data = false /\
        fs' = <[lang_dir ++ py "/actions.json" :=
                  files.cut_off sys merged_data]> fs)
  /\ (forall path, path <> lang_dir ++ py "/actions.json" ->
                   fs' !! path = fs !! path)
  /\ fs' !! (lang_dir ++ py "/universal_actions.json")
     = fs !! (lang_dir ++ py "/universal_actions.json")
  /\ fs' !! (lang_dir ++ py "/mission_actions.json")
     = fs !! (lang_dir ++ py "/mission_actions.json").
Proof.
  intros H.
  assert (Hmain : (ok = false ->
                   fs' = fs
                   \/ exists merged_data,
                        encodable merged_data = false /\
                        fs' = <[lang_dir ++ py "/actions.json" :=
                                  files.cut_off sys merged_data]> fs)
                  /\ forall path, path <> lang_dir ++ py "/actions.json" ->
                                  fs' !! path = fs !! path).
  { unfold merge_actions.merge_actions in H.
    destruct (read_actions_reads sys fs (lang_dir ++ py "/universal_actions.json"))
      as (u & Hu).
    rewrite (bind_ok _ _ _ _ _ Hu) in H.
    destruct u as [ua|];
      [|cbn in H; injection H as <- <-; split; [left|]; reflexivity].
    destruct (read_actions_reads sys fs (lang_dir ++ py "/mission_actions.json"))
      as (m & Hm).
    rewrite (bind_ok _ _ _ _ _ Hm) in H.
    destruct m as [ma|];
      [|cbn in H; injection H as <- <-; split; [left|]; reflexivity].
    unfold bind, lift, catch, files.dump_file in H.
    destruct (merge_actions.add ua ma) as [all|]; [|discriminate].
    destruct (files.writable sys (lang_dir ++ py "/actions.json"));
      [|cbn in H; injection H as <- <-; split; [left|]; reflexivity].
    destruct (encodable (JObj [(py "actions", all)])) eqn:Henc;
      cbn in H; injection H as <- <-.
    - split; [discriminate|]. intros path Hp.
      apply lookup_insert_ne. intros E. apply Hp. symmetry. exact E.
    - split.
      + intros _. right. exists (JObj [(py "actions", all)]).
        split; [exact Henc | reflexivity].
      + intros path Hp.
        apply lookup_insert_ne. intros E. apply Hp. symmetry. exact E. }
  destruct Hmain as [Hfalse Hframe]. split; [exact Hfalse|]. split; [exact Hframe|].
  destruct (output_is_no_input lang_dir) as [H1 H2].
  split; apply Hframe; congruence.
Qed.

Lemma merge_actions_frame_witness :
  let sys :=
    examples.two_docs
      (py "u") (JObj [(py "actions", JArr [JObj [(py "name", JStr (py "Dash"))]])])
      (py "m") (JObj [(py "actions", JArr [JObj [(py "name", JStr (py "Loot"))]])])
      examples.leaves in
  let fs : gmap pystr pystr :=
    <[py "en/universal_actions.json" := py "u"]>
      (<[py "en/mission_actions.json" := py "m"]> ∅) in
  snd (merge_actions.merge_actions sys (py "en") fs)
    !! (py "en" ++ py "/mission_actions.json")
  = fs !! (py "en" ++ py "/mission_actions.json").
Proof.
  intros sys fs.
  apply (merge_actions_frame sys fs _ (py "en") true).
  vm_compute. reflexivity.
Defined.

(** X8. An input file that is there but cannot be used -- it is not
    JSON, its top value is not an object, or its [actions] value is a
    number, a boolean or null -- makes [merge_actions] return [False]
    without writing anything, whatever the other input holds. *)
Theorem merge_actions_rejects_bad_input
    (sys : files.io) (fs : gmap pystr pystr) (lang_dir : pystr) :
  merge_spec.unusable sys fs (lang_dir ++ py "/universal_actions.json")
  \/ merge_spec.unusable sys fs (lang_dir ++ py "/mission_actions.json") ->
  merge_actions.merge_actions sys lang_dir fs = (Ok false, fs).
Proof.
  intros H. unfold merge_actions.merge_actions.
  destruct H as [H | H].
  - rewrite (bind_ok _ _ _ _ _ (read_actions_unusable sys fs _ H)). reflexivity.
  - destruct (read_actions_reads sys fs (lang_dir ++ py "/universal_actions.json"))
      as (u & Hu).
    rewrite (bind_ok _ _ _ _ _ Hu). destruct u as [ua|]; [|reflexivity].
    rewrite (bind_ok _ _ _ _ _ (read_actions_unusable sys fs _ H)). reflexivity.
Qed.

Lemma merge_actions_rejects_bad_input_witness :
  merge_actions.merge_actions files.toy (py "en")
    (<[py "en/universal_actions.json" := py "[1"]> ∅)
  = (Ok false, <[py "en/universal_actions.json" := py "[1"]> ∅).
Proof.
  apply merge_actions_rejects_bad_input. left.
  exists (py "[1"). split; [apply lookup_insert_eq | exact I].
Defined.

(** ** split_teams.py *)

(** X9. The file name made from a [killteamId] holds no slash and no
    backslash and is as long as the id, so the path of a team file is
    always [output_dir], a slash, that name and [.json]: no id leads out
    of the output directory through a path separator. *)
Theorem safe_filename_has_no_separator (killteam_id : pystr) :
  ~ In 47 (split_teams.safe_filename killteam_id)
  /\ ~ In 92 (split_teams.safe_filename killteam_id)
  /\ List.length (split_teams.safe_filename killteam_id)
     = List.length killteam_id.
Proof.
  unfold split_teams.safe_filename. split; [|split].
  - intros H. apply in_replace in H. destruct H as [[H _] | H].
    + apply in_replace in H. destruct H as [[_ H] | H]; [congruence|].
      simpl in H. intuition discriminate.
    + simpl in H. intuition discriminate.
  - intros H. apply in_replace in H. destruct H as [[_ H] | H]; [congruence|].
    simpl in H. intuition discriminate.
  - unfold replace.
    assert (Hlen : forall c (s : pystr),
              List.length (flat_map (fun x => if N.eqb x c then [95] else [x]) s)
              = List.length s).
    { intros c s. induction s as [|x s IH]; [reflexivity|].
      cbn [flat_map]. rewrite List.length_app, IH.
      destruct (N.eqb x c); reflexivity. }
    rewrite !Hlen. reflexivity.
Qed.

Section Splitting.
Import files split_teams.
Variable sys : io.

Lemma foldM_app_run {S A B : Type} (f : B -> A -> M S B) (l1 l2 : list A)
    (acc : B) (s : S) :
  foldM f (l1 ++ l2) acc s = bind (foldM f l1 acc) (foldM f l2) s.
Proof.
  revert acc s. induction l1 as [|a l1 IH]; intros acc s.
  - reflexivity.
  - cbn [foldM app]. unfold bind.
    destruct (f acc a s) as [[acc'|] s1]; [|reflexivity].
    rewrite IH. unfold bind. reflexivity.
Qed.

Lemma save_team_writes (output_dir : pystr) (n : nat) (team : json) (id : pystr)
    (fs : gmap pystr pystr) :
  names_team team id ->
  writable sys (output_file output_dir id) = true ->
  save_team sys output_dir n team fs
  = if encodable team
    then (Ok (S n), <[output_file output_dir id := json_dumps sys team]> fs)
    else (Ok n, <[output_file output_dir id := cut_off sys team]> fs).
Proof.
  intros (d & -> & Hid & Hne) Hw. unfold save_team. rewrite Hid.
  destruct id as [|c id]; [congruence|]. cbn [truthy str_truthy negb].
  unfold catch, bind, dump_file. rewrite Hw.
  destruct (encodable (JObj d)); reflexivity.
Qed.

(** One turn of the loop touches at most the path of its team. *)
Lemma save_team_frame (output_dir : pystr) (n n' : nat) (team : json)
    (fs fs' : gmap pystr pystr) (path : pystr) :
  save_team sys output_dir n team fs = (Ok n', fs') ->
  (forall id, names_team team id -> output_file output_dir id <> path) ->
  fs' !! path = fs !! path.
Proof.
  unfold save_team. intros H Hpath.
  destruct team as [ | b | k | s | l | d]; try (unfold ret, raise in H; congruence).
  destruct (dict_get (py "killteamId") d) as [killteam_id|] eqn:Hid;
    [|unfold ret, raise in H; congruence].
  destruct (negb (truthy killteam_id)) eqn:Ht; [unfold ret, raise in H; congruence|].
  destruct killteam_id as [ | b | k | id | l | d']; try (unfold ret, raise in H; congruence).
  unfold catch, bind, dump_file in H.
  assert (Hout : output_file output_dir id <> path).
  { apply Hpath. exists d. split; [reflexivity|]. split; [exact Hid|].
    intros ->. discriminate. }
  destruct (writable sys (output_file output_dir id));
    [|cbn in H; injection H as _ <-; reflexivity].
  destruct (encodable (JObj d)); cbn in H; injection H as _ <-;
    apply lookup_insert_ne; exact Hout.
Qed.

Lemma loop_frame (output_dir : pystr) (teams : list json) (path : pystr) :
  (forall team id, In team teams -> names_team team id ->
                   output_file output_dir id <> path) ->
  forall n n' fs fs',
    foldM (save_team sys output_dir) teams n fs = (Ok n', fs') ->
    fs' !! path = fs !! path.
Proof.
  induction teams as [|team teams IH]; intros Hpath n n' fs fs' H.
  - unfold foldM, ret in H. congruence.
  - cbn [foldM] in H. apply bind_ok_inv in H.
    destruct H as (n1 & fs1 & Hteam & H).
    rewrite (IH (fun t id Ht => Hpath t id (or_intror Ht)) _ _ _ _ H).
    apply (save_team_frame _ _ _ _ _ _ _ Hteam).
    intros id. apply Hpath. left. reflexivity.
Qed.
End Splitting.

(** X10. When the source of [split_teams_file] is missing, is not JSON
    or is not an array, the function returns [False] and writes
    nothing. *)
Theorem split_rejects_bad_input
    (sys : files.io) (fs : gmap pystr pystr) (source_file output_dir : pystr) :
  fs !! source_file = None
  \/ (exists content,
        fs !! source_file = Some content /\
        match files.json_loads sys content with
        | Some (JArr _) => False
        | _ => True
        end) ->
  split_teams.split_teams_file sys source_file output_dir fs = (Ok false, fs).
Proof.
  unfold split_teams.split_teams_file, catch, bind, files.read_file, files.parse.
  intros [H | (content & H & Hbad)]; rewrite H; cbn [ret raise]; [reflexivity|].
  destruct (files.json_loads sys content) as [[ | b | n | s | l | d]|];
    cbn [ret raise]; try reflexivity; contradiction.
Qed.

Lemma split_rejects_bad_input_witness :
  split_teams.split_teams_file files.toy (py "en/teams.json") (py "en/teams")
    (<[py "en/teams.json" := py "{}"]> ∅)
  = (Ok false, <[py "en/teams.json" := py "{}"]> ∅).
Proof.
  apply split_rejects_bad_input. right. exists (py "{}").
  split; [apply lookup_insert_eq | exact I].
Defined.

(** X11. After a split that returned, a team that is an object with a
    non-empty string [killteamId], whose path can be opened for writing
    and is not used again by a later team of the array, is found in its
    own file exactly as it was in the array when it holds no lone
    surrogate; when it holds one, [json.dump] raised after the file was
    opened and the team's file is left cut off.  The split returns
    [True] either way. *)
Theorem split_saves_team
    (sys : files.io) (fs fs' : gmap pystr pystr)
    (source_file output_dir content : pystr)
    (before after : list json) (team : json) (id : pystr) (ok : bool) :
  fs !! source_file = Some content ->
  files.json_loads sys content = Some (JArr (before ++ team :: after)) ->
  split_teams.names_team team id ->
  files.writable sys (split_teams.output_file output_dir id) = true ->
  (forall later id', In later after -> split_teams.names_team later id' ->
     split_teams.output_file output_dir id'
     <> split_teams.output_file output_dir id) ->
  split_teams.split_teams_file sys source_file output_dir fs = (Ok ok, fs') ->
  ok = true
  /\ fs' !! split_teams.output_file output_dir id
     = Some (if encodable team then files.json_dumps sys team
             else files.cut_off sys team).
Proof.
  intros Hfile Hjson Hteam Hw Hlater H.
  unfold split_teams.split_teams_file, catch, files.read_file, files.parse in H.
  unfold bind at 1 2 3 in H. rewrite Hfile in H. cbn [ret] in H.
  rewrite Hjson in H. cbn [ret] in H.
  apply bind_ok_inv in H. destruct H as (saved & fs2 & Hloop & H).
  unfold ret in H. injection H as <- <-. split; [reflexivity|].
  rewrite foldM_app_run in Hloop. apply bind_ok_inv in Hloop.
  destruct Hloop as (n1 & fs1 & _ & Hloop).
  cbn [foldM] in Hloop. apply bind_ok_inv in Hloop.
  destruct Hloop as (n2 & fs3 & Hsave & Hrest).
  rewrite (save_team_writes sys output_dir n1 team id fs1 Hteam Hw) in Hsave.
  rewrite (loop_frame sys output_dir after _ Hlater _ _ _ _ Hrest).
  destruct (encodable team); injection Hsave as _ <-; apply lookup_insert_eq.
Qed.

Lemma split_saves_team_witness :
  exists fs' : gmap pystr pystr,
    split_teams.split_teams_file
      (examples.one_doc (py "x")
         (JArr [JNull; JObj [(py "killteamId", JStr (py "IMP/AOD"))]])
         examples.leaves)
      (py "en/teams.json") (py "en/teams") (<[py "en/teams.json" := py "x"]> ∅)
    = (Ok true, fs')
    /\ fs' !! (py "en/teams/IMP_AOD.json") = Some (py "IMP/AOD").
Proof.
  eexists. split; [vm_compute; reflexivity|].
  apply (split_saves_team
           (examples.one_doc (py "x")
              (JArr [JNull; JObj [(py "killteamId", JStr (py "IMP/AOD"))]])
              examples.leaves)
           (<[py "en/teams.json" := py "x"]> ∅) _
           (py "en/teams.json") (py "en/teams") (py "x")
           [JNull] [] (JObj [(py "killteamId", JStr (py "IMP/AOD"))])
           (py "IMP/AOD") true).
  - apply lookup_insert_eq.
  - reflexivity.
  - eexists. split; [reflexivity|]. split; [reflexivity | discriminate].
  - reflexivity.
  - intros later id' [].
  - vm_compute. reflexivity.
Defined.

(** X12. Whenever [split_teams_file] returns, a path that is not the
    output path of a team of the array is as it was; so the source and
    every file outside the output directory are never touched. *)
Theorem split_frame
    (sys : files.io) (fs fs' : gmap pystr pystr)
    (source_file output_dir path : pystr) (ok : bool) :
  split_teams.split_teams_file sys source_file output_dir fs = (Ok ok, fs') ->
  (forall id, split_teams.output_file output_dir id <> path) ->
  fs' !! path = fs !! path.
Proof.
  intros H Hpath.
  unfold split_teams.split_teams_file, catch, files.read_file, files.parse in H.
  unfold bind at 1 2 3 in H.
  destruct (fs !! source_file) as [content|]; cbn [ret raise] in H;
    [|unfold ret in H; congruence].
  destruct (files.json_loads sys content) as [[ | b | n | s | l | d]|];
    cbn [ret raise] in H; try (unfold ret in H; congruence).
  apply bind_ok_inv in H. destruct H as (saved & fs2 & Hloop & H).
  unfold ret in H. injection H as _ <-.
  apply (loop_frame sys output_dir l path (fun _ id _ _ => Hpath id) _ _ _ _ Hloop).
Qed.

Lemma split_frame_witness :
  exists (ok : bool) (fs' : gmap pystr pystr),
    split_teams.split_teams_file
      (examples.one_doc (py "x")
         (JArr [JObj [(py "killteamId", JStr (py "IMP/AOD"))]]) examples.width)
      (py "en/teams.json") (py "en/teams") (<[py "en/teams.json" := py "x"]> ∅)
    = (Ok ok, fs')
    /\ fs' !! (py "en/teams.json") = Some (py "x").
Proof.
  eexists _, _. split; [vm_compute; reflexivity|].
  rewrite (split_frame
             (examples.one_doc (py "x")
                (JArr [JObj [(py "killteamId", JStr (py "IMP/AOD"))]]) examples.width)
             (<[py "en/teams.json" := py "x"]> ∅) _
             (py "en/teams.json") (py "en/teams") (py "en/teams.json") true).
  - apply lookup_insert_eq.
  - vm_compute. reflexivity.
  - intros id H. unfold split_teams.output_file in H. cbv [py List.map
      list_ascii_of_string app] in H. discriminate.
Defined.

(** ** translate_batch.py: batches and requests *)

Lemma bind_exn {S A B : Type} (m : M S A) (k : A -> M S B) (s s1 : S) :
  m s = (Exn, s1) -> bind m k s = (Exn, s1).
Proof. unfold bind. intros ->. reflexivity. Qed.

Lemma bind_assoc_run {S A B C : Type} (m : M S A) (k : A -> M S B)
    (h : B -> M S C) (s : S) :
  bind (bind m k) h s = bind m (fun a => bind (k a) h) s.
Proof. unfold bind. destruct (m s) as [[a|] s1]; reflexivity. Qed.

Lemma bind_ret_run {S A B : Type} (a : A) (k : A -> M S B) (s : S) :
  bind (ret a) k s = k a s.
Proof. reflexivity. Qed.

Lemma bind_ext_run {S A B : Type} (m : M S A) (k k' : A -> M S B) (s : S) :
  (forall a s1, k a s1 = k' a s1) -> bind m k s = bind m k' s.
Proof. intros H. unfold bind. destruct (m s) as [[a|] s1]; [apply H | reflexivity]. Qed.

Section Batches.
Import translate_batch batch_spec.
Variable net : gtx.network.
Variables lang src : pystr.

Local Abbreviation finish st :=
  (match current_batch st with
   | [] => ret (results st)
   | _ :: _ => let* lines := send net lang src (current_batch st) in
               ret (results st ++ lines)
   end).

(** The loop and the last batch, as one pass over the batches. *)
Lemma loop_is_batches (texts : list pystr) :
  forall (st : loop_state) (n : nat),
    (let* st' := foldM (step net lang src) texts st in finish st') n
    = (let* lines := mapM (send net lang src)
                          (batches_from texts (current_batch st) (current_size st)) in
       ret (results st ++ concat lines)) n.
Proof.
  induction texts as [|text texts IH]; intros st n.
  - cbn [foldM batches_from]. rewrite bind_ret_run.
    destruct (current_batch st) as [|c cb].
    + cbn [mapM]. unfold bind, ret. cbn [concat]. rewrite app_nil_r.
      reflexivity.
    + cbn [mapM]. rewrite bind_assoc_run. apply bind_ext_run. intros lines n1.
      unfold bind, ret. cbn [concat]. rewrite app_nil_r. reflexivity.
  - cbn [foldM batches_from]. unfold step at 1.
    destruct (Nat.ltb max_chars (current_size st + List.length text * 2)
              && match current_batch st with [] => false | _ :: _ => true end).
    + cbn [mapM]. rewrite !bind_assoc_run. apply bind_ext_run. intros lines n1.
      rewrite bind_ret_run, IH. cbn [results current_batch current_size].
      rewrite bind_assoc_run. apply bind_ext_run. intros bs n2.
      unfold bind, ret. cbn [concat]. rewrite app_assoc. reflexivity.
    + rewrite bind_assoc_run, bind_ret_run, IH. reflexivity.
Qed.
End Batches.

Section BatchFacts.
Import translate_batch batch_spec.

Lemma batches_concat (texts : list pystr) :
  forall cb sz, concat (batches_from texts cb sz) = cb ++ texts.
Proof.
  induction texts as [|text texts IH]; intros cb sz; cbn [batches_from].
  - destruct cb; cbn; rewrite ?app_nil_r; reflexivity.
  - destruct (Nat.ltb _ _ && _).
    + cbn [concat]. rewrite IH. reflexivity.
    + rewrite IH, <- app_assoc. reflexivity.
Qed.

Lemma batches_nonempty (texts : list pystr) :
  forall cb sz, Forall (fun b => b <> []) (batches_from texts cb sz).
Proof.
  induction texts as [|text texts IH]; intros cb sz; cbn [batches_from].
  - destruct cb; constructor; [discriminate | constructor].
  - destruct cb as [|c cb]; cbn [andb].
    + rewrite andb_false_r. apply IH.
    + destruct (Nat.ltb _ _ && true); [constructor; [discriminate | apply IH] | apply IH].
Qed.

Lemma charged_app (b1 b2 : list pystr) :
  charged (b1 ++ b2) = (charged b1 + charged b2)%nat.
Proof.
  unfold charged. rewrite List.map_app, list_sum_app. reflexivity.
Qed.

Lemma charged_one (text : pystr) : charged [text] = (List.length text * 2)%nat.
Proof. unfold charged, list_sum. cbn [List.map fold_right]. lia. Qed.

Lemma batches_budget (texts : list pystr) :
  forall cb sz,
    sz = charged cb ->
    cb = [] \/ within_budget cb ->
    Forall within_budget (batches_from texts cb sz).
Proof.
  induction texts as [|text texts IH]; intros cb sz Hsz Hcb; cbn [batches_from].
  - destruct cb as [|c cb]; [constructor|].
    constructor; [|constructor]. destruct Hcb as [Hcb | Hcb]; [discriminate | exact Hcb].
  - destruct (Nat.ltb max_chars (sz + List.length text * 2)) eqn:Hlt;
      destruct cb as [|c cb]; cbn [andb].
    + apply IH; [subst sz; rewrite charged_app, charged_one; reflexivity|].
      right. right. exists text. reflexivity.
    + constructor.
      * destruct Hcb as [Hcb | Hcb]; [discriminate | exact Hcb].
      * apply IH; [symmetry; apply charged_one |].
        right. right. exists text. reflexivity.
    + apply IH; [subst sz; rewrite charged_app, charged_one; reflexivity|].
      right. right. exists text. reflexivity.
    + apply IH.
      * subst sz. rewrite charged_app, charged_one. reflexivity.
      * right. left. apply Nat.ltb_ge in Hlt.
        rewrite charged_app, charged_one. lia.
Qed.

Lemma batches_length (texts : list pystr) :
  forall cb sz,
    (List.length (batches_from texts cb sz)
     <= List.length texts + match cb with [] => 0 | _ => 1 end)%nat.
Proof.
  induction texts as [|text texts IH]; intros cb sz; cbn [batches_from].
  - destruct cb; cbn; lia.
  - destruct cb as [|c cb]; cbn [andb].
    + rewrite andb_false_r. specialize (IH ([] ++ [text]) (sz + List.length text * 2)%nat).
      cbn in IH |- *. lia.
    + destruct (Nat.ltb _ _ && true).
      * specialize (IH [text] (List.length text * 2)%nat). cbn in IH |- *. lia.
      * specialize (IH ((c :: cb) ++ [text]) (sz + List.length text * 2)%nat).
        cbn in IH |- *. lia.
Qed.

Variable net : gtx.network.
Variables lang src : pystr.

Lemma translate_batch_unfolds (texts : list pystr) (n : nat) :
  translate_batch net lang src texts n
  = catch
      (let* _ := gtx.import_requests net in
       let* lines := mapM (send net lang src) (batches texts) in
       ret (firstn (List.length texts)
              (pad (List.length texts) (concat lines))))
      (ret texts) n.
Proof.
  assert (Hbody : forall m,
    (let* st := foldM (step net lang src) texts
                  {| results := []; current_batch := []; current_size := 0 |} in
     let* rs :=
       (match current_batch st with
        | [] => ret (results st)
        | _ :: _ => let* lines := send net lang src (current_batch st) in
                    ret (results st ++ lines)
        end) in
     ret (firstn (List.length texts) (pad (List.length texts) rs))) m
    = (let* lines := mapM (send net lang src) (batches texts) in
       ret (firstn (List.length texts)
              (pad (List.length texts) (concat lines)))) m).
  { intros m.
    pose proof (loop_is_batches net lang src texts
                  {| results := []; current_batch := []; current_size := 0 |} m)
      as H.
    cbn [results current_batch current_size app] in H. fold (batches texts) in H.
    unfold bind at 1 in H. unfold bind at 1.
    destruct (foldM (step net lang src) texts _ m) as [[st|] m1].
    - unfold bind at 1. rewrite H. unfold bind, ret.
      destruct (mapM _ _ m) as [[ls|] m2]; reflexivity.
    - unfold bind, ret in H |- *.
      destruct (mapM _ _ m) as [[ls|] m2]; [discriminate | exact H]. }
  unfold translate_batch, catch.
  match goal with
  | |- (let (_, _) := ?a in _) = (let (_, _) := ?b in _) =>
      replace a with b; [reflexivity|]
  end.
  symmetry. apply bind_ext_run. intros _ m. apply Hbody.
Qed.
End BatchFacts.

(** X13. [translate_batch] sends the texts as a sequence of batches that
    partitions them in order: no batch is empty, the batches put end to
    end are the texts, and every batch is charged at most [max_chars]
    (twice its characters) unless it is a single text that alone exceeds
    the budget.  The result is the lines of the answers, padded or cut to
    the number of texts. *)
Theorem translate_batch_batches
    (net : gtx.network) (target_lang source_lang : pystr)
    (texts : list pystr) (n : nat) :
  translate_batch.translate_batch net target_lang source_lang texts n
  = catch
      (let* _ := gtx.import_requests net in
       let* lines := mapM (translate_batch.send net target_lang source_lang)
                          (batch_spec.batches texts) in
       ret (firstn (List.length texts)
              (translate_batch.pad (List.length texts) (concat lines))))
      (ret texts) n
  /\ concat (batch_spec.batches texts) = texts
  /\ Forall (fun batch => batch <> []) (batch_spec.batches texts)
  /\ Forall batch_spec.within_budget (batch_spec.batches texts).
Proof.
  split; [apply translate_batch_unfolds|].
  split; [apply (batches_concat texts [] 0%nat)|].
  split; [apply batches_nonempty|].
  apply batches_budget; [reflexivity | left; reflexivity].
Qed.

Section BatchRequests.
Import translate_batch batch_spec.
Variable net : gtx.network.
Variables lang src : pystr.

Lemma batch_translate_text_requests (text : pystr) (n : nat) :
  (n <= snd (translate_text net text lang src n) <= n + 1)%nat.
Proof.
  unfold translate_text.
  destruct (negb (str_truthy text) || negb (str_truthy (strip text)));
    [cbn; lia|].
  unfold catch, bind, gtx.import_requests.
  destruct (gtx.have_requests net); cbn [ret raise]; [|cbn; lia].
  pose proof (request_counts net text lang n) as C.
  destruct (gtx.request net text lang n) as [[[t|]|] n1]; cbn in C |- *; lia.
Qed.

Lemma send_requests (batch : list pystr) (n : nat) :
  (n <= snd (send net lang src batch n) <= n + 1)%nat.
Proof.
  unfold send, bind.
  pose proof (batch_translate_text_requests (join [newline] batch) n) as C.
  destruct (translate_text net (join [newline] batch) lang src n) as [[t|] n1];
    exact C.
Qed.

Lemma sends_requests (l : list (list pystr)) :
  forall n,
    (n <= snd (mapM (send net lang src) l n) <= n + List.length l)%nat.
Proof.
  induction l as [|b l IH]; intros n; [cbn; lia|].
  cbn [mapM List.length].
  pose proof (send_requests b n) as C.
  destruct (send net lang src b n) as [[lines|] n1] eqn:E; cbn [snd] in C.
  - rewrite (bind_ok _ _ _ _ _ E). specialize (IH n1).
    destruct (mapM (send net lang src) l n1) as [[ls|] n2] eqn:El;
      cbn [snd] in IH.
    + rewrite (bind_ok _ _ _ _ _ El). unfold ret. cbn [snd]. lia.
    + rewrite (bind_exn _ _ _ _ El). cbn [snd]. lia.
  - rewrite (bind_exn _ _ _ _ E). cbn [snd]. lia.
Qed.

Lemma batch_requests (texts : list pystr) (n : nat) :
  (n <= snd (translate_batch net lang src texts n) <= n + List.length texts)%nat.
Proof.
  rewrite translate_batch_unfolds. unfold catch, bind, gtx.import_requests.
  destruct (gtx.have_requests net); cbn [ret raise]; [|cbn; lia].
  pose proof (sends_requests (batches texts) n) as C.
  pose proof (batches_length texts [] 0%nat) as L. fold (batches texts) in L.
  destruct (mapM (send net lang src) (batches texts) n) as [[ls|] n1];
    unfold ret; cbn [snd List.length] in C, L |- *; lia.
Qed.
End BatchRequests.

(** X14. A run of [translate_batch] sends at most one request per text,
    and none for an empty list: the count of requests after the call lies
    between the count before and that count plus the number of texts. *)
Theorem translate_batch_requests
    (net : gtx.network) (target_lang source_lang : pystr)
    (texts : list pystr) (n : nat) :
  (n <= snd (translate_batch.translate_batch net target_lang source_lang texts n)
   <= n + List.length texts)%nat.
Proof. apply batch_requests. Qed.

(** ** translate_batch.py: the round trip *)

Section BatchAnswers.
Import translate_batch batch_spec.
Variable net : gtx.network.
Variables lang src : pystr.


End BatchAnswers.




(** ** translate_precise.py: files and fields out of scope *)

Section PreciseScope.
Import translation_config translate_precise.
Context {S : Type}.
Variable rules_table : list (pystr * rule).
Variable translate_text : pystr -> pystr -> M S pystr.
Variables file_name target_lang : pystr.

Local Abbreviation walk :=
  (translate_value rules_table translate_text file_name target_lang).

Lemma precise_nothing_in_scope (value : json) :
  (forall path name, in_scope rules_table file_name path name = false) ->
  forall field_name field_path s,
    walk value field_name field_path s = (Ok value, s).
Proof.
  intros Hout.
  induction value as [ | b | n | str | l IH | kvs IH] using json_ind';
    intros field_name field_path s; cbn [translate_value]; try reflexivity.
  - rewrite Hout. reflexivity.
  - destruct l as [|first l]; [reflexivity|].
    assert (Hrec : forall path s,
      (let* items' := mapM (fun item => walk item [] path) (first :: l) in
       ret (JArr items')) s = (Ok (JArr (first :: l)), s)).
    { intros path s0. erewrite bind_ok; [reflexivity|].
      apply mapM_id. intros x Hx s1. rewrite List.Forall_forall in IH.
      apply (IH x Hx). }
    destruct first as [ | b | n | str | l' | kvs']; try apply Hrec.
    rewrite Hout. reflexivity.
  - erewrite bind_ok; [reflexivity|].
    apply mapM_id. intros [k v] Hx s1. rewrite List.Forall_forall in IH.
    pose proof (IH (k, v) Hx k (extend field_path field_name) s1) as E.
    cbn [snd] in E. rewrite (bind_ok _ _ _ _ _ E). reflexivity.
Qed.

Lemma precise_identity (value : json) :
  (forall t l s r s', translate_text t l s = (Ok r, s') -> r = t) ->
  forall field_name field_path s r s',
    walk value field_name field_path s = (Ok r, s') -> r = value.
Proof.
  intros Hid.
  induction value as [ | b | n | str | l IH | kvs IH] using json_ind';
    intros field_name field_path s r s' H; cbn [translate_value] in H;
    try (unfold ret in H; congruence).
  - destruct (in_scope rules_table file_name field_path field_name
              && str_truthy (strip str)); [|unfold ret in H; congruence].
    unfold catch in H.
    destruct (bind (translate_text str target_lang) (fun t => ret (JStr t)) s)
      as [[a|] s1] eqn:E; [|unfold ret in H; congruence].
    injection H as <- _. apply bind_ok_inv in E.
    destruct E as (t & s2 & Ht & E). unfold ret in E. injection E as <- _.
    rewrite (Hid _ _ _ _ _ Ht). reflexivity.
  - destruct l as [|first l]; [unfold ret in H; congruence|].
    assert (Hrec : forall path s r s',
      (let* items' := mapM (fun item => walk item [] path) (first :: l) in
       ret (JArr items')) s = (Ok r, s') -> r = JArr (first :: l)).
    { clear H. intros path s0 r0 s0' H. apply bind_ok_inv in H.
      destruct H as (items' & s1 & Hm & H). unfold ret in H. injection H as <- _.
      f_equal. rewrite <- (List.map_id items'), <- (List.map_id (first :: l)).
      eapply (mapM_ok _ (fun x => x) (fun x => x)); [|exact Hm].
      intros x Hx s2 r2 s2' Hw. rewrite List.Forall_forall in IH.
      exact (IH x Hx _ _ _ _ _ Hw). }
    destruct first as [ | b | n | str | l' | kvs']; try exact (Hrec _ _ _ _ H).
    destruct (in_scope rules_table file_name field_path field_name);
      [|unfold ret in H; congruence].
    apply bind_ok_inv in H. destruct H as (items' & s1 & Hm & H).
    unfold ret in H. injection H as <- _. f_equal.
    rewrite <- (List.map_id items'), <- (List.map_id (JStr str :: l)).
    eapply (mapM_ok _ (fun x => x) (fun x => x)); [|exact Hm].
    intros x _ s2 r2 s2' Hw. unfold translate_item in Hw.
    destruct x as [ | | | t | | ]; try (unfold raise in Hw; discriminate).
    destruct (str_truthy (strip t)); [|unfold ret in Hw; congruence].
    apply bind_ok_inv in Hw. destruct Hw as (t' & s3 & Ht & Hw).
    unfold ret in Hw. injection Hw as <- _. rewrite (Hid _ _ _ _ _ Ht). reflexivity.
  - apply bind_ok_inv in H. destruct H as (kvs' & s1 & Hm & H).
    unfold ret in H. injection H as <- _. f_equal.
    rewrite <- (List.map_id kvs'), <- (List.map_id kvs).
    eapply (mapM_ok _ (fun x => x) (fun x => x)); [|exact Hm].
    intros [k v] Hx s2 [k2 v2] s2' Hw.
    apply bind_ok_inv in Hw. destruct Hw as (v' & s3 & Hv & Hw).
    unfold ret in Hw. injection Hw as <- <- _. f_equal.
    rewrite List.Forall_forall in IH. exact (IH (k, v) Hx _ _ _ _ _ Hv).
Qed.
End PreciseScope.

(** X15. For a file that resolves to no entry of the rule table, the
    walk of [translate_precise.py] returns the document as it is and
    never calls the leaf transform: unknown files are not changed. *)
Theorem precise_unknown_file_untouched {S : Type}
    (rules_table : list (pystr * translation_config.rule))
    (translate_text : pystr -> pystr -> M S pystr)
    (file_name target_lang : pystr) (value : json)
    (field_name : pystr) (field_path : list pystr) (s : S) :
  ~ In (translation_config.rules_key file_name) (List.map fst rules_table) ->
  translate_precise.translate_value rules_table translate_text file_name
    target_lang value field_name field_path s
  = (Ok value, s).
Proof.
  intros Hfile. apply precise_nothing_in_scope. intros path name.
  unfold translate_precise.in_scope,
    translation_config.should_translate_field_in.
  rewrite (rule_get_absent _ _ Hfile). reflexivity.
Qed.

Lemma precise_unknown_file_untouched_witness :
  translate_precise.translate_value translation_config.TRANSLATION_RULES mark
    (py "notes.json") (py "es")
    (JObj [(py "name", JStr (py "Shoot"))]) [] [] []
  = (Ok (JObj [(py "name", JStr (py "Shoot"))]), []).
Proof.
  apply precise_unknown_file_untouched.
  intros H. vm_compute in H. intuition discriminate.
Defined.

(** X16. With a leaf transform that returns its text, whatever else it
    does, the walk of [translate_precise.py] returns the document it was
    given: keys, order and every scalar. *)
Theorem precise_walk_identity {S : Type}
    (rules_table : list (pystr * translation_config.rule))
    (translate_text : pystr -> pystr -> M S pystr)
    (file_name target_lang : pystr) (value : json)
    (field_name : pystr) (field_path : list pystr) (s : S) (r : json) (s' : S) :
  (forall t l s0 r0 s1, translate_text t l s0 = (Ok r0, s1) -> r0 = t) ->
  translate_precise.translate_value rules_table translate_text file_name
    target_lang value field_name field_path s = (Ok r, s') ->
  r = value.
Proof. intros Hid H. eapply precise_identity; eassumption. Qed.

Lemma precise_walk_identity_witness :
  JObj [(py "name", JStr (py "Shoot"))] = JObj [(py "name", JStr (py "Shoot"))].
Proof.
  apply (precise_walk_identity translation_config.TRANSLATION_RULES tally
           (py "weapon_rules.json") (py "es")
           (JObj [(py "name", JStr (py "Shoot"))]) (py "weapon_rules") [] 0%nat
           (JObj [(py "name", JStr (py "Shoot"))]) 1%nat).
  - intros t l s0 r0 s1 H. unfold tally in H. congruence.
  - vm_compute. reflexivity.
Defined.

(** ** translate_fast.py: field names stay *)

Section FastShape.
Import translate_fast.
Context {S : Type}.
Variable translate_func : pystr -> pystr -> M S pystr.
Variable translate_other : json -> pystr -> M S json.
Variable target_lang : pystr.
Hypothesis other_is_leaf :
  forall item lang s r s',
    shape_of item = SLeaf ->
    translate_other item lang s = (Ok r, s') -> shape_of r = SLeaf.

Local Abbreviation walk :=
  (translate_value_recursive translate_func translate_other target_lang).

Lemma fast_nonblank_shape (item : json) (s : S) (r : json) (s' : S) :
  translate_nonblank translate_func target_lang item s = (Ok r, s') ->
  shape_of r = shape_of item.
Proof.
  destruct item as [ | b | n | str | l | kvs]; simpl; try discriminate.
  destruct (str_truthy (strip str)).
  - intros H. apply bind_ok_inv in H. destruct H as (t & s1 & _ & H).
    unfold ret in H. injection H as <- _. reflexivity.
  - unfold ret. intros [= <- _]. reflexivity.
Qed.

Lemma fast_archetype_shape (item : json) (s : S) (r : json) (s' : S) :
  translate_archetype translate_func translate_other target_lang item s
  = (Ok r, s') ->
  shape_of r = shape_of item.
Proof.
  destruct item as [ | b | n | str | l | kvs]; unfold translate_archetype;
    intros H; apply bind_ok_inv in H; destruct H as (t & s1 & Ht & H);
    try (unfold raise in H; discriminate).
  1-3: unfold ret in H; injection H as <- _;
       eapply other_is_leaf in Ht; [exact Ht | reflexivity].
  destruct (assoc target_lang archetype_map) as [table|].
  - destruct (assoc str table); cbv beta delta [ret] in H;
      injection H as <- _; reflexivity.
  - cbv beta delta [ret] in H. injection H as <- _. reflexivity.
Qed.

Lemma fast_shape (value : json) :
  forall field_name s r s',
    walk value field_name s = (Ok r, s') -> shape_of r = shape_of value.
Proof.
  induction value as [ | b | n | str | l IH | kvs IH] using json_ind';
    intros field_name s r s' H; cbn [translate_value_recursive] in H;
    try (unfold ret in H; injection H as <- _; reflexivity).
  - assert (Hstr : exists t, r = JStr t).
    { destruct (str_in field_name TRANSLATABLE
                || negb (str_in field_name NON_TRANSLATABLE) && str_truthy (strip str));
        [|unfold ret in H; injection H as <- _; eexists; reflexivity].
      destruct (endswith_any _ _);
        [unfold ret in H; injection H as <- _; eexists; reflexivity|].
      destruct (str_truthy (strip str));
        [|unfold ret in H; injection H as <- _; eexists; reflexivity].
      unfold catch in H.
      destruct (bind (translate_func str target_lang) (fun t => ret (JStr t)) s)
        as [[a|] s1] eqn:E.
      - injection H as <- _. apply bind_ok_inv in E.
        destruct E as (t & s2 & _ & E). unfold ret in E. injection E as <- _.
        eexists; reflexivity.
      - unfold ret in H. injection H as <- _. eexists; reflexivity. }
    destruct Hstr as (t & ->). reflexivity.
  - destruct l as [|first l]; [unfold ret in H; injection H as <- _; reflexivity|].
    assert (Hrec : forall s r s',
      (let* items' := mapM (fun item => walk item field_name) (first :: l) in
       ret (JArr items')) s = (Ok r, s') ->
      shape_of r = shape_of (JArr (first :: l))).
    { clear H. intros s0 r0 s0' H. apply bind_ok_inv in H.
      destruct H as (items' & s1 & Hm & H). unfold ret in H. injection H as <- _.
      cbn [shape_of]. f_equal.
      eapply (mapM_ok _ shape_of shape_of); [|exact Hm].
      intros x Hx s2 r2 s2' Hw. rewrite List.Forall_forall in IH.
      exact (IH x Hx _ _ _ _ Hw). }
    assert (Hvia : forall f : json -> M S json,
      (forall x (s : S) r s', f x s = (Ok r, s') -> shape_of r = shape_of x) ->
      forall (s : S) r s',
        (let* items' := mapM f (first :: l) in ret (JArr items')) s = (Ok r, s') ->
        shape_of r = shape_of (JArr (first :: l))).
    { clear H. intros f Hf s0 r0 s0' H. apply bind_ok_inv in H.
      destruct H as (items' & s1 & Hm & H). unfold ret in H. injection H as <- _.
      cbn [shape_of]. f_equal.
      eapply (mapM_ok _ shape_of shape_of); [|exact Hm].
      intros x _ s2 r2 s2' Hw. exact (Hf _ _ _ _ Hw). }
    destruct first as [ | b | n | str | l' | kvs']; try exact (Hrec _ _ _ H).
    destruct (str_in field_name [py "effects"; py "conditions"; py "packs"]).
    { exact (Hvia _ fast_nonblank_shape _ _ _ H). }
    destruct (str_eqb field_name (py "archetypes")).
    { exact (Hvia _ fast_archetype_shape _ _ _ H). }
    destruct (str_truthy (strip str)).
    { exact (Hvia _ fast_nonblank_shape _ _ _ H). }
    exact (Hrec _ _ _ H).
  - apply bind_ok_inv in H. destruct H as (kvs' & s1 & Hm & H).
    unfold ret in H. injection H as <- _. cbn [shape_of]. f_equal.
    eapply (mapM_ok _ (fun kv => (fst kv, shape_of (snd kv)))
                      (fun kv => (fst kv, shape_of (snd kv)))); [|exact Hm].
    intros [k v] Hx s2 [k2 v2] s2' Hw.
    apply bind_ok_inv in Hw. destruct Hw as (v' & s3 & Hv & Hw).
    unfold ret in Hw. injection Hw as <- <- _. simpl. f_equal.
    rewrite List.Forall_forall in IH. exact (IH (k, v) Hx _ _ _ _ Hv).
Qed.
End FastShape.

(** X17. Whenever the walk of [translate_fast.py] returns, the document
    returned has the shape of the input -- field names stay as they are,
    in their order, and every array keeps its length -- for every target
    language and every leaf transform that gives a string for a string
    and, for a [None], a [bool] or a number in an [archetypes] array,
    nothing that is a list or a dict -- as the script's own
    [translate_text] does, which returns such an item when it is falsy
    and raises on any other. *)
Theorem fast_walk_preserves_shape {S : Type}
    (translate_func : pystr -> pystr -> M S pystr)
    (translate_other : json -> pystr -> M S json)
    (target_lang : pystr) (value : json) (field_name : pystr)
    (s : S) (r : json) (s' : S) :
  (forall item lang s0 r0 s1,
     shape_of item = SLeaf ->
     translate_other item lang s0 = (Ok r0, s1) -> shape_of r0 = SLeaf) ->
  translate_fast.translate_value_recursive translate_func translate_other
    target_lang value field_name s = (Ok r, s') ->
  shape_of r = shape_of value.
Proof. intros Hother. apply fast_shape. exact Hother. Qed.

Lemma fast_walk_preserves_shape_witness :
  shape_of (JObj [(py "archetypes", JArr [JStr (py "Reconocimiento"); JNull]);
                  (py "id", JStr (py "a1"))])
  = shape_of (JObj [(py "archetypes", JArr [JStr (py "Recon"); JNull]);
                    (py "id", JStr (py "a1"))]).
Proof.
  apply (fast_walk_preserves_shape shout translate_fast.translate_text_other
           (py "es")
           (JObj [(py "archetypes", JArr [JStr (py "Recon"); JNull]);
                  (py "id", JStr (py "a1"))]) [] tt
           (JObj [(py "archetypes", JArr [JStr (py "Reconocimiento"); JNull]);
                  (py "id", JStr (py "a1"))]) tt).
  - intros item lang s0 r0 s1 Hleaf H.
    unfold translate_fast.translate_text_other in H.
    destruct (truthy item); [discriminate|].
    unfold ret in H. injection H as <- _. exact Hleaf.
  - vm_compute. reflexivity.
Defined.

(** ** translation_config.py: only what the table lists *)

(** X18. The classifier of [translation_config.py] is an allow list:
    when the value it returns is true -- a flag that is set, or a
    non-empty nested table -- the ancestor path leads, segment by
    segment, to a table of the file's rules and the field name is a key
    of that table, whose value is what was returned. *)
Theorem classifier_allow_list
    (rules_table : list (pystr * translation_config.rule))
    (file_name : pystr) (field_path : list pystr) (field_name : pystr) :
  translation_config.rule_truthy
    (translation_config.should_translate_field_in
       rules_table file_name field_path field_name) = true ->
  exists root entries,
    translation_config.rule_get (translation_config.rules_key file_name)
      rules_table = Some root
    /\ translation_config.leads_to root field_path
         (translation_config.RDict entries)
    /\ translation_config.rule_get field_name entries
       = Some (translation_config.should_translate_field_in
                 rules_table file_name field_path field_name).
Proof.
  unfold translation_config.should_translate_field_in.
  destruct (translation_config.rule_get _ rules_table) as [root|];
    [|discriminate].
  destruct (translation_config.navigate root field_path) as [node|] eqn:Hnav;
    [|discriminate].
  destruct node as [b|entries]; [discriminate|].
  destruct (translation_config.rule_get field_name entries) as [v|] eqn:Hget;
    [|discriminate].
  intros _. exists root, entries. split; [reflexivity|].
  split; [apply navigate_leads; exact Hnav | exact Hget].
Qed.

Lemma classifier_allow_list_witness :
  exists root entries,
    translation_config.rule_get
      (translation_config.rules_key (py "teams/IMP-AOD.json"))
      translation_config.TRANSLATION_RULES = Some root
    /\ translation_config.leads_to root [py "opTypes"; py "weapons"]
         (translation_config.RDict entries)
    /\ translation_config.rule_get (py "wepName") entries
       = Some (translation_config.should_translate_field_in
                 translation_config.TRANSLATION_RULES (py "teams/IMP-AOD.json")
                 [py "opTypes"; py "weapons"] (py "wepName")).
Proof.
  apply classifier_allow_list. vm_compute. reflexivity.
Defined.

(** ** translate_comprehensive.py: the Google adapter *)

(** X19. [translate_google_translate] raises exactly when the [requests]
    package is missing.  Otherwise it sends exactly one request, blank
    text included and without a retry, and returns a string; when the
    attempt fails the string is the original text. *)
Theorem google_translate_outcome
    (net : gtx.network) (text target_lang : pystr) (n : nat) :
  (gtx.have_requests net = false ->
   google_adapter.translate_google_translate net text target_lang n = (Exn, n))
  /\ (gtx.have_requests net = true ->
      exists t,
        google_adapter.translate_google_translate net text target_lang n
        = (Ok t, S n)
        /\ (gtx.failed_attempt (gtx.requests_get net n text target_lang) ->
            t = text)).
Proof.
  unfold google_adapter.translate_google_translate. split; intros ->.
  - reflexivity.
  - unfold catch, bind.
    pose proof (request_counts net text target_lang n) as C.
    destruct (gtx.request net text target_lang n) as [[[t|]|] n1] eqn:E;
      cbn [snd] in C; subst n1; cbn [ret].
    + exists t. split; [reflexivity|]. intros Hfail.
      destruct (request_failed net text target_lang n Hfail) as [F | F];
        rewrite F in E; discriminate.
    + exists text. split; reflexivity.
    + exists text. split; reflexivity.
Qed.

(** ** translate_to_spanish.py: the structure copy *)

Lemma res_mapM_id {A : Type} (f : A -> res A) (l : list A) :
  (forall x, In x l -> f x = Ok x) -> res_mapM f l = Ok l.
Proof.
  induction l as [|a l IH]; intros Hf; [reflexivity|].
  simpl. rewrite (Hf a (or_introl eq_refl)). simpl.
  rewrite (IH (fun x Hx => Hf x (or_intror Hx))). reflexivity.
Qed.

Lemma res_mapM_fixed_in {A : Type} (f : A -> res A) (l l' : list A) :
  (forall x y, In x l -> f x = Ok y -> f y = Ok y) ->
  res_mapM f l = Ok l' -> res_mapM f l' = Ok l'.
Proof.
  revert l'. induction l as [|a l IH]; simpl; intros l' Hf H.
  - injection H as <-. reflexivity.
  - destruct (f a) as [b|] eqn:Ea; [|discriminate]. simpl in H.
    destruct (res_mapM f l) as [bs|] eqn:El; [|discriminate]. simpl in H.
    injection H as <-. simpl. rewrite (Hf a b (or_introl eq_refl) Ea). simpl.
    rewrite (IH bs (fun x y Hx => Hf x y (or_intror Hx)) eq_refl). reflexivity.
Qed.

Lemma res_mapM_head {A B : Type} (f : A -> res B) (a : A) (l : list A)
    (l' : list B) :
  res_mapM f (a :: l) = Ok l' ->
  exists b bs, l' = b :: bs /\ f a = Ok b /\ res_mapM f l = Ok bs.
Proof.
  simpl. destruct (f a) as [b|]; [|discriminate]. simpl.
  destruct (res_mapM f l) as [bs|]; [|discriminate]. simpl.
  intros [= <-]. exists b, bs. repeat split.
Qed.

Section Spanish.
Import translate_to_spanish.

(** The array branch, by what decides it. *)
Lemma spanish_array (items : list json) (field_name : pystr) :
  translate_value (JArr items) field_name
  = if match items with JStr _ :: _ => true | _ => false end
       && str_eqb field_name (py "archetypes")
    then res_bind (res_mapM translate_archetype items)
                  (fun items' => Ok (JArr items'))
    else res_bind (res_mapM (fun item => translate_value item field_name) items)
                  (fun items' => Ok (JArr items')).
Proof.
  cbn [translate_value].
  destruct items as [|[ | b | n | s | l | d] items]; cbn [andb]; reflexivity.
Qed.

Lemma spanish_keeps_strings (value r : json) (field_name : pystr) :
  translate_value value field_name = Ok r ->
  (is_str r <-> is_str value).
Proof.
  destruct value as [ | b | n | s | l | d].
  1-3: cbn; intros [= <-]; reflexivity.
  - cbn [translate_value]. destruct (str_in _ _); intros [= <-]; reflexivity.
  - rewrite spanish_array. destruct (_ && _);
      (destruct (res_mapM _ l); [|discriminate]); cbn; intros [= <-]; reflexivity.
  - cbn [translate_value]. destruct (res_mapM _ d); [|discriminate].
    cbn. intros [= <-]. reflexivity.
Qed.

Lemma archetype_keeps_strings (v r : json) :
  translate_archetype v = Ok r -> (is_str r <-> is_str v).
Proof.
  destruct v as [ | b | n | s | l | d]; unfold translate_archetype;
    try discriminate; try (intros [= <-]; reflexivity).
  destruct (translate_fast.assoc s archetype_translations);
    intros [= <-]; reflexivity.
Qed.

Lemma archetype_twice (v r : json) :
  translate_archetype v = Ok r -> translate_archetype r = Ok r.
Proof.
  destruct v as [ | b | n | s | l | d]; unfold translate_archetype at 1;
    try discriminate; try (intros [= <-]; reflexivity).
  destruct (translate_fast.assoc s archetype_translations) as [es|] eqn:E.
  - intros [= <-]. unfold archetype_translations in E. cbn [translate_fast.assoc] in E.
    repeat match type of E with
           | (if ?c then _ else _) = _ => destruct c
           end;
      try discriminate; injection E as <-; vm_compute; reflexivity.
  - intros [= <-]. unfold translate_archetype. rewrite E. reflexivity.
Qed.

Lemma head_is_str (a b : json) (l l' : list json) :
  (is_str b <-> is_str a) ->
  match b :: l' with JStr _ :: _ => true | _ => false end
  = match a :: l with JStr _ :: _ => true | _ => false end.
Proof.
  destruct a, b; cbn; intros [H1 H2]; try reflexivity;
    solve [exfalso; apply H1; exact I | exfalso; apply H2; exact I].
Qed.

Lemma spanish_twice (value : json) :
  forall field_name r,
    translate_value value field_name = Ok r ->
    translate_value r field_name = Ok r.
Proof.
  induction value as [ | b | n | s | l IH | kvs IH] using json_ind';
    intros field_name r H.
  1-3: cbn in H; injection H as <-; reflexivity.
  - cbn [translate_value] in H.
    destruct (str_in field_name translatable_fields); injection H as <-;
      cbn [translate_value]; destruct (str_in _ _); reflexivity.
  - rewrite spanish_array in H.
    destruct l as [|a l].
    { cbn in H. injection H as <-. reflexivity. }
    destruct (match a :: l with JStr _ :: _ => true | _ => false end
              && str_eqb field_name (py "archetypes")) eqn:Hsel.
    + destruct (res_mapM translate_archetype (a :: l)) as [l'|] eqn:Hl';
        [|discriminate].
      cbn in H. injection H as <-.
      destruct (res_mapM_head _ _ _ _ Hl') as (b & bs & -> & Hb & _).
      rewrite spanish_array.
      rewrite (head_is_str a b l bs (archetype_keeps_strings a b Hb)), Hsel.
      rewrite (res_mapM_fixed translate_archetype (a :: l) (b :: bs)
                 archetype_twice Hl').
      reflexivity.
    + destruct (res_mapM (fun item => translate_value item field_name) (a :: l))
        as [l'|] eqn:Hl'; [|discriminate].
      cbn in H. injection H as <-.
      destruct (res_mapM_head _ _ _ _ Hl') as (b & bs & -> & Hb & _).
      rewrite spanish_array.
      rewrite (head_is_str a b l bs (spanish_keeps_strings a b field_name Hb)), Hsel.
      rewrite (res_mapM_fixed_in _ (a :: l) (b :: bs)); [reflexivity | | exact Hl'].
      intros x y Hx Hxy. rewrite List.Forall_forall in IH. exact (IH x Hx _ _ Hxy).
  - cbn [translate_value] in H.
    destruct (res_mapM _ kvs) as [kvs'|] eqn:Hk; [|discriminate].
    cbn in H. injection H as <-. cbn [translate_value].
    rewrite (res_mapM_fixed_in _ kvs kvs'); [reflexivity | | exact Hk].
    intros [k v] [k' v'] Hx Hxy. cbn [fst snd] in Hxy |- *.
    destruct (translate_value v k) as [w|] eqn:Hw; [|discriminate].
    cbn in Hxy. injection Hxy as <- <-.
    rewrite List.Forall_forall in IH. rewrite (IH (k, v) Hx k w Hw). reflexivity.
Qed.

Lemma spanish_copy (value : json) :
  keys_avoid [py "archetypes"] value ->
  forall field_name,
    field_name <> py "archetypes" ->
    translate_value value field_name = Ok value.
Proof.
  induction value as [ | b | n | s | l IH | kvs IH] using json_ind';
    intros Hka field_name Hfn; try reflexivity.
  - cbn [translate_value]. destruct (str_in _ _); reflexivity.
  - inversion Hka as [ | | | | ? Hl | ]; subst.
    rewrite spanish_array.
    assert (E : str_eqb field_name (py "archetypes") = false)
      by (apply str_eqb_neq; exact Hfn).
    rewrite E, andb_false_r. rewrite res_mapM_id; [reflexivity|].
    intros x Hx. rewrite List.Forall_forall in IH, Hl.
    exact (IH x Hx (Hl x Hx) field_name Hfn).
  - inversion Hka as [ | | | | | ? Hkvs ]; subst.
    cbn [translate_value]. rewrite res_mapM_id; [reflexivity|].
    intros [k v] Hx. cbn [fst snd]. rewrite List.Forall_forall in IH, Hkvs.
    destruct (Hkvs (k, v) Hx) as [Hk Hv]. cbn [fst snd] in Hk, Hv.
    assert (E : translate_value v k = Ok v).
    { apply (IH (k, v) Hx Hv k). intros ->. apply Hk. left. reflexivity. }
    rewrite E. reflexivity.
Qed.
End Spanish.

(** X20. The walk of [translate_to_spanish.py] copies the structure: a
    document without a key named [archetypes] comes back exactly as it
    was, whatever its field names -- the fields listed as translatable
    included. *)
Theorem spanish_copies_structure (value : json) (field_name : pystr) :
  keys_avoid [py "archetypes"] value ->
  field_name <> py "archetypes" ->
  translate_to_spanish.translate_value value field_name = Ok value.
Proof. intros Hka Hfn. apply spanish_copy; assumption. Qed.

Lemma spanish_copies_structure_witness :
  translate_to_spanish.translate_value
    (JObj [(py "name", JStr (py "Shoot")); (py "effects", JArr [JStr (py "Hit")])]) []
  = Ok (JObj [(py "name", JStr (py "Shoot")); (py "effects", JArr [JStr (py "Hit")])]).
Proof.
  apply spanish_copies_structure.
  - repeat constructor; intros H; vm_compute in H; intuition discriminate.
  - discriminate.
Defined.

(** X21. The walk of [translate_to_spanish.py] is idempotent: run on its
    own result it returns that result, so a translated archetype name is
    never translated again. *)
Theorem spanish_walk_idempotent (value r : json) (field_name : pystr) :
  translate_to_spanish.translate_value value field_name = Ok r ->
  translate_to_spanish.translate_value r field_name = Ok r.
Proof. apply spanish_twice. Qed.

Lemma spanish_walk_idempotent_witness :
  translate_to_spanish.translate_value
    (JObj [(py "archetypes", JArr [JStr (py "Reconocimiento"); JStr (py "Elite")])]) []
  = Ok (JObj [(py "archetypes", JArr [JStr (py "Reconocimiento"); JStr (py "Elite")])]).
Proof.
  apply (spanish_walk_idempotent
           (JObj [(py "archetypes", JArr [JStr (py "Recon"); JStr (py "Elite")])])).
  vm_compute. reflexivity.
Defined.

(** ** translate_precise.py: one file from reading to writing *)

Section StateInvariant.
Context {S : Type}.
Variable R : S -> S -> Prop.
Hypothesis R_refl : forall s, R s s.
Hypothesis R_trans : forall s1 s2 s3, R s1 s2 -> R s2 s3 -> R s1 s3.

Lemma keeps_ret {A : Type} (a : A) : keeps R (ret a).
Proof. intros s r s' [= _ <-]. apply R_refl. Qed.

Lemma keeps_raise {A : Type} : keeps R (@raise S A).
Proof. intros s r s' [= _ <-]. apply R_refl. Qed.

Lemma keeps_bind {A B : Type} (m : M S A) (k : A -> M S B) :
  keeps R m -> (forall a, keeps R (k a)) -> keeps R (bind m k).
Proof.
  intros Hm Hk s r s'. unfold bind.
  destruct (m s) as [[a|] s1] eqn:E.
  - intros H. exact (R_trans _ _ _ (Hm _ _ _ E) (Hk a _ _ _ H)).
  - intros [= _ <-]. exact (Hm _ _ _ E).
Qed.

Lemma keeps_catch {A : Type} (m h : M S A) :
  keeps R m -> keeps R h -> keeps R (catch m h).
Proof.
  intros Hm Hh s r s'. unfold catch.
  destruct (m s) as [[a|] s1] eqn:E.
  - intros [= _ <-]. exact (Hm _ _ _ E).
  - intros H. exact (R_trans _ _ _ (Hm _ _ _ E) (Hh _ _ _ H)).
Qed.

Lemma keeps_mapM {A B : Type} (f : A -> M S B) (l : list A) :
  (forall x, In x l -> keeps R (f x)) -> keeps R (mapM f l).
Proof.
  induction l as [|a l IH]; intros Hf; cbn [mapM].
  - apply keeps_ret.
  - apply keeps_bind; [apply Hf; left; reflexivity|].
    intros b. apply keeps_bind.
    + apply IH. intros x Hx. apply Hf. right. exact Hx.
    + intros bs. apply keeps_ret.
Qed.

Lemma precise_walk_keeps
    (rules_table : list (pystr * translation_config.rule))
    (translate_text : pystr -> pystr -> M S pystr)
    (file_name target_lang : pystr) (value : json) :
  (forall text lang, keeps R (translate_text text lang)) ->
  forall field_name field_path,
    keeps R (translate_precise.translate_value rules_table translate_text
             file_name target_lang value field_name field_path).
Proof.
  intros Htext.
  induction value as [ | b | n | str | l IH | kvs IH] using json_ind';
    intros field_name field_path; cbn [translate_precise.translate_value];
    try apply keeps_ret.
  - destruct (_ && _); [|apply keeps_ret].
    apply keeps_catch; [|apply keeps_ret].
    apply keeps_bind; [apply Htext | intros t; apply keeps_ret].
  - assert (Hrec : forall path,
      keeps R (let* items' :=
               mapM (fun item =>
                       translate_precise.translate_value rules_table
                         translate_text file_name target_lang item [] path) l in
             ret (JArr items'))).
    { intros path. apply keeps_bind; [|intros; apply keeps_ret].
      apply keeps_mapM. intros x Hx. rewrite List.Forall_forall in IH.
      apply IH. exact Hx. }
    destruct l as [|[ | b | n | s | l' | d] l]; try apply Hrec;
      [apply keeps_ret|].
    destruct (translate_precise.in_scope _ _ _ _); [|apply keeps_ret].
    apply keeps_bind; [|intros; apply keeps_ret].
    apply keeps_mapM. intros x _. unfold translate_precise.translate_item.
    destruct x; try apply keeps_raise.
    destruct (str_truthy _); [|apply keeps_ret].
    apply keeps_bind; [apply Htext | intros t; apply keeps_ret].
  - apply keeps_bind; [|intros; apply keeps_ret].
    apply keeps_mapM. intros [k v] Hx. rewrite List.Forall_forall in IH.
    apply keeps_bind; [apply (IH (k, v) Hx) | intros; apply keeps_ret].
Qed.
End StateInvariant.

Section PreciseFile.
Import translation_config gtx files translate_precise precise_file.
Variable sys : io.
Variable net : network.
Variable rules_table : list (pystr * rule).

Lemma only_requests_refl (w : world) : only_requests w w.
Proof. split; [reflexivity | lia]. Qed.

Lemma only_requests_trans (w1 w2 w3 : world) :
  only_requests w1 w2 -> only_requests w2 w3 -> only_requests w1 w3.
Proof. intros [E1 L1] [E2 L2]. split; [congruence | lia]. Qed.

Lemma text_only_requests (text lang : pystr) :
  keeps only_requests (on_network (translate_text net text lang)).
Proof.
  intros [fs n] r w'. unfold on_network. cbn [fst snd].
  destruct (precise_translate_text_total net text lang n) as (t & n' & E & _).
  assert (Hn : (n <= snd (translate_text net text lang n))%nat).
  { clear E. unfold translate_text.
    destruct (negb (str_truthy text) || negb (str_truthy (strip text)));
      [cbn; lia|].
    unfold catch, bind, import_requests.
    destruct (have_requests net); cbn [ret raise]; [|cbn; lia].
    pose proof (request_counts net text lang n) as C1.
    destruct (request net text lang n) as [[[u|]|] n1]; cbn [snd] in C1;
      subst n1; cbv beta iota delta [ret raise snd]; try lia.
    pose proof (request_counts net text lang (S n)) as C2.
    destruct (request net text lang (S n)) as [[[u'|]|] n2]; cbn [snd] in C2;
      subst n2; cbv beta iota delta [ret raise snd]; lia. }
  destruct (translate_text net text lang n) as [r0 n0]. cbn [snd] in Hn.
  intros [= _ <-]. split; [reflexivity | exact Hn].
Qed.

Lemma text_never_raises :
  never_raises (fun text lang => on_network (translate_text net text lang)).
Proof.
  intros text lang [fs n]. unfold on_network. cbn [fst snd].
  destruct (precise_translate_text_total net text lang n) as (t & n' & E & _).
  rewrite E. eexists _, _. reflexivity.
Qed.

Lemma list_sum_all_zero {A : Type} (f : A -> nat) (l : list A) :
  (forall x, In x l -> f x = 0%nat) -> list_sum (List.map f l) = 0%nat.
Proof.
  induction l as [|a l IH]; intros Hf; [reflexivity|].
  change (f a + list_sum (List.map f l) = 0)%nat.
  rewrite (Hf a (or_introl eq_refl)), (IH (fun x Hx => Hf x (or_intror Hx))).
  reflexivity.
Qed.

Lemma count_nothing_in_scope (file_name : pystr) (obj : json) :
  (forall path name, in_scope rules_table file_name path name = false) ->
  forall field path, count_strings rules_table file_name obj field path = 0%nat.
Proof.
  intros Hout.
  induction obj as [ | b | n | str | l IH | kvs IH] using json_ind';
    intros field path; cbn [count_strings]; try reflexivity.
  - rewrite Hout. reflexivity.
  - apply list_sum_all_zero. intros x Hx. rewrite List.Forall_forall in IH.
    apply IH. exact Hx.
  - apply list_sum_all_zero. intros x Hx. rewrite List.Forall_forall in IH.
    apply IH. exact Hx.
Qed.

(** The three stages of [translate_file], each by its outcome. *)
Lemma load_outcome (en_file : Path) (fs : gmap pystr pystr) (n : nat) :
  catch (let* content := on_files (read_file (path_str en_file)) in
         let* data := on_files (parse sys content) in
         ret (Some data))
        (ret None) (fs, n)
  = (Ok (match fs !! path_str en_file with
         | Some content => json_loads sys content
         | None => None
         end), (fs, n)).
Proof.
  unfold catch, bind, on_files, read_file, parse. cbn [fst snd].
  destruct (fs !! path_str en_file) as [content|]; [|reflexivity].
  cbn [fst snd]. destruct (json_loads sys content); reflexivity.
Qed.

Lemma save_outcome (target_file : pystr) (data : json)
    (fs : gmap pystr pystr) (n : nat) :
  catch (let* _ := on_files (dump_file sys target_file data) in
         ret true)
        (ret false) (fs, n)
  = if writable sys target_file
    then if encodable data
         then (Ok true, (<[target_file := json_dumps sys data]> fs, n))
         else (Ok false, (<[target_file := cut_off sys data]> fs, n))
    else (Ok false, (fs, n)).
Proof.
  unfold catch, bind, on_files, dump_file. cbn [fst snd].
  destruct (writable sys target_file); [|reflexivity].
  destruct (encodable data); reflexivity.
Qed.

Lemma walk_outcome (file_name target_lang : pystr) (data : json)
    (fs : gmap pystr pystr) (n : nat) :
  exists walked n',
    catch (let* translated_data :=
             translate_value rules_table
               (fun text lang => on_network (translate_text net text lang))
               file_name target_lang data [] [] in
           ret (Some translated_data))
          (ret None) (fs, n)
    = (Ok walked, (fs, n'))
    /\ (n <= n')%nat
    /\ (forall translated_data,
          walked = Some translated_data ->
          shape_of translated_data = shape_of data)
    /\ (uniform_arrays data -> walked <> None).
Proof.
  pose proof (precise_walk_keeps only_requests only_requests_refl
                only_requests_trans rules_table
                (fun text lang => on_network (translate_text net text lang))
                file_name target_lang data text_only_requests [] [] (fs, n))
    as Hkeep.
  unfold catch, bind.
  destruct (translate_value rules_table
              (fun text lang => on_network (translate_text net text lang))
              file_name target_lang data [] [] (fs, n))
    as [[r|] [fs1 n1]] eqn:E.
  - destruct (Hkeep _ _ eq_refl) as [Hfs Hn]. cbn [fst snd] in Hfs, Hn. subst fs1.
    exists (Some r), n1. split; [reflexivity|]. split; [exact Hn|]. split.
    + intros d [= <-]. exact (precise_shape _ _ _ _ _ _ _ _ _ _ E).
    + discriminate.
  - destruct (Hkeep _ _ eq_refl) as [Hfs Hn]. cbn [fst snd] in Hfs, Hn. subst fs1.
    exists None, n1. split; [reflexivity|]. split; [exact Hn|]. split.
    + discriminate.
    + intros Hua.
      destruct (precise_walk_returns rules_table _ file_name target_lang data
                  text_never_raises Hua [] [] (fs, n)) as (r & w' & E').
      rewrite E in E'. discriminate.
Qed.

Lemma precise_file_run (en_file : Path) (target_file target_lang : pystr)
    (fs : gmap pystr pystr) (n : nat) :
  exists (b : bool) (fs' : gmap pystr pystr) (n' : nat),
    translate_file_in sys net rules_table en_file target_file target_lang (fs, n)
    = (Ok b, (fs', n'))
    /\ (n <= n')%nat
    /\ (b = true ->
        exists content data translated_data,
          fs !! path_str en_file = Some content
          /\ json_loads sys content = Some data
          /\ shape_of translated_data = shape_of data
          /\ encodable translated_data = true
          /\ fs' = <[target_file := json_dumps sys translated_data]> fs)
    /\ (b = false ->
        fs' = fs
        \/ exists content data translated_data,
             fs !! path_str en_file = Some content
             /\ json_loads sys content = Some data
             /\ shape_of translated_data = shape_of data
             /\ encodable translated_data = false
             /\ writable sys target_file = true
             /\ fs' = <[target_file := cut_off sys translated_data]> fs).
Proof.
  unfold translate_file_in.
  rewrite (bind_ok _ _ _ _ _ (load_outcome en_file fs n)).
  destruct (fs !! path_str en_file) as [content|] eqn:Hfile.
  2:{ exists false, fs, n. split; [reflexivity|]. split; [lia|].
      split; [discriminate | left; reflexivity]. }
  destruct (json_loads sys content) as [data|] eqn:Hjson.
  2:{ exists false, fs, n. split; [reflexivity|]. split; [lia|].
      split; [discriminate | left; reflexivity]. }
  destruct (Nat.eqb _ 0).
  { exists false, fs, n. split; [reflexivity|]. split; [lia|].
    split; [discriminate | left; reflexivity]. }
  destruct (walk_outcome (rule_file_name en_file) target_lang data fs n)
    as (walked & n' & Hwalk & Hn & Hshape & _).
  rewrite (bind_ok _ _ _ _ _ Hwalk).
  destruct walked as [translated_data|].
  2:{ exists false, fs, n'. split; [reflexivity|]. split; [exact Hn|].
      split; [discriminate | left; reflexivity]. }
  rewrite save_outcome. destruct (writable sys target_file) eqn:Hw.
  2:{ exists false, fs, n'. split; [reflexivity|]. split; [exact Hn|].
      split; [discriminate | left; reflexivity]. }
  destruct (encodable translated_data) eqn:Henc.
  - exists true, (<[target_file := json_dumps sys translated_data]> fs), n'.
    split; [reflexivity|]. split; [exact Hn|]. split; [|discriminate].
    intros _. exists content, data, translated_data.
    split; [reflexivity|]. split; [exact Hjson|].
    split; [apply Hshape; reflexivity|]. split; [exact Henc | reflexivity].
  - exists false, (<[target_file := cut_off sys translated_data]> fs), n'.
    split; [reflexivity|]. split; [exact Hn|]. split; [discriminate|].
    intros _. right. exists content, data, translated_data.
    split; [reflexivity|]. split; [exact Hjson|].
    split; [apply Hshape; reflexivity|]. split; [exact Henc|].
    split; reflexivity.
Qed.
End PreciseFile.

(** X22. [translate_file] of [translate_precise.py] always returns, with
    [True] or [False], whatever the files and the provider are; it may
    have sent requests, and the target is the only file it can change.
    When it returns [True] the source was read and parsed and the target
    holds the dump of a document of the same shape as the source's, with
    no lone surrogate in it.  When it returns [False], either no file
    has changed, or the walk gave a document with a lone surrogate:
    [json.dumps] let it pass, [json.dump] raised on it after the target
    was opened, and the target is left cut off. *)
Theorem precise_file_outcome
    (sys : files.io) (net : gtx.network)
    (rules_table : list (pystr * translation_config.rule))
    (en_file : precise_file.Path) (target_file target_lang : pystr)
    (fs : gmap pystr pystr) (n : nat) :
  exists (b : bool) (fs' : gmap pystr pystr) (n' : nat),
    precise_file.translate_file_in sys net rules_table en_file target_file
      target_lang (fs, n)
    = (Ok b, (fs', n'))
    /\ (n <= n')%nat
    /\ (b = true ->
        exists content data translated_data,
          fs !! precise_file.path_str en_file = Some content
          /\ files.json_loads sys content = Some data
          /\ shape_of translated_data = shape_of data
          /\ encodable translated_data = true
          /\ fs' = <[target_file := files.json_dumps sys translated_data]> fs)
    /\ (b = false ->
        fs' = fs
        \/ exists content data translated_data,
             fs !! precise_file.path_str en_file = Some content
             /\ files.json_loads sys content = Some data
             /\ shape_of translated_data = shape_of data
             /\ encodable translated_data = false
             /\ files.writable sys target_file = true
             /\ fs' = <[target_file := files.cut_off sys translated_data]> fs).
Proof. apply precise_file_run. Qed.

(** X23. A file the rule table has no entry for is skipped by
    [translate_file]: it returns [False], writes nothing and sends no
    request, whatever the file holds. *)
Theorem precise_file_unknown_skipped
    (sys : files.io) (net : gtx.network)
    (rules_table : list (pystr * translation_config.rule))
    (en_file : precise_file.Path) (target_file target_lang : pystr)
    (fs : gmap pystr pystr) (n : nat) :
  ~ In (translation_config.rules_key (precise_file.rule_file_name en_file))
       (List.map fst rules_table) ->
  precise_file.translate_file_in sys net rules_table en_file target_file
    target_lang (fs, n)
  = (Ok false, (fs, n)).
Proof.
  intros Hfile. unfold precise_file.translate_file_in.
  rewrite (bind_ok _ _ _ _ _ (load_outcome sys en_file fs n)).
  destruct (fs !! precise_file.path_str en_file) as [content|]; [|reflexivity].
  destruct (files.json_loads sys content) as [data|]; [|reflexivity].
  rewrite count_nothing_in_scope; [reflexivity|].
  intros path name.
  unfold translate_precise.in_scope,
    translation_config.should_translate_field_in.
  rewrite (rule_get_absent _ _ Hfile). reflexivity.
Qed.

Lemma precise_file_unknown_skipped_witness :
  precise_file.translate_file
    (examples.one_doc (py "x") (JObj [(py "name", JStr (py "Shoot"))])
       examples.width)
    gtx.echo
    {| precise_file.path_str := py "en/notes.json";
       precise_file.path_name := py "notes.json" |}
    (py "es/notes.json") (py "es") (<[py "en/notes.json" := py "x"]> ∅, 0%nat)
  = (Ok false, (<[py "en/notes.json" := py "x"]> ∅, 0%nat)).
Proof.
  apply precise_file_unknown_skipped.
  intros H. vm_compute in H. intuition discriminate.
Defined.

(** X24. [translate_file] reaches the write on a file that can be read
    and parsed, holds something the rules select, has no array that
    starts with a string and goes on with something else, and whose
    target can be opened for writing -- whatever the provider answers.
    The document it dumps has the source's shape.  When that document
    holds no lone surrogate the call returns [True] and the target holds
    its dump; when it holds one, the call returns [False] and the target
    is left cut off. *)
Theorem precise_file_succeeds
    (sys : files.io) (net : gtx.network)
    (rules_table : list (pystr * translation_config.rule))
    (en_file : precise_file.Path) (target_file target_lang : pystr)
    (fs : gmap pystr pystr) (n : nat) (content : pystr) (data : json) :
  fs !! precise_file.path_str en_file = Some content ->
  files.json_loads sys content = Some data ->
  precise_file.count_strings rules_table
    (precise_file.rule_file_name en_file) data [] [] <> 0%nat ->
  uniform_arrays data ->
  files.writable sys target_file = true ->
  exists (translated_data : json) (n' : nat),
    shape_of translated_data = shape_of data
    /\ precise_file.translate_file_in sys net rules_table en_file target_file
         target_lang (fs, n)
       = if encodable translated_data
         then (Ok true,
               (<[target_file := files.json_dumps sys translated_data]> fs, n'))
         else (Ok false,
               (<[target_file := files.cut_off sys translated_data]> fs, n')).
Proof.
  intros Hfile Hjson Hcount Hua Hw. unfold precise_file.translate_file_in.
  rewrite (bind_ok _ _ _ _ _ (load_outcome sys en_file fs n)).
  rewrite Hfile, Hjson.
  apply Nat.eqb_neq in Hcount. rewrite Hcount.
  destruct (walk_outcome net rules_table (precise_file.rule_file_name en_file)
              target_lang data fs n)
    as (walked & n' & Hwalk & _ & Hshape & Hsome).
  rewrite (bind_ok _ _ _ _ _ Hwalk).
  destruct walked as [translated_data|]; [|exfalso; exact (Hsome Hua eq_refl)].
  rewrite save_outcome, Hw.
  exists translated_data, n'. split; [apply Hshape; reflexivity | reflexivity].
Qed.

Lemma precise_file_succeeds_witness :
  exists (translated_data : json) (n' : nat),
    shape_of translated_data = shape_of (JObj [(py "name", JStr (py "Shoot"))])
    /\ precise_file.translate_file_in
         (examples.one_doc (py "x") (JObj [(py "name", JStr (py "Shoot"))])
            examples.leaves)
         gtx.unreachable
         [(py "a.json",
           translation_config.RDict [(py "name", translation_config.RBool true)])]
         {| precise_file.path_str := py "en/a.json";
            precise_file.path_name := py "a.json" |}
         (py "es/a.json") (py "es") (<[py "en/a.json" := py "x"]> ∅, 0%nat)
       = if encodable translated_data
         then (Ok true,
               (<[py "es/a.json" :=
                    files.json_dumps
                      (examples.one_doc (py "x")
                         (JObj [(py "name", JStr (py "Shoot"))]) examples.leaves)
                      translated_data]> (<[py "en/a.json" := py "x"]> ∅), n'))
         else (Ok false,
               (<[py "es/a.json" :=
                    files.cut_off
                      (examples.one_doc (py "x")
                         (JObj [(py "name", JStr (py "Shoot"))]) examples.leaves)
                      translated_data]> (<[py "en/a.json" := py "x"]> ∅), n')).
Proof.
  apply (precise_file_succeeds _ _ _ _ _ _ _ _ (py "x")).
  - apply lookup_insert_eq.
  - reflexivity.
  - vm_compute. discriminate.
  - repeat constructor.
  - reflexivity.
Defined.

(** ** translate_batch.py: the strings go back where they were found *)

Section PutBack.
Import batch_file.

(** *** Paths and places *)

Lemma extend_each_map {A B C : Type} (f : nat -> A -> list B)
    (g : nat -> A -> list C) (h : C -> B) (l : list A) :
  (forall i x, In x l -> f i x = List.map h (g i x)) ->
  forall i, extend_each f i l = List.map h (extend_each g i l).
Proof.
  induction l as [|a l IH]; intros Hfg i; [reflexivity|].
  cbn [extend_each]. rewrite List.map_app.
  rewrite (Hfg i a (or_introl eq_refl)).
  rewrite (IH (fun j x Hx => Hfg j x (or_intror Hx))). reflexivity.
Qed.

Lemma collect_sites (data : json) :
  forall field_name path,
    collect_translatable_strings data field_name path
    = List.map (entry_of path) (sites data field_name).
Proof.
  induction data as [ | b | n | s | l IH | kvs IH] using json_ind';
    intros field_name path; try reflexivity.
  - cbn [collect_translatable_strings sites].
    destruct (wanted field_name (JStr s)); reflexivity.
  - cbn [collect_translatable_strings sites].
    apply extend_each_map. intros i x Hx.
    rewrite List.Forall_forall in IH.
    assert (E : collect_translatable_strings x field_name (index_path path i)
                = List.map (entry_of path)
                    (List.map (fun site => (Nth i :: fst site, snd site))
                       (sites x field_name))).
    { rewrite (IH x Hx), List.map_map. reflexivity. }
    destruct x as [ | b | n | s | l' | d]; try exact E.
    rewrite <- E. cbn [collect_translatable_strings].
    destruct (wanted field_name (JStr s)); reflexivity.
  - cbn [collect_translatable_strings sites].
    induction IH as [|[k v] kvs Hv _ IHkvs]; [reflexivity|].
    cbn [flat_map fst snd]. rewrite List.map_app, <- IHkvs.
    cbn [fst snd] in Hv. rewrite Hv, List.map_map. reflexivity.
Qed.
End PutBack.

Section SetAll.
Import batch_file.

Lemma set_all_nil_texts (data : json) (places : list (list hop)) :
  set_all data places [] = Some data.
Proof. destruct places; reflexivity. Qed.

Lemma set_all_app (places1 places2 : list (list hop)) :
  forall (data : json) (texts : list pystr),
    set_all data (places1 ++ places2) texts
    = match set_all data places1 texts with
      | Some data' =>
          set_all data' places2 (skipn (List.length places1) texts)
      | None => None
      end.
Proof.
  induction places1 as [|q places1 IH]; intros data texts; [reflexivity|].
  destruct texts as [|t texts].
  - cbn. symmetry. apply set_all_nil_texts.
  - cbn [app set_all List.length skipn].
    destruct (set_at data q t) as [data'|]; [apply IH | reflexivity].
Qed.

Lemma dict_get_middle (k : pystr) (c : json) (d1 d2 : dict) :
  ~ In k (List.map fst d1) -> dict_get k (d1 ++ (k, c) :: d2) = Some c.
Proof.
  induction d1 as [|[k' v'] d1 IH]; cbn; intros H.
  - rewrite str_eqb_refl. reflexivity.
  - destruct (str_eqb k' k) eqn:E.
    + apply str_eqb_eq in E. exfalso. apply H. left. exact E.
    + apply IH. intros Hin. apply H. right. exact Hin.
Qed.

Lemma dict_set_middle (k : pystr) (c c' : json) (d1 d2 : dict) :
  ~ In k (List.map fst d1) ->
  dict_set k c' (d1 ++ (k, c) :: d2) = d1 ++ (k, c') :: d2.
Proof.
  induction d1 as [|[k' v'] d1 IH]; cbn; intros H.
  - rewrite str_eqb_refl. reflexivity.
  - destruct (str_eqb k' k) eqn:E.
    + apply str_eqb_eq in E. exfalso. apply H. left. exact E.
    + f_equal. apply IH. intros Hin. apply H. right. exact Hin.
Qed.

Lemma nth_error_middle {A : Type} (c : A) (l1 l2 : list A) :
  nth_error (l1 ++ c :: l2) (List.length l1) = Some c.
Proof. induction l1 as [|a l1 IH]; [reflexivity | exact IH]. Qed.

Lemma insert_middle (c c' : json) (l1 l2 : list json) :
  <[List.length l1 := c']> (l1 ++ c :: l2) = l1 ++ c' :: l2.
Proof. induction l1 as [|a l1 IH]; [reflexivity|]. cbn. f_equal. exact IH. Qed.

Lemma set_all_under_key (k : pystr) (d1 d2 : dict) (places : list (list hop)) :
  ~ In k (List.map fst d1) ->
  forall (c : json) (texts : list pystr),
    set_all (JObj (d1 ++ (k, c) :: d2)) (List.map (cons (At k)) places) texts
    = match set_all c places texts with
      | Some c' => Some (JObj (d1 ++ (k, c') :: d2))
      | None => None
      end.
Proof.
  intros Hk. induction places as [|q places IH]; intros c texts; [reflexivity|].
  destruct texts as [|t texts]; [reflexivity|].
  cbn [List.map set_all set_at]. rewrite (dict_get_middle _ _ _ _ Hk).
  destruct (set_at c q t) as [c'|]; [|reflexivity].
  rewrite (dict_set_middle _ _ _ _ _ Hk). apply IH.
Qed.

Lemma set_all_under_index (l1 l2 : list json) (places : list (list hop)) :
  forall (c : json) (texts : list pystr),
    set_all (JArr (l1 ++ c :: l2))
      (List.map (cons (Nth (List.length l1))) places) texts
    = match set_all c places texts with
      | Some c' => Some (JArr (l1 ++ c' :: l2))
      | None => None
      end.
Proof.
  induction places as [|q places IH]; intros c texts; [reflexivity|].
  destruct texts as [|t texts]; [reflexivity|].
  cbn [List.map set_all set_at]. rewrite nth_error_middle.
  destruct (set_at c q t) as [c'|]; [|reflexivity].
  rewrite insert_middle. apply IH.
Qed.

Lemma put_back_items (field_name : pystr) (l2 : list json) :
  Forall put_back_sets l2 ->
  forall (l1 : list json) (texts : list pystr),
    let done := thread (fun item texts => put_back item field_name texts) l2 texts in
    let places :=
      List.map fst
        (extend_each
           (fun i item =>
              List.map (fun site => (Nth i :: fst site, snd site))
                       (sites item field_name))
           (List.length l1) l2) in
    set_all (JArr (l1 ++ l2)) places texts = Some (JArr (l1 ++ fst done))
    /\ snd done = skipn (List.length places) texts.
Proof.
  induction 1 as [|c l2 Hc _ IH]; intros l1 texts.
  - cbn. rewrite List.app_nil_r. split; reflexivity.
  - cbn [thread extend_each].
    destruct (Hc field_name texts) as [Hset Hrest].
    destruct (put_back c field_name texts) as [c' texts1] eqn:Ec.
    cbn [fst snd] in Hset, Hrest.
    specialize (IH (l1 ++ [c']) texts1).
    destruct (thread (fun item texts0 => put_back item field_name texts0) l2 texts1)
      as [more' texts2] eqn:Em.
    cbn [fst snd] in IH |- *. destruct IH as [IHset IHrest].
    rewrite List.map_app, List.map_map. cbn [fst].
    rewrite set_all_app.
    change (List.map (fun x : list hop * (pystr * pystr) => Nth (List.length l1) :: fst x)
              (sites c field_name))
      with (List.map (fun x : list hop * (pystr * pystr) => (cons (Nth (List.length l1))) (fst x))
              (sites c field_name)).
    rewrite <- (List.map_map fst (cons (Nth (List.length l1)))).
    rewrite set_all_under_index.
    fold (places_of c field_name). rewrite Hset.
    rewrite !List.length_map.
    rewrite List.length_app, List.length_map.
    rewrite <- (List.app_assoc l1 [c'] l2) in IHset. cbn [app] in IHset.
    rewrite List.length_app in IHset, IHrest. cbn [List.length] in IHset, IHrest.
    rewrite Nat.add_1_r in IHset, IHrest.
    assert (Hlen : List.length (places_of c field_name)
                   = List.length (sites c field_name))
      by (unfold places_of; apply List.length_map).
    rewrite Hlen. split.
    + rewrite <- Hrest, IHset, <- List.app_assoc. reflexivity.
    + rewrite IHrest, Hrest, drop_drop. reflexivity.
Qed.
End SetAll.

Section PutBackAll.
Import batch_file.

Lemma put_back_pairs (d2 : dict) :
  Forall (fun kv => put_back_sets (snd kv)) d2 ->
  forall (d1 : dict) (texts : list pystr),
    List.NoDup (List.map fst (d1 ++ d2)) ->
    let done :=
      thread (fun (kv : pystr * json) texts =>
                let (v', texts') := put_back (snd kv) (fst kv) texts in
                ((fst kv, v'), texts'))
             d2 texts in
    let places :=
      List.map fst
        (flat_map (fun kv : pystr * json =>
                     List.map (fun site => (At (fst kv) :: fst site, snd site))
                              (sites (snd kv) (fst kv)))
                  d2) in
    set_all (JObj (d1 ++ d2)) places texts = Some (JObj (d1 ++ fst done))
    /\ snd done = skipn (List.length places) texts.
Proof.
  induction 1 as [|[k c] d2 Hc _ IH]; intros d1 texts Hnd.
  - cbn. rewrite List.app_nil_r. split; reflexivity.
  - cbn [thread flat_map fst snd].
    cbn [fst snd] in Hc.
    destruct (Hc k texts) as [Hset Hrest].
    destruct (put_back c k texts) as [c' texts1] eqn:Ec.
    cbn [fst snd] in Hset, Hrest.
    assert (Hk : ~ In k (List.map fst d1)).
    { rewrite List.map_app in Hnd. cbn [List.map fst] in Hnd.
      apply List.NoDup_remove_2 in Hnd. intros Hin. apply Hnd.
      apply List.in_or_app. left. exact Hin. }
    assert (Hnd' : List.NoDup (List.map fst ((d1 ++ [(k, c')]) ++ d2))).
    { rewrite <- List.app_assoc. cbn [app].
      rewrite List.map_app in Hnd |- *. exact Hnd. }
    specialize (IH (d1 ++ [(k, c')]) texts1 Hnd').
    destruct (thread _ d2 texts1) as [more' texts2] eqn:Em.
    cbn [fst snd] in IH |- *. destruct IH as [IHset IHrest].
    rewrite List.map_app, List.map_map. cbn [fst].
    rewrite set_all_app.
    change (List.map (fun x : list hop * (pystr * pystr) => At k :: fst x)
              (sites c k))
      with (List.map (fun x : list hop * (pystr * pystr) => (cons (At k)) (fst x))
              (sites c k)).
    rewrite <- (List.map_map fst (cons (At k))).
    rewrite (set_all_under_key _ _ _ _ Hk).
    fold (places_of c k). rewrite Hset.
    rewrite !List.length_map.
    rewrite List.length_app, List.length_map.
    rewrite <- (List.app_assoc d1 [(k, c')] d2) in IHset. cbn [app] in IHset.
    assert (Hlen : List.length (places_of c k) = List.length (sites c k))
      by (unfold places_of; apply List.length_map).
    rewrite Hlen. split.
    + rewrite <- Hrest, IHset, <- List.app_assoc. reflexivity.
    + rewrite IHrest, Hrest, drop_drop. reflexivity.
Qed.

Lemma put_back_sets_all (data : json) :
  addressable data -> put_back_sets data.
Proof.
  induction data as [ | b | n | s | l IH | kvs IH] using json_ind';
    intros Had field_name texts; try (split; reflexivity).
  - unfold places_of. cbn [sites put_back].
    destruct (wanted field_name (JStr s)); [|split; reflexivity].
    destruct texts as [|t texts]; split; reflexivity.
  - inversion Had as [ | | | | ? Hl | ]; subst.
    assert (Hall : Forall put_back_sets l).
    { rewrite List.Forall_forall in IH, Hl |- *. intros x Hx.
      apply (IH x Hx). apply (Hl x Hx). }
    destruct (put_back_items field_name l Hall [] texts) as [Hset Hrest].
    cbn [app List.length] in Hset, Hrest.
    unfold places_of. cbn [sites put_back].
    destruct (thread _ l texts) as [items' rest].
    cbn [fst snd] in Hset, Hrest |- *.
    rewrite List.length_map in Hrest. split; assumption.
  - inversion Had as [ | | | | | ? Hnd Hkvs ]; subst.
    assert (Hall : Forall (fun kv => put_back_sets (snd kv)) kvs).
    { rewrite List.Forall_forall in IH, Hkvs |- *. intros x Hx.
      apply (IH x Hx). apply (Hkvs x Hx). }
    destruct (put_back_pairs kvs Hall [] texts Hnd) as [Hset Hrest].
    cbn [app] in Hset, Hrest.
    unfold places_of. cbn [sites put_back].
    destruct (thread _ kvs texts) as [kvs' rest].
    cbn [fst snd] in Hset, Hrest |- *.
    rewrite List.length_map in Hrest. split; assumption.
Qed.
End PutBackAll.

Section Paths.
Import batch_file.

Lemma split_cons (c : N) (s : pystr) : exists p ps, split c s = p :: ps.
Proof.
  induction s as [|x s IH]; cbn; [eexists _, _; reflexivity|].
  destruct (N.eqb x c); [eexists _, _; reflexivity|].
  destruct IH as (p & ps & ->). eexists _, _; reflexivity.
Qed.

Lemma split_plain (c : N) (a : pystr) : ~ In c a -> split c a = [a].
Proof.
  induction a as [|x a IH]; cbn; intros H; [reflexivity|].
  destruct (N.eqb x c) eqn:E.
  - apply N.eqb_eq in E. exfalso. apply H. left. exact E.
  - rewrite IH; [reflexivity|]. intros Hin. apply H. right. exact Hin.
Qed.

Lemma split_at (c : N) (a b : pystr) :
  ~ In c a -> split c (a ++ c :: b) = a :: split c b.
Proof.
  induction a as [|x a IH]; cbn; intros H.
  - rewrite N.eqb_refl. reflexivity.
  - destruct (N.eqb x c) eqn:E.
    + apply N.eqb_eq in E. exfalso. apply H. left. exact E.
    + rewrite IH; [reflexivity|]. intros Hin. apply H. right. exact Hin.
Qed.

Lemma lstrip_char_absent (c : N) (s : pystr) :
  ~ In c s -> lstrip_char c s = s.
Proof.
  destruct s as [|x s]; cbn; intros H; [reflexivity|].
  destruct (N.eqb x c) eqn:E; [|reflexivity].
  apply N.eqb_eq in E. exfalso. apply H. left. exact E.
Qed.

Lemma rstrip_char_closing (c : N) (s : pystr) :
  ~ In c s -> rstrip_char c (s ++ [c]) = s.
Proof.
  intros H. unfold rstrip_char. rewrite List.rev_app_distr. cbn.
  rewrite N.eqb_refl. rewrite lstrip_char_absent.
  - apply List.rev_involutive.
  - intros Hin. apply H. apply List.in_rev. exact Hin.
Qed.

Lemma digits_are_digits (d : Decimal.uint) (c : N) :
  In c (digits d) -> 48 <= c <= 57.
Proof.
  induction d; cbn; intros H; try contradiction;
    (destruct H as [<- | H]; [lia | exact (IHd H)]).
Qed.

Lemma str_of_nat_plain (i : nat) (c : N) :
  c = dot \/ c = left_bracket \/ c = right_bracket -> ~ In c (str_of_nat i).
Proof.
  intros Hc Hin. apply digits_are_digits in Hin.
  unfold dot, left_bracket, right_bracket in Hc. lia.
Qed.

Lemma render_suffix (place : list hop) :
  forall path, path <> [] -> render_from path place = path ++ suffix_of place.
Proof.
  induction place as [|[k | i] place IH]; intros path Hpath; cbn [render_from suffix_of].
  - rewrite List.app_nil_r. reflexivity.
  - unfold key_path. destruct path as [|x path]; [congruence|].
    cbn [str_truthy]. rewrite IH by discriminate.
    cbn. rewrite <- !List.app_assoc. reflexivity.
  - unfold index_path. destruct path as [|x path]; [congruence|].
    cbn [str_truthy]. rewrite IH by discriminate.
    cbn. rewrite <- !List.app_assoc. cbn. rewrite <- !List.app_assoc. reflexivity.
Qed.

Lemma render_root_key (k : pystr) (place : list hop) :
  k <> [] -> render_from [] (At k :: place) = k ++ suffix_of place.
Proof. intros Hk. cbn. apply render_suffix. exact Hk. Qed.

Lemma render_root_index (i : nat) (place : list hop) :
  render_from [] (Nth i :: place)
  = (left_bracket :: str_of_nat i ++ [right_bracket]) ++ suffix_of place.
Proof. cbn [render_from]. unfold index_path. cbn. apply render_suffix. discriminate. Qed.

Variable int : pystr -> option Z.
Hypothesis int_str : forall i, int (str_of_nat i) = Some (Z.of_nat i).

Lemma item_of_index (k : pystr) (i : nat) :
  ~ In left_bracket k ->
  item_of int (k ++ left_bracket :: str_of_nat i ++ [right_bracket])
  = Some (k, Z.of_nat i).
Proof.
  intros Hk. unfold item_of. rewrite (split_at _ _ _ Hk).
  rewrite split_plain.
  - rewrite rstrip_char_closing, int_str; [reflexivity|].
    apply str_of_nat_plain. auto.
  - intros Hin. apply List.in_app_or in Hin. destruct Hin as [Hin | [E | []]].
    + revert Hin. apply str_of_nat_plain. auto.
    + discriminate E.
Qed.

Lemma has_bracket_index (k : pystr) (i : nat) :
  has_char left_bracket (k ++ left_bracket :: str_of_nat i ++ [right_bracket])
  = true.
Proof. apply has_char_In. apply List.in_or_app. right. left. reflexivity. Qed.

Lemma has_bracket_plain (k : pystr) :
  ~ In left_bracket k -> has_char left_bracket k = false.
Proof.
  intros H. destruct (has_char left_bracket k) eqn:E; [|reflexivity].
  apply has_char_In in E. contradiction.
Qed.

Lemma index_part_plain (k : pystr) (i : nat) :
  ~ In dot k -> ~ In dot (k ++ left_bracket :: str_of_nat i ++ [right_bracket]).
Proof.
  intros Hk Hin. apply List.in_app_or in Hin. destruct Hin as [Hin | [E | Hin]].
  - exact (Hk Hin).
  - discriminate E.
  - apply List.in_app_or in Hin. destruct Hin as [Hin | [E | []]].
    + revert Hin. apply str_of_nat_plain. auto.
    + discriminate E.
Qed.

Lemma position_of_nat {A : Type} (l : list A) (i : nat) (x : A) :
  nth_error l i = Some x -> position (List.length l) (Z.of_nat i) = Some i.
Proof.
  intros H. assert (Hi : (i < List.length l)%nat)
    by (apply List.nth_error_Some; congruence).
  unfold position.
  destruct (Z.leb_spec 0 (Z.of_nat i)); [|lia].
  destruct (Z.ltb_spec (Z.of_nat i) (Z.of_nat (List.length l))); [|lia].
  rewrite Nat2Z.id. reflexivity.
Qed.

Lemma addressable_value (k : pystr) (c : json) (d : dict) :
  addressable (JObj d) -> dict_get k d = Some c ->
  plain_key k /\ addressable c.
Proof.
  intros Had Hget. inversion Had as [ | | | | | ? _ Hd ]; subst.
  apply dict_get_in in Hget. rewrite List.Forall_forall in Hd.
  exact (Hd (k, c) Hget).
Qed.

Lemma addressable_item (i : nat) (x : json) (l : list json) :
  addressable (JArr l) -> nth_error l i = Some x ->
  addressable x /\ ~ is_arr x.
Proof.
  intros Had Hnth. inversion Had as [ | | | | ? Hl | ]; subst.
  apply List.nth_error_In in Hnth. rewrite List.Forall_forall in Hl.
  exact (Hl x Hnth).
Qed.

Lemma set_parts_more (current : json) (part p : pystr) (ps : list pystr)
    (value : pystr) :
  set_parts int current (part :: p :: ps) value
  = if has_char left_bracket part then
      match item_of int part with
      | Some (base, idx) =>
          if str_truthy base
          then under_key current base (fun c =>
                 under_index c idx (fun c' => set_parts int c' (p :: ps) value))
          else under_index current idx
                 (fun c' => set_parts int c' (p :: ps) value)
      | None => Raised
      end
    else under_key current part (fun c => set_parts int c (p :: ps) value).
Proof. reflexivity. Qed.

(** The parts of the path of a place below a key are read back as the
    place. *)
Lemma set_parts_below_key (n : nat) :
  forall (place : list hop) (k : pystr) (e e' : json) (text : pystr),
    (List.length place <= n)%nat ->
    addressable e ->
    set_at e (At k :: place) text = Some e' ->
    set_parts int e (split dot (k ++ suffix_of place)) text = Assigned e'.
Proof.
  induction n as [|n IH]; intros place k e e' text Hlen Had Hset.
  - destruct place; [|cbn in Hlen; lia].
    cbn [set_at] in Hset. cbn [suffix_of]. rewrite List.app_nil_r.
    destruct e as [ | | | | | d]; try discriminate.
    destruct (dict_get k d) as [c|] eqn:Hget; [|discriminate].
    destruct (addressable_value _ _ _ Had Hget) as [(_ & Hdot & Hbr) _].
    injection Hset as <-.
    rewrite (split_plain _ _ Hdot). cbn [set_parts]. unfold set_final.
    rewrite (has_bracket_plain _ Hbr). reflexivity.
  - cbn [set_at] in Hset.
    destruct e as [ | | | | | d]; try discriminate.
    destruct (dict_get k d) as [c|] eqn:Hget; [|discriminate].
    destruct (addressable_value _ _ _ Had Hget) as [(Hne & Hdot & Hbr) Hc].
    destruct (set_at c place text) as [c'|] eqn:Hc'; [|discriminate].
    injection Hset as <-.
    destruct place as [|[k2 | i] place].
    + cbn in Hc'. injection Hc' as <-.
      cbn [suffix_of]. rewrite List.app_nil_r.
      rewrite (split_plain _ _ Hdot). cbn [set_parts]. unfold set_final.
      rewrite (has_bracket_plain _ Hbr). reflexivity.
    + cbn [suffix_of]. rewrite (split_at _ _ _ Hdot).
      assert (Hrec : set_parts int c (split dot (k2 ++ suffix_of place)) text
                     = Assigned c').
      { apply (IH place k2 c c' text); [cbn in Hlen; lia | exact Hc | exact Hc']. }
      destruct (split_cons dot (k2 ++ suffix_of place)) as (p & ps & Esplit).
      rewrite Esplit in Hrec |- *. rewrite set_parts_more.
      rewrite (has_bracket_plain _ Hbr). unfold under_key.
      rewrite Hget, Hrec. reflexivity.
    + cbn [set_at] in Hc'.
      destruct c as [ | | | | l | ]; try discriminate.
      destruct (nth_error l i) as [x|] eqn:Hnth; [|discriminate].
      destruct (addressable_item _ _ _ Hc Hnth) as [Hx Hnotarr].
      destruct (set_at x place text) as [x'|] eqn:Hx'; [|discriminate].
      injection Hc' as <-.
      cbn [suffix_of].
      destruct place as [|[k2 | j] place].
      * cbn in Hx'. injection Hx' as <-. cbn [suffix_of].
        rewrite (split_plain _ _ (index_part_plain k i Hdot)).
        cbn [set_parts]. unfold set_final.
        rewrite has_bracket_index, (item_of_index _ _ Hbr).
        destruct k as [|y k]; [congruence|]. cbn [str_truthy].
        unfold under_key. rewrite Hget. unfold setitem_index.
        rewrite (position_of_nat _ _ _ Hnth). reflexivity.
      * cbn [suffix_of].
        replace (k ++ left_bracket :: str_of_nat i
                   ++ right_bracket :: dot :: k2 ++ suffix_of place)
          with ((k ++ left_bracket :: str_of_nat i ++ [right_bracket])
                  ++ dot :: k2 ++ suffix_of place)
          by (rewrite <- !List.app_assoc; cbn; rewrite <- !List.app_assoc;
              reflexivity).
        rewrite (split_at _ _ _ (index_part_plain k i Hdot)).
        assert (Hrec : set_parts int x (split dot (k2 ++ suffix_of place)) text
                       = Assigned x').
        { apply (IH place k2 x x' text); [cbn in Hlen; lia | exact Hx | exact Hx']. }
        destruct (split_cons dot (k2 ++ suffix_of place)) as (p & ps & Esplit).
        rewrite Esplit in Hrec |- *. rewrite set_parts_more.
        rewrite has_bracket_index, (item_of_index _ _ Hbr).
        destruct k as [|y k]; [congruence|]. cbn [str_truthy].
        unfold under_key. rewrite Hget. unfold under_index.
        rewrite (position_of_nat _ _ _ Hnth), Hnth, Hrec. reflexivity.
      * cbn [set_at] in Hx'. destruct x; try discriminate.
        exfalso. apply Hnotarr. exact I.
Qed.

Lemma set_by_path (data data' : json) (place : list hop) (text : pystr) :
  addressable data ->
  place <> [] ->
  set_at data place text = Some data' ->
  set_value_by_path int data (render_from [] place) text = Assigned data'.
Proof.
  intros Had Hplace Hset. unfold set_value_by_path.
  destruct place as [|[k | i] place]; [congruence| |].
  - assert (Hk : k <> []).
    { cbn [set_at] in Hset. destruct data as [ | | | | | d]; try discriminate.
      destruct (dict_get k d) as [c|] eqn:Hget; [|discriminate].
      destruct (addressable_value _ _ _ Had Hget) as [(Hne & _) _]. exact Hne. }
    rewrite (render_root_key _ _ Hk).
    apply (set_parts_below_key (List.length place)); [lia | exact Had | exact Hset].
  - rewrite render_root_index.
    cbn [set_at] in Hset. destruct data as [ | | | | l | ]; try discriminate.
    destruct (nth_error l i) as [x|] eqn:Hnth; [|discriminate].
    destruct (addressable_item _ _ _ Had Hnth) as [Hx Hnotarr].
    destruct (set_at x place text) as [x'|] eqn:Hx'; [|discriminate].
    injection Hset as <-.
    assert (Hnone : ~ In left_bracket (@nil N)) by (intros []).
    assert (Hnodot : ~ In dot (@nil N)) by (intros []).
    pose proof (index_part_plain [] i Hnodot) as Hplain.
    pose proof (has_bracket_index [] i) as Hhas.
    pose proof (item_of_index [] i Hnone) as Hitem.
    cbn [app] in Hplain, Hhas, Hitem.
    destruct place as [|[k2 | j] place].
    + cbn in Hx'. injection Hx' as <-. cbn [suffix_of]. rewrite List.app_nil_r.
      rewrite (split_plain _ _ Hplain).
      cbn [set_parts]. unfold set_final.
      rewrite Hhas, Hitem.
      cbn [str_truthy]. unfold setitem_index.
      rewrite (position_of_nat _ _ _ Hnth). reflexivity.
    + cbn [suffix_of].
      rewrite (split_at _ _ _ Hplain).
      assert (Hrec : set_parts int x (split dot (k2 ++ suffix_of place)) text
                     = Assigned x').
      { apply (set_parts_below_key (List.length place));
          [lia | exact Hx | exact Hx']. }
      destruct (split_cons dot (k2 ++ suffix_of place)) as (p & ps & Esplit).
      rewrite Esplit in Hrec |- *. rewrite set_parts_more.
      rewrite Hhas, Hitem.
      cbn [str_truthy]. unfold under_index.
      rewrite (position_of_nat _ _ _ Hnth), Hnth, Hrec. reflexivity.
    + cbn [set_at] in Hx'. destruct x; try discriminate.
      exfalso. apply Hnotarr. exact I.
Qed.
End Paths.

Section Restoring.
Import batch_file.

Lemma dict_set_keys (k : pystr) (c c' : json) (d : dict) :
  dict_get k d = Some c -> List.map fst (dict_set k c' d) = List.map fst d.
Proof.
  induction d as [|[k0 v0] d IH]; cbn; [discriminate|].
  destruct (str_eqb k0 k) eqn:E.
  - apply str_eqb_eq in E. subst. reflexivity.
  - intros H. cbn. f_equal. exact (IH H).
Qed.

Lemma dict_set_in (k : pystr) (c' : json) (d : dict) (kv : pystr * json) :
  In kv (dict_set k c' d) -> In kv d \/ kv = (k, c').
Proof.
  induction d as [|[k0 v0] d IH]; cbn.
  - intros [<- | []]. right. reflexivity.
  - destruct (str_eqb k0 k) eqn:E.
    + apply str_eqb_eq in E. subst. intros [<- | H]; [right; reflexivity|].
      left. right. exact H.
    + intros [<- | H]; [left; left; reflexivity|].
      destruct (IH H) as [Hin | ->]; [left; right; exact Hin | right; reflexivity].
Qed.

Lemma set_at_addressable (place : list hop) :
  forall (data data' : json) (text : pystr),
    addressable data ->
    set_at data place text = Some data' ->
    addressable data' /\ (is_arr data' -> is_arr data).
Proof.
  induction place as [|[k | i] place IH]; intros data data' text Had Hset.
  - cbn in Hset. injection Hset as <-. split; [constructor | intros []].
  - cbn [set_at] in Hset. destruct data as [ | | | | | d]; try discriminate.
    destruct (dict_get k d) as [c|] eqn:Hget; [|discriminate].
    destruct (set_at c place text) as [c'|] eqn:Hc'; [|discriminate].
    injection Hset as <-.
    destruct (addressable_value _ _ _ Had Hget) as [Hk Hc].
    destruct (IH c c' text Hc Hc') as [Hc'ad _].
    split; [|intros []].
    inversion Had as [ | | | | | ? Hnd Hd ]; subst. constructor.
    + rewrite (dict_set_keys _ _ _ _ Hget). exact Hnd.
    + rewrite List.Forall_forall in Hd |- *. intros kv Hin.
      destruct (dict_set_in _ _ _ _ Hin) as [Hin' | ->].
      * exact (Hd kv Hin').
      * split; assumption.
  - cbn [set_at] in Hset. destruct data as [ | | | | l | ]; try discriminate.
    destruct (nth_error l i) as [x|] eqn:Hnth; [|discriminate].
    destruct (set_at x place text) as [x'|] eqn:Hx'; [|discriminate].
    injection Hset as <-.
    destruct (addressable_item _ _ _ Had Hnth) as [Hx Hnotarr].
    destruct (IH x x' text Hx Hx') as [Hx'ad Harr].
    split; [|intros _; exact I].
    inversion Had as [ | | | | ? Hl | ]; subst. constructor.
    apply Forall_insert; [exact Hl|]. split; [exact Hx'ad|].
    intros H. apply Hnotarr. exact (Harr H).
Qed.

Variable int : pystr -> option Z.
Hypothesis int_str : forall i, int (str_of_nat i) = Some (Z.of_nat i).

Lemma apply_sets_all (found_sites : list (list hop * (pystr * pystr))) :
  forall (data result : json) (texts : list pystr),
    addressable data ->
    Forall (fun site => fst site <> []) found_sites ->
    set_all data (List.map fst found_sites) texts = Some result ->
    apply_translations int data (List.map (entry_of []) found_sites) texts
    = Assigned result.
Proof.
  induction found_sites as [|site more IH]; intros data result texts Had Hne Hset.
  - cbn in Hset |- *. congruence.
  - destruct texts as [|t texts]; [cbn in Hset |- *; congruence|].
    cbn [List.map set_all] in Hset. cbn [List.map apply_translations].
    destruct (set_at data (fst site) t) as [data'|] eqn:Hat; [|discriminate].
    inversion Hne as [|? ? Hq Hmore]; subst.
    unfold entry_of at 1. cbn [found_path].
    rewrite (set_by_path int int_str data data' (fst site) t Had Hq Hat).
    apply IH; [|exact Hmore | exact Hset].
    exact (proj1 (set_at_addressable _ _ _ _ Had Hat)).
Qed.

Lemma in_extend_each {A B : Type} (f : nat -> A -> list B) (l : list A) (y : B) :
  forall i, In y (extend_each f i l) -> exists j x, In x l /\ In y (f j x).
Proof.
  induction l as [|a l IH]; intros i; cbn [extend_each]; [intros []|].
  intros H. apply List.in_app_or in H. destruct H as [H | H].
  - exists i, a. split; [left; reflexivity | exact H].
  - destruct (IH _ H) as (j & x & Hx & Hy). exists j, x.
    split; [right; exact Hx | exact Hy].
Qed.

Lemma sites_below_root (data : json) (field_name : pystr) :
  wanted field_name data = false ->
  Forall (fun site => fst site <> []) (sites data field_name).
Proof.
  intros Hw. rewrite List.Forall_forall. intros site Hin.
  destruct data as [ | b | n | s | l | d]; cbn [sites] in Hin; try contradiction.
  - rewrite Hw in Hin. contradiction.
  - apply in_extend_each in Hin. destruct Hin as (j & x & _ & Hin).
    apply List.in_map_iff in Hin. destruct Hin as (s0 & <- & _). discriminate.
  - apply List.in_flat_map in Hin. destruct Hin as (kv & _ & Hin).
    apply List.in_map_iff in Hin. destruct Hin as (s0 & <- & _). discriminate.
Qed.

Lemma restore_is_put_back (data : json) (texts : list pystr) :
  addressable data ->
  wanted [] data = false ->
  apply_translations int data (collect_translatable_strings data [] []) texts
  = Assigned (fst (put_back data [] texts)).
Proof.
  intros Had Hw. rewrite collect_sites.
  apply apply_sets_all; [exact Had | exact (sites_below_root _ _ Hw)|].
  exact (proj1 (put_back_sets_all data Had [] texts)).
Qed.
End Restoring.

Section PutBackFacts.
Import batch_file.

Lemma thread_same {A : Type} (f : A -> list pystr -> A * list pystr)
    (values : A -> list pystr) (l : list A) :
  (forall x, In x l -> forall extra, f x (values x ++ extra) = (x, extra)) ->
  forall extra, thread f l (flat_map values l ++ extra) = (l, extra).
Proof.
  induction l as [|a l IH]; intros Hf extra; [reflexivity|].
  cbn [thread flat_map]. rewrite <- List.app_assoc.
  rewrite (Hf a (or_introl eq_refl)).
  rewrite (IH (fun x Hx => Hf x (or_intror Hx))). reflexivity.
Qed.

Lemma map_extend_each {A B C : Type} (h : B -> C) (f : nat -> A -> list B)
    (g : A -> list C) (l : list A) :
  (forall i x, List.map h (f i x) = g x) ->
  forall i, List.map h (extend_each f i l) = flat_map g l.
Proof.
  intros Hfg. induction l as [|a l IH]; intros i; [reflexivity|].
  cbn [extend_each flat_map]. rewrite List.map_app, Hfg, IH. reflexivity.
Qed.

Lemma map_flat_map {A B C : Type} (h : B -> C) (f : A -> list B) (l : list A) :
  List.map h (flat_map f l) = flat_map (fun x => List.map h (f x)) l.
Proof.
  induction l as [|a l IH]; [reflexivity|].
  cbn [flat_map]. rewrite List.map_app, IH. reflexivity.
Qed.

Lemma put_back_same (data : json) :
  forall field_name extra,
    put_back data field_name
      (List.map value_of (sites data field_name) ++ extra)
    = (data, extra).
Proof.
  induction data as [ | b | n | s | l IH | kvs IH] using json_ind';
    intros field_name extra; try reflexivity.
  - cbn [sites put_back]. destruct (wanted field_name (JStr s)); reflexivity.
  - cbn [sites put_back].
    rewrite (map_extend_each value_of _
               (fun item => List.map value_of (sites item field_name))).
    + rewrite thread_same; [reflexivity|].
      intros x Hx extra'. rewrite List.Forall_forall in IH. apply (IH x Hx).
    + intros i x. rewrite List.map_map. reflexivity.
  - cbn [sites put_back]. rewrite map_flat_map.
    rewrite (thread_same _
               (fun kv : pystr * json =>
                  List.map value_of
                    (List.map (fun site => (At (fst kv) :: fst site, snd site))
                       (sites (snd kv) (fst kv))))).
    + reflexivity.
    + intros [k v] Hx extra'. cbn [fst snd]. rewrite List.map_map.
      rewrite List.Forall_forall in IH.
      pose proof (IH (k, v) Hx k extra') as E. cbn [snd] in E.
      unfold value_of in E |- *. cbn [snd]. rewrite E. reflexivity.
Qed.

Lemma thread_shape {A C : Type} (f : A -> list pystr -> A * list pystr)
    (sh : A -> C) (l : list A) :
  (forall x, In x l -> forall texts, sh (fst (f x texts)) = sh x) ->
  forall texts, List.map sh (fst (thread f l texts)) = List.map sh l.
Proof.
  induction l as [|a l IH]; intros Hf texts; [reflexivity|].
  cbn [thread]. pose proof (Hf a (or_introl eq_refl) texts) as Ha.
  destruct (f a texts) as [a' texts1]. cbn [fst] in Ha.
  pose proof (IH (fun x Hx => Hf x (or_intror Hx)) texts1) as Hl.
  destruct (thread f l texts1) as [l' texts2]. cbn [fst] in Hl |- *.
  cbn [List.map]. rewrite Ha, Hl. reflexivity.
Qed.

Lemma put_back_shape (data : json) :
  forall field_name texts,
    shape_of (fst (put_back data field_name texts)) = shape_of data.
Proof.
  induction data as [ | b | n | s | l IH | kvs IH] using json_ind';
    intros field_name texts; try reflexivity.
  - cbn [put_back]. destruct (wanted field_name (JStr s)); [|reflexivity].
    destruct texts; reflexivity.
  - cbn [put_back].
    pose proof (thread_shape (fun item texts => put_back item field_name texts)
                  shape_of l) as H.
    destruct (thread _ l texts) as [items' rest] eqn:E.
    cbn [fst shape_of]. f_equal.
    specialize (H (fun x Hx t => proj1 (List.Forall_forall _ _) IH x Hx field_name t)
                  texts).
    rewrite E in H. exact H.
  - cbn [put_back].
    pose proof (thread_shape
                  (fun (kv : pystr * json) texts =>
                     let (v', texts') := put_back (snd kv) (fst kv) texts in
                     ((fst kv, v'), texts'))
                  (fun kv => (fst kv, shape_of (snd kv))) kvs) as H.
    destruct (thread _ kvs texts) as [kvs' rest] eqn:E.
    cbn [fst shape_of]. f_equal.
    assert (Hf : forall x, In x kvs -> forall t,
      (fun kv : pystr * json => (fst kv, shape_of (snd kv)))
        (fst ((fun (kv : pystr * json) texts =>
                 let (v', texts') := put_back (snd kv) (fst kv) texts in
                 ((fst kv, v'), texts')) x t))
      = (fst x, shape_of (snd x))).
    { intros [k v] Hx t. cbn [fst snd].
      rewrite List.Forall_forall in IH.
      pose proof (IH (k, v) Hx k t) as Ev. cbn [snd] in Ev.
      destruct (put_back v k t) as [v' t']. cbn [fst snd] in Ev |- *.
      rewrite Ev. reflexivity. }
    specialize (H Hf texts). rewrite E in H. exact H.
Qed.

Lemma undigits_digits (d : Decimal.uint) : undigits (digits d) = Some d.
Proof. induction d; cbn [digits undigits]; [reflexivity | ..]; rewrite IHd; reflexivity. Qed.

Lemma int_of_digits_str (i : nat) :
  int_of_digits (str_of_nat i) = Some (Z.of_nat i).
Proof.
  unfold int_of_digits, str_of_nat. rewrite undigits_digits.
  rewrite DecimalNat.Unsigned.of_to.
  destruct (digits (Nat.to_uint i)) eqn:E; [|reflexivity].
  exfalso. assert (Hnil : Nat.to_uint i = Decimal.Nil)
    by (destruct (Nat.to_uint i); cbn in E; congruence).
  pose proof (DecimalNat.Unsigned.of_to i) as H. rewrite Hnil in H.
  cbn in H. subst i. discriminate Hnil.
Qed.
End PutBackFacts.

Section NestedArrays.
Import batch_file.
Variable int : pystr -> option Z.

Lemma split_length (c : N) (s : pystr) :
  List.length (split c s) = S (count c s).
Proof.
  unfold count. induction s as [|x s IH]; [reflexivity|].
  cbn [split List.filter]. rewrite (N.eqb_sym c x).
  destruct (N.eqb x c).
  - cbn [List.length]. rewrite IH. reflexivity.
  - destruct (split c s) as [|piece pieces]; [discriminate IH|]. exact IH.
Qed.

Lemma item_of_two_brackets (part : pystr) :
  (2 <= count left_bracket part)%nat ->
  has_char left_bracket part = true /\ item_of int part = None.
Proof.
  intros H. split.
  - destruct (has_char left_bracket part) eqn:E; [reflexivity|].
    rewrite count_absent in H; [lia|].
    intros Hin. apply has_char_In in Hin. congruence.
  - unfold item_of. pose proof (split_length left_bracket part) as L.
    destruct (split left_bracket part) as [|a [|b [|c0 l]]]; try reflexivity;
      cbn [List.length] in L; lia.
Qed.

Lemma set_parts_two_brackets (value : pystr) (parts : list pystr) :
  forall current : json,
    Exists (fun part => (2 <= count left_bracket part)%nat) parts ->
    set_parts int current parts value = Raised.
Proof.
  induction parts as [|part rest IH]; intros current Hbad.
  - inversion Hbad.
  - destruct rest as [|p ps].
    + inversion Hbad as [? ? Hpart | ? ? Hrest]; subst; [|inversion Hrest].
      destruct (item_of_two_brackets part Hpart) as [Hhas Hitem].
      cbn [set_parts]. unfold set_final. rewrite Hhas, Hitem. reflexivity.
    + rewrite set_parts_more.
      inversion Hbad as [? ? Hpart | ? ? Hrest]; subst.
      * destruct (item_of_two_brackets part Hpart) as [Hhas Hitem].
        rewrite Hhas, Hitem. reflexivity.
      * assert (Hbelow : forall c, set_parts int c (p :: ps) value = Raised)
          by (intros c; apply IH; exact Hrest).
        destruct (has_char left_bracket part).
        -- destruct (item_of int part) as [[base idx]|]; [|reflexivity].
           destruct (str_truthy base).
           ++ unfold under_key.
              destruct current as [ | | | | | d]; try reflexivity.
              destruct (dict_get base d) as [c|]; [|reflexivity].
              unfold under_index.
              destruct c as [ | | | | l | ]; try reflexivity.
              destruct (position _ idx) as [i|]; [|reflexivity].
              destruct (nth_error l i) as [x|]; [|reflexivity].
              rewrite Hbelow. reflexivity.
           ++ unfold under_index.
              destruct current as [ | | | | l | ]; try reflexivity.
              destruct (position _ idx) as [i|]; [|reflexivity].
              destruct (nth_error l i) as [x|]; [|reflexivity].
              rewrite Hbelow. reflexivity.
        -- unfold under_key.
           destruct current as [ | | | | | d]; try reflexivity.
           destruct (dict_get part d) as [c|]; [|reflexivity].
           rewrite Hbelow. reflexivity.
Qed.
End NestedArrays.

(** X25. The loop of [translate_file] that applies the translations puts
    every text where its string was collected: on a document whose keys
    are plain and in which no array is an element of an array, it
    succeeds, and the document afterwards is the original with the
    collected strings replaced, in collection order, by the texts -- the
    same shape, every other value untouched. *)
Theorem batch_restore_puts_back
    (int : pystr -> option Z) (data : json) (translated_texts : list pystr) :
  (forall i, int (batch_file.str_of_nat i) = Some (Z.of_nat i)) ->
  batch_file.addressable data ->
  batch_file.wanted [] data = false ->
  batch_file.apply_translations int data
    (batch_file.collect_translatable_strings data [] []) translated_texts
  = batch_file.Assigned (fst (batch_file.put_back data [] translated_texts))
  /\ shape_of (fst (batch_file.put_back data [] translated_texts))
     = shape_of data.
Proof.
  intros Hint Had Hw. split.
  - apply restore_is_put_back; assumption.
  - apply put_back_shape.
Qed.

Lemma batch_restore_puts_back_witness :
  batch_file.apply_translations batch_file.int_of_digits
    (JObj [(py "name", JStr (py "Shoot"));
           (py "id", JStr (py "a1"));
           (py "list", JArr [JObj [(py "title", JStr (py "Hit"))]])])
    (batch_file.collect_translatable_strings
       (JObj [(py "name", JStr (py "Shoot"));
              (py "id", JStr (py "a1"));
              (py "list", JArr [JObj [(py "title", JStr (py "Hit"))]])])
       [] [])
    [py "Disparar"; py "Golpe"]
  = batch_file.Assigned
      (JObj [(py "name", JStr (py "Disparar"));
             (py "id", JStr (py "a1"));
             (py "list", JArr [JObj [(py "title", JStr (py "Golpe"))]])]).
Proof.
  apply (proj1 (batch_restore_puts_back batch_file.int_of_digits
                  (JObj [(py "name", JStr (py "Shoot"));
                         (py "id", JStr (py "a1"));
                         (py "list", JArr [JObj [(py "title", JStr (py "Hit"))]])])
                  [py "Disparar"; py "Golpe"]
                  int_of_digits_str
                  ltac:(repeat first
                          [ split
                          | constructor
                          | discriminate
                          | (intros H; vm_compute in H; intuition discriminate) ])
                  eq_refl)).
Defined.

(** X26. Collecting and putting back is a round trip: when the texts
    applied are the values that were collected, the document comes back
    as it was. *)
Theorem batch_restore_round_trip (int : pystr -> option Z) (data : json) :
  (forall i, int (batch_file.str_of_nat i) = Some (Z.of_nat i)) ->
  batch_file.addressable data ->
  batch_file.wanted [] data = false ->
  batch_file.apply_translations int data
    (batch_file.collect_translatable_strings data [] [])
    (List.map batch_file.found_value
       (batch_file.collect_translatable_strings data [] []))
  = batch_file.Assigned data.
Proof.
  intros Hint Had Hw.
  rewrite (restore_is_put_back int Hint data _ Had Hw).
  rewrite collect_sites, List.map_map.
  change (List.map (fun x => batch_file.found_value (batch_file.entry_of [] x))
            (batch_file.sites data []))
    with (List.map batch_file.value_of (batch_file.sites data [])).
  rewrite <- (List.app_nil_r (List.map batch_file.value_of _)).
  rewrite put_back_same. reflexivity.
Qed.

Lemma batch_restore_round_trip_witness :
  batch_file.apply_translations batch_file.int_of_digits
    (JArr [JObj [(py "effects", JArr [JStr (py "Hit"); JStr (py " ")])]])
    (batch_file.collect_translatable_strings
       (JArr [JObj [(py "effects", JArr [JStr (py "Hit"); JStr (py " ")])]])
       [] [])
    (List.map batch_file.found_value
       (batch_file.collect_translatable_strings
          (JArr [JObj [(py "effects", JArr [JStr (py "Hit"); JStr (py " ")])]])
          [] []))
  = batch_file.Assigned
      (JArr [JObj [(py "effects", JArr [JStr (py "Hit"); JStr (py " ")])]]).
Proof.
  apply (batch_restore_round_trip batch_file.int_of_digits).
  - exact int_of_digits_str.
  - repeat first
      [ split
      | constructor
      | discriminate
      | (intros H; vm_compute in H; intuition discriminate) ].
  - reflexivity.
Defined.

(** X27. [set_value_by_path] cannot name an element of an array that is
    itself an element of an array: a path one of whose dot-separated
    parts holds two opening brackets, as the paths collected below such
    an array do, makes the call raise, whatever the document. *)
Theorem nested_array_path_raises
    (int : pystr -> option Z) (data : json) (path value part : pystr) :
  In part (split batch_file.dot path) ->
  (2 <= count batch_file.left_bracket part)%nat ->
  batch_file.set_value_by_path int data path value = batch_file.Raised.
Proof.
  intros Hin Hcount. unfold batch_file.set_value_by_path.
  apply set_parts_two_brackets. apply List.Exists_exists.
  exists part. split; assumption.
Qed.

Lemma nested_array_path_raises_witness :
  batch_file.apply_translations batch_file.int_of_digits
    (JObj [(py "effects", JArr [JArr [JStr (py "Hit")]])])
    (batch_file.collect_translatable_strings
       (JObj [(py "effects", JArr [JArr [JStr (py "Hit")]])]) [] [])
    [py "Golpe"]
  = batch_file.Raised.
Proof.
  cbn [batch_file.apply_translations batch_file.collect_translatable_strings
       flat_map batch_file.extend_each fst snd app].
  change (batch_file.wanted (py "effects") (JStr (py "Hit"))) with true.
  cbn iota. cbn [app batch_file.apply_translations batch_file.found_path].
  rewrite (nested_array_path_raises batch_file.int_of_digits _ _ _
             (py "effects[0][0]")).
  - reflexivity.
  - vm_compute. left. reflexivity.
  - vm_compute. lia.
Defined.
